(** * gitlab_repo_group_sync: the batch scheduler and the per-project sync task

    A shallow embedding of [gitlab_repo_group_sync.py]: [create_directory],
    [clone_repository] and the batch loop of the [__main__] block, over a
    small model of what the script calls from outside (the filesystem,
    GitPython's [Repo], [signal.alarm] and [multiprocessing.Pool]). *)

From stdpp Require Import base option list strings gmap.
From Stdlib Require Import ZArith Lia.

Open Scope string_scope.
Open Scope list_scope.
Open Scope nat_scope.

(** ** Exceptions and outcomes of a computation *)

(** The Python exceptions the script can meet.  [sys.exit(code)] raises
    [SystemExit], which is a [BaseException] but not an [Exception]. *)
Inductive exn : Type :=
| InvalidGitRepositoryError
| NoSuchPathError
| GitCommandError (msg : string)
| FileExistsError
| FileNotFoundError
| NotADirectoryError
| PermissionError
| OtherException (msg : string)
| SystemExit (code : Z).

(** [isinstance(e, Exception)] *)
Definition is_Exception (e : exn) : bool :=
  match e with
  | SystemExit _ => false
  | _ => true
  end.

(** [isinstance(e, OSError)]; GitPython's [NoSuchPathError] is one. *)
Definition is_OSError (e : exn) : bool :=
  match e with
  | FileExistsError | FileNotFoundError | NotADirectoryError | PermissionError
  | NoSuchPathError => true
  | _ => false
  end.

(** How a computation ends: it returns, it raises, its process is terminated
    by SIGALRM (the script installs no handler, so the default action
    applies), or it waits for ever. *)
Inductive outcome (A : Type) : Type :=
| Ret (a : A)
| Raise (e : exn)
| Killed
| Blocked.
Arguments Ret {A} a.
Arguments Raise {A} e.
Arguments Killed {A}.
Arguments Blocked {A}.

(** State passing with an outcome: the state is kept on every exit, since
    what a Python call did before it raised stays done. *)
Definition M (S A : Type) : Type := S → outcome A * S.

Definition ret {S A} (a : A) : M S A := λ s, (Ret a, s).
Definition raise {S A} (e : exn) : M S A := λ s, (Raise e, s).
Definition bind {S A B} (m : M S A) (k : A → M S B) : M S B :=
  λ s, match m s with
       | (Ret a, s') => k a s'
       | (Raise e, s') => (Raise e, s')
       | (Killed, s') => (Killed, s')
       | (Blocked, s') => (Blocked, s')
       end.

(** [try: m  except <the exceptions h answers>: handler] *)
Definition try_except {S A} (m : M S A) (h : exn → option (M S A)) : M S A :=
  λ s, match m s with
       | (Raise e, s') =>
           match h e with
           | Some k => k s'
           | None => (Raise e, s')
           end
       | r => r
       end.

Declare Scope py_scope.
Delimit Scope py_scope with py.
Notation "x <- m ;; k" := (bind m (λ x, k))
  (at level 100, m at next level, right associativity) : py_scope.
Notation "m ;; k" := (bind m (λ _, k))
  (at level 100, right associativity) : py_scope.
Open Scope py_scope.

(** ** The filesystem *)

(** A path is its list of components below the root; the root itself is [[]]
    and always exists ([os.path.join] of the base directory and
    [path_with_namespace] is the concatenation of the two lists). *)
Abbreviation path := (list string).

(** What is at a path: a regular file, or a directory, with whether the
    process may make entries in it. *)
Inductive node : Type :=
| File
| Dir (writable : bool).

Abbreviation fsys := (gmap (list string) node).

Definition node_at (fs : fsys) (p : path) : option node :=
  match p with
  | [] => Some (Dir true)
  | _ => fs !! p
  end.

(** [os.path.exists] *)
Definition path_exists (fs : fsys) (p : path) : bool :=
  match node_at fs p with
  | Some _ => true
  | None => false
  end.

(** [os.path.dirname] *)
Definition parent (p : path) : path := take (length p - 1) p.

(** [os.mkdir], on a filesystem of regular files and directories: it
    fails when the path exists, when its parent is missing or is no
    directory, and when the parent may not be written to. *)
Definition mkdir (p : path) : M fsys unit :=
  λ fs, match node_at fs p with
        | Some _ => (Raise FileExistsError, fs)
        | None =>
            match node_at fs (parent p) with
            | None => (Raise FileNotFoundError, fs)
            | Some File => (Raise NotADirectoryError, fs)
            | Some (Dir false) => (Raise PermissionError, fs)
            | Some (Dir true) => (Ret tt, <[p := Dir true]> fs)
            end
        end.

(** [os.makedirs(name)], with [exist_ok=False], for [name] the first [n]
    components of [p]: make the parent first when it is missing (a
    [FileExistsError] from that recursive call is passed over), then
    [mkdir(name)]. *)
Fixpoint makedirs_upto (p : path) (n : nat) : M fsys unit :=
  match n with
  | 0 => mkdir []
  | S k =>
      (λ fs,
        if path_exists fs (take k p) then ret tt fs
        else try_except (makedirs_upto p k)
               (λ e, match e with
                     | FileExistsError => Some (ret tt)
                     | _ => None
                     end) fs) ;;
      mkdir (take (S k) p)
  end.

Definition makedirs (p : path) : M fsys unit := makedirs_upto p (length p).

(** [create_directory(path)]
<<
    if not os.path.exists(path):
        os.makedirs(path)
>> *)
Definition create_directory (p : path) : M fsys unit :=
  λ fs, if negb (path_exists fs p) then makedirs p fs else ret tt fs.

(** ** The worker process: GitPython, the alarm and the sync task *)

(** A project as the catalog returns it: [path_with_namespace] (split into
    its components) and [ssh_url_to_repo]. *)
Record project : Type := {
  path_with_namespace : path;
  ssh_url_to_repo : string
}.

(** What a worker does that can be seen from outside: its prints, and its
    calls to [signal.alarm] and GitPython. *)
Inductive wevent : Type :=
| CallRepo (p : path)
| PrintIsRepo (p : path)
| SetAlarm (seconds : nat)
| CallFetch (p : path)
| PrintFetchFailed (msg : string)
| PrintCloning (ns base : path)
| CallCloneFrom (url : string) (p : path)
| PrintCloneFailed (msg : string).

(** A process: the filesystem it sees, the seconds left on its SIGALRM
    timer ([0]: no alarm pending) and what it did so far. *)
Record process : Type := {
  p_fs : fsys;
  p_alarm : nat;
  p_log : list wevent
}.

Definition log (e : wevent) : M process unit :=
  λ s, (Ret tt, {| p_fs := p_fs s; p_alarm := p_alarm s; p_log := p_log s ++ [e] |}).

(** [signal.alarm(seconds)]: replaces the pending alarm; [0] cancels it. *)
Definition signal_alarm (seconds : nat) : M process unit :=
  λ s, (Ret tt, {| p_fs := p_fs s; p_alarm := seconds;
                   p_log := p_log s ++ [SetAlarm seconds] |}).

(** [sys.exit(code)] *)
Definition sys_exit {S A} (code : Z) : M S A := raise (SystemExit code).

(** A git command against the remote: how many seconds it takes and whether
    it fails, and with what. *)
Record remote_op : Type := {
  duration : nat;
  failure : option exn
}.

(** The remote side of a run: what each fetch and each clone will do. *)
Record world : Type := {
  fetch_op : path → remote_op;
  clone_op : string → path → remote_op
}.

(** A blocking call of [o] in a process.  A pending alarm that runs out
    before the call is over ([expires]) delivers SIGALRM, and with no
    handler installed the process is terminated; otherwise the call ends
    after [duration o] seconds, and [effect] is what it writes when it
    succeeds.  What a child process of git may still write once the worker
    is gone is not kept. *)
Definition expires (alarm : nat) (o : remote_op) : bool :=
  (0 <? alarm) && (alarm <=? duration o).

Definition blocking_call (o : remote_op) (effect : fsys → fsys) : M process unit :=
  λ s, if expires (p_alarm s) o
       then (Killed, {| p_fs := p_fs s; p_alarm := 0; p_log := p_log s |})
       else match failure o with
            | Some e => (Raise e, {| p_fs := p_fs s;
                                     p_alarm := p_alarm s - duration o;
                                     p_log := p_log s |})
            | None => (Ret tt, {| p_fs := effect (p_fs s);
                                  p_alarm := p_alarm s - duration o;
                                  p_log := p_log s |})
            end.

(** A directory holds a working copy when it has a [.git] directory: any
    such directory is taken for one, what git checks inside it is left
    out, and so is a [.git] that is a file. *)
Definition is_git_dir (fs : fsys) (p : path) : bool :=
  match fs !! (p ++ [".git"]) with
  | Some (Dir _) => true
  | _ => false
  end.

(** [Repo(path)]: [NoSuchPathError] for a path that does not exist,
    [InvalidGitRepositoryError] for one that holds no working copy. *)
Definition Repo (p : path) : M process unit :=
  log (CallRepo p) ;;
  λ s, match node_at (p_fs s) p with
       | None => (Raise NoSuchPathError, s)
       | Some _ =>
           if is_git_dir (p_fs s) p then (Ret tt, s)
           else (Raise InvalidGitRepositoryError, s)
       end.

(** [repo.remotes.origin.fetch()].  What a fetch writes lies inside the
    [.git] of the working copy; none of it is kept here. *)
Definition fetch (w : world) (p : path) : M process unit :=
  log (CallFetch p) ;;
  blocking_call (fetch_op w p) (λ fs, fs).

(** [Repo.clone_from(url, path)]: a clone that succeeds leaves a working
    copy at [path].  Of what it writes, all of it at [path] and below, the
    directory and its [.git] are kept here. *)
Definition clone_from (w : world) (url : string) (p : path) : M process unit :=
  log (CallCloneFrom url p) ;;
  blocking_call (clone_op w url p)
    (λ fs, <[p ++ [".git"] := Dir true]> (<[p := Dir true]> fs)).

(** The first [try] of [clone_repository], under [# Fetch updates]:
<<
    try:
        repo = Repo(path)
        print(f"'{path}' is git repository. Trying to fetch changes")
        signal.alarm(timeout)
        repo.remotes.origin.fetch()
        signal.alarm(0)
    except InvalidGitRepositoryError:
        pass
    except GitCommandError as _err:
        print(f"Failed to fetch changes: {_err}")
    else:
        return
>>
    The result tells whether the [else: return] was reached. *)
Definition fetch_updates (w : world) (p : path) (timeout : nat) : M process bool :=
  try_except
    (Repo p ;;
     log (PrintIsRepo p) ;;
     signal_alarm timeout ;;
     fetch w p ;;
     signal_alarm 0 ;;
     ret true)
    (λ e, match e with
          | InvalidGitRepositoryError => Some (ret false)
          | GitCommandError msg => Some (log (PrintFetchFailed msg) ;; ret false)
          | _ => None
          end).

(** The second [try], under [# Clone repository]:
<<
    try:
        print(f"Cloning '{project.path_with_namespace}' to '{gl_local_base_path}'.")
        signal.alarm(timeout)
        Repo.clone_from(project.ssh_url_to_repo, path)
        signal.alarm(0)
    except GitCommandError as _err:
        print(f"Failed to cloning repository: {_err}")
        sys.exit(1)
>>
    [gl_local_base_path] is the module's global. *)
Definition clone_fresh (w : world) (gl_local_base_path : path)
    (pr : project) (p : path) (timeout : nat) : M process unit :=
  try_except
    (log (PrintCloning (path_with_namespace pr) gl_local_base_path) ;;
     signal_alarm timeout ;;
     clone_from w (ssh_url_to_repo pr) p ;;
     signal_alarm 0)
    (λ e, match e with
          | GitCommandError msg => Some (log (PrintCloneFailed msg) ;; sys_exit 1)
          | _ => None
          end).

(** [clone_repository(project, path, timeout)]: the two in a row. *)
Definition clone_repository (w : world) (gl_local_base_path : path)
    (pr : project) (p : path) (timeout : nat) : M process unit :=
  fetched <- fetch_updates w p timeout ;;
  if fetched : bool then ret tt
  else clone_fresh w gl_local_base_path pr p timeout.

(** ** The pool and the scheduler *)

(** An [AsyncResult]: [None] until the worker posts a result, then the value
    the task returned or the exception it raised. *)
Abbreviation async_result := (option (unit + exn)).

(** The worker loop of [multiprocessing.Pool] around one task: it posts the
    task's return value, or the exception when it is an [Exception].  A task
    that leaves by [SystemExit], or whose process SIGALRM terminates, takes
    the worker down before anything is posted. *)
Definition pool_worker (r : outcome unit) : async_result :=
  match r with
  | Ret tt => Some (inl tt)
  | Raise e => if is_Exception e then Some (inr e) else None
  | Killed => None
  | Blocked => None
  end.

(** What the run does, in the order of the main process: the index [i] is
    the position of the project in the catalog's list (it is not in the
    script, it names the task in the trace). *)
Inductive event : Type :=
| Submitted (i : nat) (pr : project)
| Worked (i : nat) (did : list wevent) (r : outcome unit)
| Waited (i : nat).

Record sched : Type := {
  s_fs : fsys;
  s_trace : list event
}.

Definition emit (e : event) : M sched unit :=
  λ s, (Ret tt, {| s_fs := s_fs s; s_trace := s_trace s ++ [e] |}).

(** A filesystem call made by the main process. *)
Definition on_fs {A} (m : M fsys A) : M sched A :=
  λ s, let '(r, fs') := m (s_fs s) in (r, {| s_fs := fs'; s_trace := s_trace s |}).

(** A worker process that takes up a task: no alarm is pending and nothing
    is done yet. *)
Definition fresh (fs : fsys) : process :=
  {| p_fs := fs; p_alarm := 0; p_log := [] |}.

(** [pool.apply_async(task)]: the task is handed to a worker, which has no
    alarm pending, and runs there; the caller gets the [AsyncResult] back
    at once.  The task is run here at the moment it is submitted: a task
    touches only its own target directory, which the main process made
    just before.  This is one of the orders in which the pool can get its
    work done; [Concurrent] below has them all. *)
Definition apply_async (i : nat) (pr : project) (task : M process unit)
    : M sched (nat * async_result) :=
  emit (Submitted i pr) ;;
  λ s, let '(r, p) := task (fresh (s_fs s)) in
       (Ret (i, pool_worker r),
        {| s_fs := p_fs p; s_trace := s_trace s ++ [Worked i (p_log p) r] |}).

(** [result.wait()], without a timeout: returns once the result is posted,
    whatever it is; the result is not looked at. *)
Definition wait (result : nat * async_result) : M sched unit :=
  match result.2 with
  | Some _ => emit (Waited result.1)
  | None => λ s, (Blocked, s)
  end.

Section MainLoop.

Variable w : world.
Variable gl_local_base_path : path.
Variable gl_batch : nat.
Variable gl_timeout : nat.

(** The body of [for project in batch]:
<<
          path = os.path.join(gl_local_base_path, project.path_with_namespace)
          create_directory(path)
          clone_func = partial(clone_repository, project, path, gl_timeout)
          result = pool.apply_async(clone_func)
          results.append(result)
>> *)
Definition submit_project (i : nat) (pr : project)
    (results : list (nat * async_result)) : M sched (list (nat * async_result)) :=
  let p := gl_local_base_path ++ path_with_namespace pr in
  on_fs (create_directory p) ;;
  result <- apply_async i pr
              (clone_repository w gl_local_base_path pr p gl_timeout) ;;
  ret (results ++ [result]).

Fixpoint submit_batch (i : nat) (batch : list project)
    (results : list (nat * async_result)) : M sched (list (nat * async_result)) :=
  match batch with
  | [] => ret results
  | pr :: rest =>
      results' <- submit_project i pr results ;;
      submit_batch (S i) rest results'
  end.

(** [for result in results: result.wait()] *)
Fixpoint wait_all (results : list (nat * async_result)) : M sched unit :=
  match results with
  | [] => ret tt
  | result :: rest => wait result ;; wait_all rest
  end.

(** One turn of the outer loop, for the batch that starts at index [i]. *)
Definition run_batch (projects : list project) (i : nat) : M sched unit :=
  let batch := take gl_batch (drop i projects) in
  results <- submit_batch i batch [] ;;
  wait_all results.

Fixpoint for_each (starts : list nat) (body : nat → M sched unit) : M sched unit :=
  match starts with
  | [] => ret tt
  | i :: rest => body i ;; for_each rest body
  end.

(** [range(0, n, step)] for [step > 0]. *)
Definition range_step (n step : nat) : list nat :=
  (λ k, k * step) <$> seq 0 ((n + step - 1) / step).

(** The batch loop of [__main__]; [range] raises [ValueError] for a zero
    step. *)
Definition main_loop (projects : list project) : M sched unit :=
  if gl_batch =? 0 then raise (OtherException "ValueError")
  else for_each (range_step (length projects) gl_batch) (run_batch projects).

(** The batches the loop goes through, [projects[i : i + gl_batch]]. *)
Definition batches (projects : list project) : list (list project) :=
  (λ i, take gl_batch (drop i projects)) <$> range_step (length projects) gl_batch.

End MainLoop.

(** The run starts with nothing done yet. *)
Definition start (fs : fsys) : sched := {| s_fs := fs; s_trace := [] |}.

(** The projects handed to the pool, in the order of the trace. *)
Definition submitted (tr : list event) : list project :=
  omap (λ e, match e with Submitted _ pr => Some pr | _ => None end) tr.

(** Whether every task the trace shows at work posted a result. *)
Definition posted (e : event) : bool :=
  match e with
  | Worked _ _ out =>
      match pool_worker out with
      | Some _ => true
      | None => false
      end
  | _ => true
  end.

Definition all_posted (tr : list event) : bool := forallb posted tr.

(** The task an event is about. *)
Definition ev_index (e : event) : nat :=
  match e with
  | Submitted i _ => i
  | Worked i _ _ => i
  | Waited i => i
  end.

(** In a filesystem every entry lies in a directory that exists. *)
Definition closed (fs : fsys) : Prop :=
  map_Forall (λ q _, is_Some (node_at fs (parent q))) fs.

(** ** A small mirror to run the definitions on *)

Module Example.

Definition base : path := ["srv"; "mirror"].

Definition api : project :=
  {| path_with_namespace := ["acme"; "api"];
     ssh_url_to_repo := "git@gitlab:acme/api.git" |}.

Definition infra : project :=
  {| path_with_namespace := ["acme"; "infra"];
     ssh_url_to_repo := "git@gitlab:acme/infra.git" |}.

(** An empty mirror directory. *)
Definition fs_empty : fsys :=
  {[ ["srv"] := Dir true; ["srv"; "mirror"] := Dir true ]}.

(** A mirror directory the user may not write to. *)
Definition fs_readonly : fsys :=
  {[ ["srv"] := Dir true; ["srv"; "mirror"] := Dir false ]}.

(** A mirror that already holds a working copy of [api]. *)
Definition fs_cloned : fsys :=
  <[ ["srv"; "mirror"; "acme"; "api"; ".git"] := Dir true ]>
    (<[ ["srv"; "mirror"; "acme"; "api"] := Dir true ]>
       (<[ ["srv"; "mirror"; "acme"] := Dir true ]> fs_empty)).

(** The empty mirror once the target directory of [api] is made. *)
Definition fs_made : fsys :=
  <[ ["srv"; "mirror"; "acme"; "api"] := Dir true ]>
    (<[ ["srv"; "mirror"; "acme"] := Dir true ]> fs_empty).

Definition handbook : project :=
  {| path_with_namespace := ["docs"; "handbook"];
     ssh_url_to_repo := "git@gitlab:docs/handbook.git" |}.

(** An empty mirror in which [acme] is a regular file. *)
Definition fs_acme_file : fsys :=
  <[ ["srv"; "mirror"; "acme"] := File ]> fs_empty.

Definition quick_ok : remote_op := {| duration := 5; failure := None |}.
Definition quick_error (msg : string) : remote_op :=
  {| duration := 5; failure := Some (GitCommandError msg) |}.
Definition slow_ok : remote_op := {| duration := 200; failure := None |}.

(** Every fetch and every clone succeeds in five seconds. *)
Definition remote_ok : world :=
  {| fetch_op := λ _, quick_ok; clone_op := λ _ _, quick_ok |}.

(** The clone of [api] is refused; everything else succeeds. *)
Definition remote_api_refused : world :=
  {| fetch_op := λ _, quick_ok;
     clone_op := λ url _,
       if decide (url = ssh_url_to_repo api)
       then quick_error "repository not found" else quick_ok |}.

(** The remote refuses every fetch; git refuses to clone into a directory
    that is not empty. *)
Definition remote_fetch_refused : world :=
  {| fetch_op := λ _, quick_error "could not read from remote repository";
     clone_op := λ _ _, quick_error "destination path already exists" |}.

(** The working copies have no remote called [origin]: the fetch raises an
    exception that is not a [GitCommandError]. *)
Definition remote_no_origin : world :=
  {| fetch_op := λ _, {| duration := 0;
                         failure := Some (OtherException "AttributeError") |};
     clone_op := λ _ _, quick_ok |}.

(** Every operation takes two hundred seconds. *)
Definition remote_slow : world :=
  {| fetch_op := λ _, slow_ok; clone_op := λ _ _, slow_ok |}.

End Example.

#[global] Instance closed_dec (fs : fsys) : Decision (closed fs).
Proof. unfold closed. apply _. Defined.

(** ** The pool at work beside the main process *)

(** In the loop above a task is run to its end at the moment it is
    submitted, which is one of the ways the pool can go about its work.
    Here the pool holds the tasks it was given and runs them when it sees
    fit: a task is run, in one piece, at some point between its submission
    and the return of the wait on it, and [schedule] says which of the
    tasks the pool holds are run before each step of the main process. *)
Module Concurrent.

(** The main process with its pool: the tasks submitted and not yet run,
    the results posted so far, and the number of steps the main process
    has made. *)
Record state : Type := {
  c_fs : fsys;
  c_trace : list event;
  c_queue : list (nat * M process unit);
  c_results : gmap nat (unit + exn);
  c_turn : nat
}.

Definition start (fs : fsys) : state :=
  {| c_fs := fs; c_trace := []; c_queue := []; c_results := ∅; c_turn := 0 |}.

(** A worker runs task [i]: what the task writes is written, and its result
    is posted unless the worker goes down with it. *)
Definition run_task (i : nat) (task : M process unit) (s : state) : state :=
  let '(r, p) := task (fresh (c_fs s)) in
  {| c_fs := p_fs p;
     c_trace := c_trace s ++ [Worked i (p_log p) r];
     c_queue := c_queue s;
     c_results := match pool_worker r with
                  | Some v => <[i := v]> (c_results s)
                  | None => c_results s
                  end;
     c_turn := c_turn s |}.

(** Task [i] is taken from the queue and run, if it is still there. *)
Definition run_queued (i : nat) (s : state) : state :=
  match list_find (λ t, t.1 = i) (c_queue s) with
  | Some (k, t) =>
      run_task i t.2 {| c_fs := c_fs s; c_trace := c_trace s;
                        c_queue := delete k (c_queue s);
                        c_results := c_results s; c_turn := c_turn s |}
  | None => s
  end.

Section Pool.

Variable schedule : nat → list nat.
Variable w : world.
Variable gl_local_base_path : path.
Variable gl_batch : nat.
Variable gl_timeout : nat.

(** What the pool gets done while the main process makes its next step. *)
Definition pool_turn : M state unit :=
  λ s, (Ret tt,
        foldl (λ s i, run_queued i s)
          {| c_fs := c_fs s; c_trace := c_trace s; c_queue := c_queue s;
             c_results := c_results s; c_turn := S (c_turn s) |}
          (schedule (c_turn s))).

(** A filesystem call made by the main process. *)
Definition on_fs {A} (m : M fsys A) : M state A :=
  pool_turn ;;
  λ s, let '(r, fs') := m (c_fs s) in
       (r, {| c_fs := fs'; c_trace := c_trace s; c_queue := c_queue s;
              c_results := c_results s; c_turn := c_turn s |}).

(** [pool.apply_async(task)]: the task is put on the queue and the caller
    gets the [AsyncResult] back at once; [i] stands for it. *)
Definition apply_async (i : nat) (pr : project) (task : M process unit)
    : M state nat :=
  pool_turn ;;
  λ s, (Ret i, {| c_fs := c_fs s; c_trace := c_trace s ++ [Submitted i pr];
                  c_queue := c_queue s ++ [(i, task)];
                  c_results := c_results s; c_turn := c_turn s |}).

(** [result.wait()], without a timeout: it returns once the result is
    posted, so the task has been run by then at the latest; when the worker
    went down with the task nothing is ever posted, and the wait does not
    return. *)
Definition wait (result : nat) : M state unit :=
  pool_turn ;;
  λ s, let s1 := run_queued result s in
       match c_results s1 !! result with
       | Some _ =>
           (Ret tt, {| c_fs := c_fs s1; c_trace := c_trace s1 ++ [Waited result];
                       c_queue := c_queue s1; c_results := c_results s1;
                       c_turn := c_turn s1 |})
       | None => (Blocked, s1)
       end.

Definition submit_project (i : nat) (pr : project) (results : list nat)
    : M state (list nat) :=
  let p := gl_local_base_path ++ path_with_namespace pr in
  on_fs (create_directory p) ;;
  result <- apply_async i pr
              (clone_repository w gl_local_base_path pr p gl_timeout) ;;
  ret (results ++ [result]).

Fixpoint submit_batch (i : nat) (batch : list project) (results : list nat)
    : M state (list nat) :=
  match batch with
  | [] => ret results
  | pr :: rest =>
      results' <- submit_project i pr results ;;
      submit_batch (S i) rest results'
  end.

Fixpoint wait_all (results : list nat) : M state unit :=
  match results with
  | [] => ret tt
  | result :: rest => wait result ;; wait_all rest
  end.

Definition run_batch (projects : list project) (i : nat) : M state unit :=
  let batch := take gl_batch (drop i projects) in
  results <- submit_batch i batch [] ;;
  wait_all results.

Fixpoint for_each (starts : list nat) (body : nat → M state unit) : M state unit :=
  match starts with
  | [] => ret tt
  | i :: rest => body i ;; for_each rest body
  end.

Definition main_loop (projects : list project) : M state unit :=
  if gl_batch =? 0 then raise (OtherException "ValueError")
  else for_each (range_step (length projects) gl_batch) (run_batch projects).

End Pool.

(** The pool that leaves every task until it is waited for. *)
Definition lazy : nat → list nat := λ _, [].

(** The pool that runs every task as soon as it has it, [n] being a bound
    on the number of tasks. *)
Definition at_once (n : nat) : nat → list nat := λ _, seq 0 n.

End Concurrent.

(** Task [k] was run, posted a result, and was waited for after that. *)
Definition done_in (l : list event) (k : nat) : Prop :=
  ∃ pos1 pos2 did out,
    pos1 < pos2
    ∧ l !! pos1 = Some (Worked k did out)
    ∧ pool_worker out ≠ None
    ∧ l !! pos2 = Some (Waited k).

(** In the middle of batch [lo ..]: what was added to the trace [tr0] the
    batch began with is about the tasks of the batch submitted so far
    (below [qhi]); the queue holds tasks from [qlo] on, each once; a result
    was posted by a task that ran; and the tasks below [qlo] are done. *)
Definition batch_inv (tr0 : list event) (lo qlo qhi : nat)
    (s : Concurrent.state) : Prop :=
  lo ≤ qlo
  ∧ ∃ l, Concurrent.c_trace s = tr0 ++ l
       ∧ Forall (λ e, lo ≤ ev_index e < qhi) l
       ∧ NoDup (Concurrent.c_queue s).*1
       ∧ (∀ k, k ∈ (Concurrent.c_queue s).*1 → qlo ≤ k < qhi)
       ∧ (∀ k v, lo ≤ k → Concurrent.c_results s !! k = Some v →
                 ∃ did out, Worked k did out ∈ l ∧ pool_worker out = Some v)
       ∧ (∀ k, lo ≤ k < qlo → done_in l k).

(** Between two batches: the pool holds no task, and no result is there
    for a task yet to come. *)
Definition drained (lo : nat) (s : Concurrent.state) : Prop :=
  Concurrent.c_queue s = []
  ∧ ∀ k, lo ≤ k → Concurrent.c_results s !! k = None.

(** The state of the pool once it has run the task it holds. *)
Definition settle (c : Concurrent.state) : Concurrent.state :=
  match Concurrent.c_queue c with
  | [] => c
  | (i, task) :: _ =>
      Concurrent.run_task i task
        {| Concurrent.c_fs := Concurrent.c_fs c;
           Concurrent.c_trace := Concurrent.c_trace c;
           Concurrent.c_queue := [];
           Concurrent.c_results := Concurrent.c_results c;
           Concurrent.c_turn := Concurrent.c_turn c |}
  end.

(** The loop that runs each task when it submits it, and the loop with a
    pool that holds at most one task, in step: once the pool has run what
    it holds, the filesystem and the trace are the same, and the result of
    every handle [hs] of the batch is the one the pool has. *)
Definition in_step (n : nat) (hs : list (nat * async_result)) (nxt : nat)
    (s : sched) (c : Concurrent.state) : Prop :=
  length (Concurrent.c_queue c) ≤ 1
  ∧ (∀ i, i ∈ (Concurrent.c_queue c).*1 → i < n)
  ∧ Concurrent.c_fs (settle c) = s_fs s
  ∧ Concurrent.c_trace (settle c) = s_trace s
  ∧ (∀ h, h ∈ hs → h.1 < nxt ∧ Concurrent.c_results (settle c) !! h.1 = h.2)
  ∧ (∀ k, nxt ≤ k → Concurrent.c_results (settle c) !! k = None).

(** The same with a pool that holds nothing. *)
Definition synced (s : sched) (c : Concurrent.state) : Prop :=
  Concurrent.c_queue c = []
  ∧ Concurrent.c_fs c = s_fs s
  ∧ Concurrent.c_trace c = s_trace s.

(** ** Start-up: configuration, authentication and the catalog *)

(** An exception of a class the sync task does not name is an
    [OtherException] that carries the name of its class. *)
Definition GitlabAuthenticationError : exn := OtherException "GitlabAuthenticationError".
Definition GitlabDataError : exn := OtherException "GitlabDataError".
Definition GitlabGetError : exn := OtherException "GitlabGetError".
Definition GitlabListError : exn := OtherException "GitlabListError".
Definition EOFError : exn := OtherException "EOFError".

(** [isinstance(e, cls)] for those classes. *)
Definition raised_is (cls : string) (e : exn) : bool :=
  match e with
  | OtherException c => bool_decide (c = cls)
  | _ => false
  end.

(** The [Gitlab] object: how it was made. *)
Inductive handle : Type :=
| ByCredentials (url token : string)
| ByConfig (section : string).

(** The GitLab server and the python-gitlab configuration, seen from the
    script: what [gl.auth()] on a new [Gitlab] object does, and what
    [gl.groups.get] and [root_grp.projects.list] answer. *)
Record gitlab_service : Type := {
  authenticate : handle → option exn;
  groups_get : handle → string → exn + string;
  projects_list : handle → string → exn + list project
}.

(** The three questions the script can ask on the terminal. *)
Inductive prompt : Type :=
| AskRootPath
| AskUrl
| AskToken.

(** Its four failure messages. *)
Inductive message : Type :=
| AuthCredentialsFailed
| AuthConfigFailed
| GroupNotFound
| RetrieveFailed.

(** Its requests to GitLab. *)
Inductive request : Type :=
| Authenticate (h : handle)
| GroupsGet (h : handle) (group_path : string)
| ProjectsList (h : handle) (group : string).

Inductive pevent : Type :=
| Asked (q : prompt)
| Printed (m : message) (e : exn)
| Requested (r : request).

(** The main process: the lines still to come on its standard input, what
    it printed and requested so far, and the state of its batch loop. *)
Record program : Type := {
  stdin : list string;
  console : list pevent;
  run : sched
}.

Definition say (e : pevent) : M program unit :=
  λ s, (Ret tt, {| stdin := stdin s; console := console s ++ [e]; run := run s |}).

(** [input(prompt)]: [EOFError] at the end of the input. *)
Definition input (q : prompt) : M program string :=
  say (Asked q) ;;
  λ s, match stdin s with
       | [] => (Raise EOFError, s)
       | line :: rest =>
           (Ret line, {| stdin := rest; console := console s; run := run s |})
       end.

(** [os.environ.get(name) or None]: a variable set to the empty string
    counts as not set. *)
Definition env_nonempty (env : gmap string string) (name : string) : option string :=
  match env !! name with
  | Some v => if bool_decide (v = "") then None else Some v
  | None => None
  end.

(** [os.environ.get(name) or input(prompt)] *)
Definition env_or_input (env : gmap string string) (name : string) (q : prompt)
    : M program string :=
  match env_nonempty env name with
  | Some v => ret v
  | None => input q
  end.

(** A call to GitLab that answers with a value or raises. *)
Definition call {A} (r : request) (answer : exn + A) : M program A :=
  say (Requested r) ;;
  λ s, match answer with
       | inl e => (Raise e, s)
       | inr a => (Ret a, s)
       end.

(** [gitlab.Gitlab(...)] or [gitlab.Gitlab.from_config(...)], then
    [gl.auth()]. *)
Definition connect (gl : gitlab_service) (h : handle) : M program handle :=
  call (Authenticate h)
    (match authenticate gl h with
     | Some e => inl e
     | None => inr h
     end).

(** [auth_with_gitlab_credentials(gl_url, gl_token)]
<<
    try:
        gl = gitlab.Gitlab(gl_url, private_token=gl_token)
        gl.auth()
        return gl
    except gitlab.exceptions.GitlabAuthenticationError as _err:
        print(f"Failed to authenticate with GitLab with credentials: {_err}")
        sys.exit(1)
>> *)
Definition auth_with_gitlab_credentials (gl : gitlab_service)
    (gl_url gl_token : string) : M program handle :=
  try_except
    (connect gl (ByCredentials gl_url gl_token))
    (λ e, if raised_is "GitlabAuthenticationError" e
          then Some (say (Printed AuthCredentialsFailed e) ;; sys_exit 1)
          else None).

(** [auth_with_gitlab_config(gl_config_section)]
<<
    try:
        gl = gitlab.Gitlab.from_config(gl_config_section)
        gl.auth()
        return gl
    except (
        gitlab.exceptions.GitlabAuthenticationError,
        gitlab.config.GitlabDataError,
    ) as _err:
        print(f"Failed to authenticate with GitLab with config: {_err}")
        sys.exit(1)
>> *)
Definition auth_with_gitlab_config (gl : gitlab_service)
    (gl_config_section : string) : M program handle :=
  try_except
    (connect gl (ByConfig gl_config_section))
    (λ e, if raised_is "GitlabAuthenticationError" e
             || raised_is "GitlabDataError" e
          then Some (say (Printed AuthConfigFailed e) ;; sys_exit 1)
          else None).

(** [get_root_group_path(gl, gl_root_path)]
<<
    try:
        root_grp = gl.groups.get(gl_root_path)
        return root_grp
    except gitlab.exceptions.GitlabGetError as _err:
        print(f"Failed to find group path: {_err}\nPlease try again.")
        sys.exit(1)
>> *)
Definition get_root_group_path (gl : gitlab_service) (h : handle)
    (gl_root_path : string) : M program string :=
  try_except
    (call (GroupsGet h gl_root_path) (groups_get gl h gl_root_path))
    (λ e, if raised_is "GitlabGetError" e
          then Some (say (Printed GroupNotFound e) ;; sys_exit 1)
          else None).

(** The batch loop as a part of the main process. *)
Definition in_run {A} (m : M sched A) : M program A :=
  λ s, let '(r, q) := m (run s) in
       (r, {| stdin := stdin s; console := console s; run := q |}).

Section Main.

(** What the script takes from outside: the environment, GitLab, the
    remotes, [os.path.abspath] and the directory of the script file. *)
Variable env : gmap string string.
Variable gl : gitlab_service.
Variable w : world.
Variable abspath : string → path.
Variable script_dir : string.

(** The [__main__] block, from its first line to the end of the batch loop
    ([Pool(processes=os.cpu_count())] before the loop, and [pool.close()]
    and [pool.join()] after it, show nothing here):
<<
    gl_batch = 10
    gl_timeout = 180

    gl_local_base_path = os.path.abspath(
        os.environ.get("GL_LOCAL_BASE_PATH", os.path.dirname(os.path.abspath(__file__)))
    )
    gl_root_path = os.environ.get("GL_ROOT_PATH") or input(...)
    gl_config_section = os.environ.get("GL_CONFIG_SECTION") or None

    if not gl_config_section:
        gl_url = os.environ.get("GL_URL") or input("GitLab url: ")
        gl_token = os.environ.get("GL_TOKEN") or input("GitLab token: ")
        gl = auth_with_gitlab_credentials(gl_url, gl_token)
    else:
        gl = auth_with_gitlab_config(gl_config_section)

    try:
        root_grp = get_root_group_path(gl, gl_root_path)
        projects = root_grp.projects.list(include_subgroups=True, all=True)
    except (
        gitlab.exceptions.GitlabGetError,
        gitlab.exceptions.GitlabListError,
    ) as _err:
        print(f"Failed to retrieve information from GitLab: {_err}")
        sys.exit(1)
>> *)
Definition gl_batch : nat := 10.
Definition gl_timeout : nat := 180.

Definition gl_local_base_path : path :=
  abspath (default script_dir (env !! "GL_LOCAL_BASE_PATH")).

Definition authenticated : M program handle :=
  match env_nonempty env "GL_CONFIG_SECTION" with
  | None =>
      gl_url <- env_or_input env "GL_URL" AskUrl ;;
      gl_token <- env_or_input env "GL_TOKEN" AskToken ;;
      auth_with_gitlab_credentials gl gl_url gl_token
  | Some gl_config_section => auth_with_gitlab_config gl gl_config_section
  end.

Definition catalog (h : handle) (gl_root_path : string) : M program (list project) :=
  try_except
    (root_grp <- get_root_group_path gl h gl_root_path ;;
     call (ProjectsList h root_grp) (projects_list gl h root_grp))
    (λ e, if raised_is "GitlabGetError" e || raised_is "GitlabListError" e
          then Some (say (Printed RetrieveFailed e) ;; sys_exit 1)
          else None).

Definition main : M program unit :=
  gl_root_path <- env_or_input env "GL_ROOT_PATH" AskRootPath ;;
  h <- authenticated ;;
  projects <- catalog h gl_root_path ;;
  in_run (main_loop w gl_local_base_path gl_batch gl_timeout projects).

End Main.

(** The main process at its start. *)
Definition boot (lines : list string) (fs : fsys) : program :=
  {| stdin := lines; console := []; run := start fs |}.

(** ** Runs in which nothing goes wrong *)

(** Every directory may be written to and nothing else is in the way. *)
Definition all_writable (fs : fsys) : Prop :=
  ∀ q n, node_at fs q = Some n → n = Dir true.

(** Every fetch and every clone succeeds before the alarm runs out. *)
Definition remote_sound (w : world) (timeout : nat) : Prop :=
  (∀ p, failure (fetch_op w p) = None ∧ expires timeout (fetch_op w p) = false)
  ∧ (∀ url p, failure (clone_op w url p) = None
              ∧ expires timeout (clone_op w url p) = false).

(** The calls to [Repo.clone_from] in what the workers did. *)
Definition is_clone_call (e : wevent) : bool :=
  match e with
  | CallCloneFrom _ _ => true
  | _ => false
  end.

Definition clone_calls (tr : list event) : list wevent :=
  tr ≫= (λ e, match e with
               | Worked _ did _ => filter (λ x, is_clone_call x = true) did
               | _ => []
               end).

(** The indices handed to the pool, in the order of the trace. *)
Definition submitted_ids (tr : list event) : list nat :=
  omap (λ e, match e with Submitted i _ => Some i | _ => None end) tr.

(** ** What the main process showed *)

(** The questions it asked on the terminal, its failure messages and its
    requests to GitLab, each in the order of the console. *)
Definition asked (c : list pevent) : list prompt :=
  omap (λ e, match e with Asked q => Some q | _ => None end) c.

Definition failure_messages (c : list pevent) : list (message * exn) :=
  omap (λ e, match e with Printed m x => Some (m, x) | _ => None end) c.

Definition requests (c : list pevent) : list request :=
  omap (λ e, match e with Requested rq => Some rq | _ => None end) c.

(** A step of the start-up: it leaves the batch loop's state alone, it
    reads the terminal only when it asks, and when it prints a failure
    message it prints one and exits with status 1. *)
Definition startup_step {A} (m : M program A) : Prop :=
  ∀ s r s',
    m s = (r, s') →
    run s' = run s
    ∧ ∃ evs,
        console s' = console s ++ evs
        ∧ (asked evs = [] → stdin s' = stdin s)
        ∧ (failure_messages evs = []
           ∨ ∃ m0 e, r = Raise (SystemExit 1) ∧ failure_messages evs = [(m0, e)]).

(** A step that asks nothing on the terminal. *)
Definition never_asks {A} (m : M program A) : Prop :=
  ∀ s r s', m s = (r, s') →
            stdin s' = stdin s ∧ asked (console s') = asked (console s).

(** What a failure message says went wrong: the call that raised the
    exception it shows, and the class its handler names. *)
Definition cause (gl : gitlab_service) (m : message) (e : exn) : Prop :=
  match m with
  | AuthCredentialsFailed =>
      raised_is "GitlabAuthenticationError" e = true
      ∧ ∃ url token, authenticate gl (ByCredentials url token) = Some e
  | AuthConfigFailed =>
      raised_is "GitlabAuthenticationError" e || raised_is "GitlabDataError" e = true
      ∧ ∃ section, authenticate gl (ByConfig section) = Some e
  | GroupNotFound =>
      raised_is "GitlabGetError" e = true
      ∧ ∃ h root, groups_get gl h root = inl e
  | RetrieveFailed =>
      (∃ h g, projects_list gl h g = inl e)
      ∨ (raised_is "GitlabGetError" e = false
         ∧ ∃ h root, groups_get gl h root = inl e)
  end.

(** ** A small GitLab to run the start-up on *)

Module Office.

(** The environment names the group and a section of the configuration
    file. *)
Definition env : gmap string string :=
  <["GL_ROOT_PATH" := "acme"]> {["GL_CONFIG_SECTION" := "work"]}.

Definition abspath (p : string) : path := Example.base.

(** A GitLab that lets everyone in and lists two projects in every group. *)
Definition gitlab_open : gitlab_service :=
  {| authenticate := λ _, None;
     groups_get := λ _ group_path, inr group_path;
     projects_list := λ _ _, inr [Example.api; Example.infra] |}.

(** A GitLab that lets no one in. *)
Definition gitlab_locked : gitlab_service :=
  {| authenticate := λ _, Some GitlabAuthenticationError;
     groups_get := λ _ group_path, inr group_path;
     projects_list := λ _ _, inr [] |}.

End Office.

(** * Properties *)

(** ** Directories *)

Lemma node_at_insert_eq (fs : fsys) (p : path) (n : node) :
  p ≠ [] → node_at (<[p := n]> fs) p = Some n.
Proof. destruct p; [done|]. intros _. simpl. apply lookup_insert_eq. Qed.

Lemma node_at_insert_ne (fs : fsys) (p q : path) (n : node) :
  p ≠ q → node_at (<[p := n]> fs) q = node_at fs q.
Proof. intros Hne. destruct q; [done|]. simpl. by apply lookup_insert_ne. Qed.

Lemma parent_take_S (p : path) (k : nat) :
  S k ≤ length p → parent (take (S k) p) = take k p.
Proof.
  intros Hk. unfold parent. rewrite length_take, Nat.min_l by lia.
  rewrite take_take. f_equal. lia.
Qed.

Lemma take_S_nonempty (p : path) (k : nat) : S k ≤ length p → take (S k) p ≠ [].
Proof. destruct p; simpl; [lia | done]. Qed.

Lemma take_inj_length (p : path) (j k : nat) :
  j ≤ length p → k ≤ length p → take j p = take k p → j = k.
Proof.
  intros Hj Hk Heq. apply (f_equal length) in Heq.
  rewrite !length_take in Heq. lia.
Qed.

Lemma mkdir_spec (p : path) (fs fs' : fsys) (r : outcome unit) :
  mkdir p fs = (r, fs') →
  (r = Ret tt ∧ node_at fs p = None ∧ node_at fs (parent p) = Some (Dir true)
     ∧ fs' = <[p := Dir true]> fs)
  ∨ (∃ e, r = Raise e ∧ fs' = fs).
Proof.
  unfold mkdir. intros H.
  destruct (node_at fs p) eqn:Hp; [inversion H; right; eauto|].
  destruct (node_at fs (parent p)) as [[|[]]|] eqn:Hpar;
    inversion H; subst; try (right; by eauto).
  left. done.
Qed.

Lemma node_at_insert_is_Some (fs : fsys) (p q : path) (n : node) :
  is_Some (node_at fs q) → is_Some (node_at (<[p := n]> fs) q).
Proof.
  destruct q as [|x q]; [done|]. simpl. intros H.
  rewrite lookup_insert. case_decide; [by eexists | done].
Qed.

Lemma closed_lookup (fs : fsys) :
  closed fs ↔ ∀ q, is_Some (fs !! q) → is_Some (node_at fs (parent q)).
Proof.
  unfold closed. rewrite map_Forall_lookup. split.
  - intros H q [n Hq]. by eapply H.
  - intros H q n Hq. apply H. by eexists.
Qed.

Lemma closed_insert (fs : fsys) (p : path) (n : node) :
  closed fs → is_Some (node_at fs (parent p)) → closed (<[p := n]> fs).
Proof.
  rewrite !closed_lookup.
  intros Hcl Hpar q Hq. apply node_at_insert_is_Some.
  destruct (decide (p = q)) as [<-|Hne]; [done|].
  rewrite lookup_insert_ne in Hq by done. by apply Hcl.
Qed.

Lemma closed_prefix (fs : fsys) (q : path) :
  closed fs → is_Some (node_at fs q) → ∀ j, is_Some (node_at fs (take j q)).
Proof.
  rewrite closed_lookup. intros Hcl.
  induction q as [|x q IH] using rev_ind; intros Hq j.
  - by rewrite take_nil.
  - assert (is_Some (node_at fs q)) as Hpar.
    { specialize (Hcl (q ++ [x])). unfold parent in Hcl.
      rewrite length_app, Nat.add_sub, take_app_length in Hcl.
      apply Hcl. by destruct q. }
    destruct (decide (j ≤ length q)) as [Hj|Hj].
    + rewrite take_app_le by done. by apply IH.
    + rewrite take_ge by (rewrite length_app; simpl; lia). done.
Qed.

Lemma path_exists_false (fs : fsys) (p : path) :
  path_exists fs p = false → node_at fs p = None.
Proof. unfold path_exists. by destruct (node_at fs p). Qed.

Lemma path_exists_true (fs : fsys) (p : path) :
  path_exists fs p = true ↔ is_Some (node_at fs p).
Proof.
  unfold path_exists. destruct (node_at fs p); split; done.
Qed.

(** What [os.makedirs] does when its argument does not exist: either every
    missing directory on the way is made and nothing else changes, or the
    first [mkdir] fails and nothing was changed at all. *)
Lemma makedirs_upto_spec (p : path) (k : nat) :
  ∀ (fs fs' : fsys) (r : outcome unit),
    k ≤ length p → node_at fs (take k p) = None →
    makedirs_upto p k fs = (r, fs') →
    (r = Ret tt ∧ node_at fs' (take k p) = Some (Dir true)
       ∧ (∀ q, (∀ j, j ≤ k → q ≠ take j p) → fs' !! q = fs !! q)
       ∧ (∀ q n, node_at fs q = Some n → node_at fs' q = Some n)
       ∧ (∀ q, node_at fs' q = node_at fs q ∨ node_at fs' q = Some (Dir true))
       ∧ (closed fs → closed fs'))
    ∨ (∃ e, r = Raise e ∧ fs' = fs).
Proof.
  induction k as [|k IH]; intros fs fs' r Hk Hnone Hrun.
  - by rewrite take_0 in Hnone.
  - cbn [makedirs_upto] in Hrun. unfold bind in Hrun.
    destruct (path_exists fs (take k p)) eqn:Hex.
    + unfold ret in Hrun.
      apply mkdir_spec in Hrun as [(-> & _ & Hpar & ->)|?]; [left|by right].
      rewrite parent_take_S in Hpar by done.
      split_and!; [done|by apply node_at_insert_eq, take_S_nonempty|..].
      * intros q Hq. apply lookup_insert_ne, not_eq_sym, Hq. lia.
      * intros q n Hq. rewrite node_at_insert_ne; [done|]. congruence.
      * intros q. destruct (decide (take (S k) p = q)) as [<-|Hne].
        -- right. by apply node_at_insert_eq, take_S_nonempty.
        -- left. by apply node_at_insert_ne.
      * intros Hcl. apply closed_insert; [done|].
        rewrite parent_take_S by done. by eexists.
    + apply path_exists_false in Hex. unfold try_except in Hrun.
      destruct (makedirs_upto p k fs) as [r1 fs1] eqn:Hrec.
      destruct (IH fs fs1 r1 ltac:(lia) Hex Hrec)
        as [(-> & Hdir & Hframe & Hmono & Hnew & Hclo)|(e & -> & ->)].
      * assert (node_at fs1 (take (S k) p) = None) as Hnone1.
        { pose proof (take_S_nonempty p k Hk) as Hne.
          destruct (take (S k) p) as [|x l] eqn:Ht; [done|].
          rewrite <- Ht in *. clear Ht. unfold node_at in *.
          destruct (take (S k) p) eqn:Ht'; [done|]. rewrite <- Ht' in *.
          rewrite Hframe; [done|].
          intros j Hj Heq. apply take_inj_length in Heq; lia. }
        unfold mkdir in Hrun. rewrite Hnone1, parent_take_S, Hdir in Hrun by done.
        inversion Hrun; subst. left.
        split_and!; [done|by apply node_at_insert_eq, take_S_nonempty|..].
        -- intros q Hq. rewrite lookup_insert_ne by (apply not_eq_sym, Hq; lia).
           apply Hframe. intros j Hj. apply Hq. lia.
        -- intros q n Hq. rewrite node_at_insert_ne; [by apply Hmono|].
           intros <-. apply Hmono in Hq. congruence.
        -- intros q. destruct (decide (take (S k) p = q)) as [<-|Hne].
           ++ right. by apply node_at_insert_eq, take_S_nonempty.
           ++ rewrite node_at_insert_ne by done. apply Hnew.
        -- intros Hcl. apply closed_insert; [by apply Hclo|].
           rewrite parent_take_S by done. by eexists.
      * right. destruct e; try (inversion Hrun; by eauto).
        unfold ret, mkdir in Hrun.
        rewrite Hnone, parent_take_S, Hex in Hrun by done.
        inversion Hrun; by eauto.
Qed.

Lemma create_directory_spec (p : path) (fs fs' : fsys) (r : outcome unit) :
  create_directory p fs = (r, fs') →
  (r = Ret tt ∧ is_Some (node_at fs' p)
     ∧ (∀ q n, node_at fs q = Some n → node_at fs' q = Some n)
     ∧ (∀ q, node_at fs' q = node_at fs q ∨ node_at fs' q = Some (Dir true))
     ∧ (∀ q, (∀ j, q ≠ take j p) → fs' !! q = fs !! q)
     ∧ (closed fs → closed fs'))
  ∨ (∃ e, r = Raise e ∧ fs' = fs ∧ node_at fs p = None).
Proof.
  unfold create_directory. destruct (path_exists fs p) eqn:Hex; simpl.
  - intros [= <- <-]. left. apply path_exists_true in Hex. split_and!; auto.
  - apply path_exists_false in Hex. unfold makedirs. intros Hrun.
    apply makedirs_upto_spec in Hrun; [|done|by rewrite firstn_all].
    destruct Hrun as [(-> & Hdir & Hframe & Hmono & Hnew & Hclo)|(e & -> & ->)].
    + left. rewrite firstn_all in Hdir. split_and!; auto.
    + right. eauto.
Qed.

(** When the deepest directory that exists on the way to [p] may be written
    to, [os.makedirs] makes every directory below it, one after the other,
    and nothing else. *)
Lemma makedirs_upto_makes (p : path) (j : nat) (fs : fsys) :
  node_at fs (take j p) = Some (Dir true) →
  ∀ d, j + S d ≤ length p →
       (∀ k, j < k ≤ j + S d → node_at fs (take k p) = None) →
       ∃ fs1, makedirs_upto p (j + S d) fs = (Ret tt, fs1)
              ∧ (∀ k, j < k ≤ j + S d → node_at fs1 (take k p) = Some (Dir true))
              ∧ (∀ q, (∀ k, j < k ≤ j + S d → q ≠ take k p) → fs1 !! q = fs !! q).
Proof.
  intros Hj. induction d as [|d IH]; intros Hlen Hnone.
  - replace (j + 1) with (S j) in * by lia.
    cbn [makedirs_upto]. unfold bind, path_exists, ret, mkdir.
    rewrite Hj, (Hnone (S j)), parent_take_S, Hj by lia.
    eexists. split_and!; [done|..].
    + intros k Hk. assert (k = S j) as -> by lia.
      by apply node_at_insert_eq, take_S_nonempty.
    + intros q Hq. apply lookup_insert_ne, not_eq_sym, Hq. lia.
  - destruct IH as (fs1 & Hrun & Hmade & Hframe); [lia|intros k Hk; apply Hnone; lia|].
    replace (j + S (S d)) with (S (j + S d)) in * by lia.
    cbn [makedirs_upto]. unfold bind, path_exists, try_except.
    rewrite (Hnone (j + S d)), Hrun by lia. unfold ret, mkdir.
    assert (node_at fs1 (take (S (j + S d)) p) = None) as Hnew.
    { pose proof (take_S_nonempty p (j + S d) Hlen) as Hne.
      rewrite <- (Hnone (S (j + S d))) by lia.
      destruct (take (S (j + S d)) p) as [|x l] eqn:Ht; [done|].
      cbn [node_at]. rewrite <- Ht. apply Hframe.
      intros k Hk Heq. apply take_inj_length in Heq; lia. }
    rewrite Hnew, parent_take_S, (Hmade (j + S d)) by lia.
    eexists. split_and!; [done|..].
    + intros k Hk. destruct (decide (k = S (j + S d))) as [->|Hne].
      * by apply node_at_insert_eq, take_S_nonempty.
      * rewrite node_at_insert_ne; [apply Hmade; lia|].
        intros Heq. apply take_inj_length in Heq; lia.
    + intros q Hq. rewrite lookup_insert_ne by (apply not_eq_sym, Hq; lia).
      apply Hframe. intros k Hk. apply Hq. lia.
Qed.

Lemma create_directory_makes (p : path) (j : nat) (fs : fsys) :
  j < length p →
  node_at fs (take j p) = Some (Dir true) →
  (∀ k, j < k ≤ length p → node_at fs (take k p) = None) →
  ∃ fs1, create_directory p fs = (Ret tt, fs1)
         ∧ (∀ k, j < k ≤ length p → node_at fs1 (take k p) = Some (Dir true))
         ∧ (∀ q, (∀ k, j < k ≤ length p → q ≠ take k p) → fs1 !! q = fs !! q).
Proof.
  intros Hlt Hj Hnone. unfold create_directory, path_exists, makedirs.
  pose proof (Hnone (length p) ltac:(lia)) as Hp. rewrite firstn_all in Hp.
  rewrite Hp. cbn [negb].
  destruct (makedirs_upto_makes p j fs Hj (length p - j - 1)) as (fs1 & Hrun & H1 & H2).
  - lia.
  - intros k Hk. apply Hnone. lia.
  - replace (j + S (length p - j - 1)) with (length p) in * by lia.
    exists fs1. split_and!; [done|..].
    + intros k Hk. apply H1. lia.
    + intros q Hq. apply H2. intros k Hk. apply Hq. lia.
Qed.

(** C8. [create_directory] is idempotent: on a path that exists it returns
    at once and changes nothing; calling it twice does what calling it once
    does, as one program and as two calls in a row; and when it returns,
    every directory on the way to the path that was missing has been made,
    with nothing that was there before touched.  And it does return when
    the deepest directory that exists on the way to the path may be written
    to: every directory below that one is made, down to the path itself,
    and nothing else is changed. *)
Theorem create_directory_idempotent (p : path) (fs : fsys) :
  (path_exists fs p = true → create_directory p fs = (Ret tt, fs))
  ∧ (create_directory p ;; create_directory p) fs = create_directory p fs
  ∧ (∀ r fs1, create_directory p fs = (r, fs1) → create_directory p fs1 = (r, fs1))
  ∧ (∀ fs1, closed fs → create_directory p fs = (Ret tt, fs1) →
       (∀ j, is_Some (node_at fs1 (take j p)))
       ∧ (∀ j, node_at fs (take j p) = None → node_at fs1 (take j p) = Some (Dir true))
       ∧ (∀ q n, node_at fs q = Some n → node_at fs1 q = Some n))
  ∧ (∀ j, j < length p →
          node_at fs (take j p) = Some (Dir true) →
          (∀ k, j < k ≤ length p → node_at fs (take k p) = None) →
          ∃ fs1, create_directory p fs = (Ret tt, fs1)
                 ∧ (∀ k, j < k ≤ length p →
                         node_at fs1 (take k p) = Some (Dir true))
                 ∧ (∀ q, (∀ k, j < k ≤ length p → q ≠ take k p) →
                         fs1 !! q = fs !! q)).
Proof.
  assert (∀ r fs1, create_directory p fs = (r, fs1) →
                   create_directory p fs1 = (r, fs1)) as Htwice.
  { intros r fs1 Hrun.
    destruct (create_directory_spec _ _ _ _ Hrun)
      as [(-> & Hex & _)|(e & -> & -> & _)]; [|done].
    unfold create_directory. apply path_exists_true in Hex. by rewrite Hex. }
  split_and!.
  - intros Hex. unfold create_directory. by rewrite Hex.
  - unfold bind. destruct (create_directory p fs) as [[[]| | |] fs1] eqn:Hrun; try done.
    by apply Htwice.
  - done.
  - intros fs1 Hcl Hrun.
    destruct (create_directory_spec _ _ _ _ Hrun)
      as [(_ & Hex & Hmono & Hnew & _ & Hclo)|(e & ? & _)]; [|done].
    assert (∀ j, is_Some (node_at fs1 (take j p))) as Hall.
    { apply closed_prefix; auto. }
    split_and!; [done| |done].
    intros j Hnone. destruct (Hnew (take j p)) as [Heq|Heq]; [|done].
    destruct (Hall j) as [n Hn]. congruence.
  - intros j. apply create_directory_makes.
Qed.

Lemma create_directory_idempotent_witness :
  closed Example.fs_empty
  ∧ create_directory (Example.base ++ path_with_namespace Example.api) Example.fs_empty
    = (Ret tt, Example.fs_made)
  ∧ create_directory (Example.base ++ path_with_namespace Example.api) Example.fs_made
    = (Ret tt, Example.fs_made)
  ∧ (∀ j, is_Some (node_at Example.fs_made
                     (take j (Example.base ++ path_with_namespace Example.api))))
  ∧ (∃ fs1, create_directory (Example.base ++ path_with_namespace Example.api)
              Example.fs_empty = (Ret tt, fs1)
            ∧ ∀ k, 2 < k ≤ 4 →
                   node_at fs1 (take k (Example.base
                                        ++ path_with_namespace Example.api))
                   = Some (Dir true)).
Proof.
  assert (closed Example.fs_empty) as Hcl.
  { apply (bool_decide_unpack (closed Example.fs_empty)). vm_compute. reflexivity. }
  assert (create_directory (Example.base ++ path_with_namespace Example.api)
            Example.fs_empty = (Ret tt, Example.fs_made)) as Hrun.
  { vm_compute. reflexivity. }
  pose proof (create_directory_idempotent
                (Example.base ++ path_with_namespace Example.api)
                Example.fs_empty) as (_ & _ & Htwice & Hall & Hmakes).
  split_and!; [done|done|by apply Htwice|by apply (Hall _ Hcl Hrun)|].
  destruct (Hmakes 2) as (fs1 & Hrun1 & Hmade & _).
  - simpl. lia.
  - vm_compute. reflexivity.
  - intros k Hk. simpl in Hk.
    assert (k = 3 ∨ k = 4) as [->| ->] by lia; vm_compute; reflexivity.
  - exists fs1. split; [exact Hrun1|]. intros k Hk. apply Hmade. simpl. lia.
Defined.

(** ** The sync task *)

(** Running the task's code: unfold the calls and the plumbing, keep the
    state's fields. *)
Ltac run_py :=
  repeat (progress (unfold fetch_updates, clone_fresh, try_except, bind, Repo,
                      fetch, clone_from, blocking_call, signal_alarm, log, ret,
                      raise, sys_exit;
                    cbn [p_fs p_alarm p_log])).

Ltac log_eq := rewrite <- ?app_assoc; reflexivity.

Lemma fetch_updates_no_working_copy (w : world) (p : path) (timeout : nat) (s : process) :
  is_Some (node_at (p_fs s) p) → is_git_dir (p_fs s) p = false →
  fetch_updates w p timeout s
  = (Ret false, {| p_fs := p_fs s; p_alarm := p_alarm s;
                   p_log := p_log s ++ [CallRepo p] |}).
Proof. intros [n Hn] Hgit. run_py. by rewrite Hn, Hgit. Qed.

Lemma fetch_updates_refused (w : world) (p : path) (timeout : nat) (s : process)
    (msg : string) :
  is_Some (node_at (p_fs s) p) → is_git_dir (p_fs s) p = true →
  failure (fetch_op w p) = Some (GitCommandError msg) →
  expires timeout (fetch_op w p) = false →
  fetch_updates w p timeout s
  = (Ret false,
     {| p_fs := p_fs s; p_alarm := timeout - duration (fetch_op w p);
        p_log := p_log s ++ [CallRepo p; PrintIsRepo p; SetAlarm timeout;
                             CallFetch p; PrintFetchFailed msg] |}).
Proof.
  intros [n Hn] Hgit Hfail Hexp. run_py. rewrite Hn, Hgit. run_py.
  rewrite Hexp, Hfail. run_py. log_eq.
Qed.

Lemma fetch_updates_expired (w : world) (p : path) (timeout : nat) (s : process) :
  is_Some (node_at (p_fs s) p) → is_git_dir (p_fs s) p = true →
  expires timeout (fetch_op w p) = true →
  fetch_updates w p timeout s
  = (Killed,
     {| p_fs := p_fs s; p_alarm := 0;
        p_log := p_log s ++ [CallRepo p; PrintIsRepo p; SetAlarm timeout;
                             CallFetch p] |}).
Proof.
  intros [n Hn] Hgit Hexp. run_py. rewrite Hn, Hgit. run_py.
  rewrite Hexp. run_py. log_eq.
Qed.

Lemma clone_fresh_refused (w : world) (base : path) (pr : project) (p : path)
    (timeout : nat) (s : process) (msg : string) :
  failure (clone_op w (ssh_url_to_repo pr) p) = Some (GitCommandError msg) →
  expires timeout (clone_op w (ssh_url_to_repo pr) p) = false →
  clone_fresh w base pr p timeout s
  = (Raise (SystemExit 1),
     {| p_fs := p_fs s;
        p_alarm := timeout - duration (clone_op w (ssh_url_to_repo pr) p);
        p_log := p_log s ++ [PrintCloning (path_with_namespace pr) base;
                             SetAlarm timeout;
                             CallCloneFrom (ssh_url_to_repo pr) p;
                             PrintCloneFailed msg] |}).
Proof. intros Hfail Hexp. run_py. rewrite Hexp, Hfail. run_py. log_eq. Qed.

Lemma clone_fresh_expired (w : world) (base : path) (pr : project) (p : path)
    (timeout : nat) (s : process) :
  expires timeout (clone_op w (ssh_url_to_repo pr) p) = true →
  clone_fresh w base pr p timeout s
  = (Killed,
     {| p_fs := p_fs s; p_alarm := 0;
        p_log := p_log s ++ [PrintCloning (path_with_namespace pr) base;
                             SetAlarm timeout;
                             CallCloneFrom (ssh_url_to_repo pr) p] |}).
Proof. intros Hexp. run_py. rewrite Hexp. run_py. log_eq. Qed.

Lemma expires_overrun (timeout : nat) (o : remote_op) :
  0 < timeout → timeout < duration o → expires timeout o = true.
Proof.
  intros H0 H1. unfold expires.
  apply andb_true_intro. split; [apply Nat.ltb_lt | apply Nat.leb_le]; lia.
Qed.

(** ** The scheduler *)

Section Scheduler.

Variable w : world.
Variable base : path.
Variable b : nat.
Variable timeout : nat.

Local Abbreviation target pr := (base ++ path_with_namespace pr).
Local Abbreviation task pr :=
  (clone_repository w base pr (base ++ path_with_namespace pr) timeout).

Lemma submit_project_spec (i : nat) (pr : project)
    (results : list (nat * async_result)) (s s' : sched)
    (r : outcome (list (nat * async_result))) :
  submit_project w base timeout i pr results s = (r, s') →
  (∃ fs1 out q,
      create_directory (target pr) (s_fs s) = (Ret tt, fs1)
      ∧ task pr {| p_fs := fs1; p_alarm := 0; p_log := [] |} = (out, q)
      ∧ r = Ret (results ++ [(i, pool_worker out)])
      ∧ s' = {| s_fs := p_fs q;
                s_trace := s_trace s ++ [Submitted i pr; Worked i (p_log q) out] |})
  ∨ (∃ e, create_directory (target pr) (s_fs s) = (Raise e, s_fs s)
          ∧ r = Raise e ∧ s' = s).
Proof.
  unfold submit_project, bind, on_fs, apply_async, bind, emit, ret.
  destruct (create_directory (target pr) (s_fs s)) as [rc fs1] eqn:Hc.
  destruct (create_directory_spec _ _ _ _ Hc)
    as [(-> & _)|(e & -> & -> & _)].
  - cbn [s_fs s_trace].
    destruct (task pr (fresh fs1)) as [out q] eqn:Ht.
    intros [= <- <-]. left. exists fs1, out, q.
    split_and!; try done. by rewrite <- app_assoc.
  - intros [= <- <-]. right. exists e. by destruct s.
Qed.

Lemma submitted_app (l1 l2 : list event) :
  submitted (l1 ++ l2) = submitted l1 ++ submitted l2.
Proof. unfold submitted. apply omap_app. Qed.

(** The inner loop over a batch: it submits a first part of the batch, in
    order, and either gets through it and holds one handle per task, or is
    stopped by the exception [create_directory] raised for the next
    project. *)
Lemma submit_batch_spec (batch : list project) :
  ∀ (i : nat) (results : list (nat * async_result)) (s s' : sched)
    (r : outcome (list (nat * async_result))),
    submit_batch w base timeout i batch results s = (r, s') →
    ∃ n l,
      n ≤ length batch
      ∧ s_trace s' = s_trace s ++ l
      ∧ submitted l = take n batch
      ∧ Forall (λ e, (i ≤ ev_index e < i + n) ∧ ∀ k, e ≠ Waited k) l
      ∧ match r with
        | Ret results' =>
            n = length batch
            ∧ ∃ hs, results' = results ++ hs
                    ∧ hs.*1 = seq i n
                    ∧ Forall (λ h, ∃ did out,
                                 Worked h.1 did out ∈ l ∧ h.2 = pool_worker out) hs
                    ∧ Forall (λ e, ∀ k did out,
                                 e = Worked k did out → (k, pool_worker out) ∈ hs) l
        | Raise e =>
            ∃ pr, batch !! n = Some pr
                  ∧ create_directory (target pr) (s_fs s') = (Raise e, s_fs s')
        | Killed => False
        | Blocked => False
        end.
Proof.
  induction batch as [|pr rest IH]; intros i results s s' r Hrun.
  - injection Hrun as <- <-. exists 0, []. rewrite app_nil_r.
    split_and!; try done. exists []. by rewrite app_nil_r.
  - cbn [submit_batch] in Hrun. unfold bind in Hrun.
    destruct (submit_project w base timeout i pr results s) as [r1 s1] eqn:H1.
    apply submit_project_spec in H1
      as [(fs1 & out & q & Hc & Ht & -> & ->)|(e & Hc & -> & ->)].
    + apply IH in Hrun as (n & l & Hn & Htr & Hsub & Hall & Hr).
      cbn [s_trace s_fs] in *.
      exists (S n), ([Submitted i pr; Worked i (p_log q) out] ++ l).
      split_and!.
      * simpl. lia.
      * by rewrite Htr, <- app_assoc.
      * rewrite submitted_app, Hsub. done.
      * apply Forall_app. split.
        -- repeat constructor; simpl; try lia; done.
        -- eapply Forall_impl; [exact Hall|]. simpl. intros e [? ?]. split; [lia|done].
      * destruct r as [results'| e | |]; [|done..].
        -- destruct Hr as (-> & hs & -> & Hidx & Hhs & Hev).
           split; [done|]. exists ((i, pool_worker out) :: hs).
           split_and!.
           ++ by rewrite <- app_assoc.
           ++ rewrite fmap_cons. cbn [seq fst]. by f_equal.
           ++ constructor.
              ** exists (p_log q), out. split; [|done]. simpl. set_solver.
              ** eapply Forall_impl; [exact Hhs|]. simpl.
                 intros h (did & out' & Hin & Heq). exists did, out'.
                 split; [|done]. set_solver.
           ++ apply Forall_app. split.
              ** apply Forall_cons_2; [|apply Forall_cons_2; [|apply Forall_nil_2]].
                 --- intros k did out' [=].
                 --- intros k did out' [= <- <- <-]. set_solver.
              ** eapply Forall_impl; [exact Hev|]. simpl.
                 intros e He k did out' ->. specialize (He _ _ _ eq_refl). set_solver.
    + injection Hrun as <- <-. exists 0, []. rewrite app_nil_r.
      split_and!; try done; [simpl; lia|]. exists pr. done.
Qed.

(** The waits: they go through the handles in order and stop for good at
    the first one whose result is never posted. *)
Lemma wait_all_spec (hs : list (nat * async_result)) :
  ∀ (s s' : sched) (r : outcome unit),
    wait_all hs s = (r, s') →
    s_fs s' = s_fs s
    ∧ ∃ m, m ≤ length hs
           ∧ s_trace s' = s_trace s ++ (Waited <$> (take m hs).*1)
           ∧ match r with
             | Ret _ => m = length hs ∧ Forall (λ h, is_Some h.2) hs
             | Blocked => ∃ k, hs !! m = Some (k, None)
             | Raise _ => False
             | Killed => False
             end.
Proof.
  induction hs as [|[k a] rest IH]; intros s s' r Hrun.
  - injection Hrun as <- <-. split; [done|]. exists 0. by rewrite app_nil_r.
  - cbn [wait_all] in Hrun. unfold bind, wait, emit in Hrun. cbn [snd fst] in Hrun.
    destruct a as [v|].
    + apply IH in Hrun as (Hfs & m & Hm & Htr & Hr). cbn [s_fs s_trace] in *.
      split; [done|]. exists (S m). split_and!.
      * simpl. lia.
      * by rewrite Htr, <- app_assoc.
      * destruct r; try done. destruct Hr as [-> Hall].
        split; [done|]. by constructor.
    + injection Hrun as <- <-. split; [done|]. exists 0. rewrite app_nil_r.
      split_and!; [simpl; lia|done|by exists k].
Qed.

(** One batch: the projects submitted, then the waits. *)
Lemma run_batch_spec (projects : list project) (i : nat) (s s' : sched)
    (r : outcome unit) :
  run_batch w base b timeout projects i s = (r, s') →
  ∃ n l,
    n ≤ length (take b (drop i projects))
    ∧ s_trace s' = s_trace s ++ l
    ∧ submitted l = take n (take b (drop i projects))
    ∧ Forall (λ e, i ≤ ev_index e < i + length (take b (drop i projects))) l
    ∧ match r with
      | Ret _ =>
          n = length (take b (drop i projects))
          ∧ (∀ k, i ≤ k < i + length (take b (drop i projects)) → Waited k ∈ l)
          ∧ (∀ k did out, Worked k did out ∈ l → pool_worker out ≠ None)
      | Raise e =>
          ∃ pr, take b (drop i projects) !! n = Some pr
                ∧ create_directory (target pr) (s_fs s') = (Raise e, s_fs s')
      | Blocked =>
          n = length (take b (drop i projects))
          ∧ ∃ k did out, Worked k did out ∈ l ∧ pool_worker out = None
                         ∧ Waited k ∉ l
      | Killed => False
      end.
Proof.
  unfold run_batch, bind. set (batch := take b (drop i projects)).
  destruct (submit_batch w base timeout i batch [] s) as [r1 s1] eqn:H1.
  apply submit_batch_spec in H1 as (n & l & Hn & Htr & Hsub & Hall & Hr).
  destruct r1 as [hs'|e| |]; try done.
  - destruct Hr as (-> & hs & -> & Hidx & Hhs & Hev). cbn [app].
    intros Hw. apply wait_all_spec in Hw as (Hfs & m & Hm & Htr' & Hr).
    assert (length hs = length batch) as Hlen.
    { rewrite <- (length_fmap fst hs), Hidx. apply length_seq. }
    assert ((take m hs).*1 = seq i m) as Htake.
    { rewrite fmap_take, Hidx, take_seq. f_equal. lia. }
    rewrite Htake in Htr'.
    exists (length batch), (l ++ (Waited <$> seq i m)).
    split_and!.
    + done.
    + by rewrite Htr', Htr, <- app_assoc.
    + rewrite submitted_app, Hsub.
      assert (submitted (Waited <$> seq i m) = []) as ->; [|by rewrite app_nil_r].
      unfold submitted. generalize (seq i m). intros ks. by induction ks.
    + apply Forall_app. split.
      * eapply Forall_impl; [exact Hall|]. simpl. by intros e [? _].
      * apply Forall_fmap, Forall_forall. intros k Hk.
        apply elem_of_seq in Hk. simpl. lia.
    + destruct r as [[]|e| |]; try done.
      * destruct Hr as [-> Hready]. split; [done|]. split.
        -- intros k Hk. apply elem_of_app. right.
           apply list_elem_of_fmap. exists k. split; [done|].
           apply elem_of_seq. lia.
        -- intros k did out Hin.
           apply elem_of_app in Hin as [Hin|Hin].
           ++ rewrite Forall_forall in Hev. specialize (Hev _ Hin _ _ _ eq_refl).
              rewrite Forall_forall in Hready. specialize (Hready _ Hev).
              simpl in Hready. intros Heq. rewrite Heq in Hready.
              by destruct Hready.
           ++ apply list_elem_of_fmap in Hin as (? & [=] & _).
      * destruct Hr as [k Hk]. split; [done|].
        assert (k = i + m) as ->.
        { assert (hs.*1 !! m = Some k) as Hk1 by (by rewrite list_lookup_fmap, Hk).
          rewrite Hidx in Hk1. apply lookup_seq in Hk1. lia. }
        rewrite Forall_forall in Hhs.
        destruct (Hhs (i + m, None)) as (did & out & Hin & Heq).
        { eapply list_elem_of_lookup_2. exact Hk. }
        simpl in Hin, Heq. exists (i + m), did, out. split_and!.
        -- apply elem_of_app. by left.
        -- done.
        -- intros Hin'. apply elem_of_app in Hin' as [Hin'|Hin'].
           ++ rewrite Forall_forall in Hall. destruct (Hall _ Hin') as [_ Hnw].
              by eapply Hnw.
           ++ apply list_elem_of_fmap in Hin' as (k' & [= <-] & Hk').
              apply elem_of_seq in Hk'. lia.
  - intros [= <- <-]. exists n, l. split_and!; try done.
    eapply Forall_impl; [exact Hall|]. simpl. intros ev [? _]. lia.
Qed.

Lemma take_app_drop {A} (l : list A) (n k : nat) :
  take n l ++ take k (drop n l) = take (n + k) l.
Proof.
  revert l. induction n as [|n IH]; intros [|x l]; simpl; try done.
  - by rewrite take_nil.
  - by rewrite IH.
Qed.

Lemma div_block (k j : nat) : 0 < b → k * b ≤ j → j < k * b + b → j / b = k.
Proof.
  intros Hb Hlo Hhi. apply Nat.le_antisymm.
  - apply Nat.lt_succ_r. apply Nat.Div0.div_lt_upper_bound. lia.
  - apply Nat.div_le_lower_bound; lia.
Qed.

(** The outer loop from batch number [k0] on, for [m] batches: what it adds
    to the trace and how it can end. *)
Lemma for_each_spec (projects : list project) (m : nat) :
  0 < b →
  ∀ (k0 : nat) (s s' : sched) (r : outcome unit),
    for_each ((λ k, k * b) <$> seq k0 m) (run_batch w base b timeout projects) s
    = (r, s') →
    ∃ n l,
      s_trace s' = s_trace s ++ l
      ∧ submitted l = take n (drop (k0 * b) projects)
      ∧ Forall (λ e, k0 * b ≤ ev_index e < length projects) l
      ∧ (∀ pos j pj i,
           l !! pos = Some (Submitted j pj) →
           k0 * b ≤ i → i < length projects → i / b < j / b →
           ∃ pos', pos' < pos ∧ l !! pos' = Some (Waited i))
      ∧ match r with
        | Ret _ =>
            submitted l = take (m * b) (drop (k0 * b) projects)
            ∧ (∀ k, k0 * b ≤ k → k < (k0 + m) * b → k < length projects →
                    Waited k ∈ l)
            ∧ (∀ k did out, Worked k did out ∈ l → pool_worker out ≠ None)
        | Raise e =>
            ∃ pr, drop (k0 * b) projects !! n = Some pr
                  ∧ create_directory (target pr) (s_fs s') = (Raise e, s_fs s')
        | Blocked =>
            ∃ k did out, Worked k did out ∈ l ∧ pool_worker out = None
                         ∧ Waited k ∉ l
        | Killed => False
        end.
Proof.
  intros Hb. induction m as [|m IH]; intros k0 s s' r Hrun.
  - injection Hrun as <- <-. exists 0, []. rewrite app_nil_r.
    split_and!; try done.
    + intros k Hk1 Hk2. rewrite Nat.add_0_r in Hk2. lia.
    + intros k did out Hin. by apply elem_of_nil in Hin.
  - cbn [seq fmap list_fmap for_each] in Hrun. unfold bind in Hrun.
    destruct (run_batch w base b timeout projects (k0 * b) s) as [r1 s1] eqn:H1.
    apply run_batch_spec in H1 as (n1 & l1 & Hn1 & Htr1 & Hsub1 & Hall1 & Hr1).
    set (D := drop (k0 * b) projects) in *.
    assert (length (take b D) ≤ b) as HlenB by (rewrite length_take; lia).
    assert (k0 * b ≤ length projects → k0 * b + length (take b D) ≤ length projects)
      as HlenP.
    { unfold D. rewrite length_take, length_drop. lia. }
    assert (length projects < k0 * b → length (take b D) = 0) as Hempty.
    { unfold D. rewrite length_take, length_drop. lia. }
    assert (Forall (λ e, k0 * b ≤ ev_index e < length projects) l1) as Hrange1.
    { eapply Forall_impl; [exact Hall1|]. simpl. intros e He. lia. }
    assert (∀ pos j pj i,
              l1 !! pos = Some (Submitted j pj) →
              k0 * b ≤ i → i / b < j / b → False) as Hbar1.
    { intros pos j pj i Hpos Hi Hdiv.
      rewrite Forall_forall in Hall1.
      specialize (Hall1 _ (list_elem_of_lookup_2 _ _ _ Hpos)). simpl in Hall1.
      assert (j / b = k0) as Hj by (apply div_block; lia).
      assert (k0 ≤ i / b) by (apply Nat.div_le_lower_bound; lia). lia. }
    assert (submitted l1 = take n1 D) as Hsub1'.
    { rewrite Hsub1, take_take. f_equal. lia. }
    destruct r1 as [[]|e| |]; [|injection Hrun as <- <-..]; [| | |].
    + destruct Hr1 as (-> & Hwait1 & Hready1).
      apply IH in Hrun as (n2 & l2 & Htr2 & Hsub2 & Hrange2 & Hbar2 & Hr2).
      assert (drop (S k0 * b) projects = drop b D) as HD.
      { unfold D. rewrite drop_drop. f_equal. lia. }
      rewrite HD in *.
      assert (submitted l1 = take b D) as HsubB.
      { rewrite Hsub1. apply take_ge. lia. }
      exists (b + n2), (l1 ++ l2). split_and!.
      * by rewrite Htr2, Htr1, <- app_assoc.
      * by rewrite submitted_app, HsubB, Hsub2, take_app_drop.
      * apply Forall_app. split; [done|].
        eapply Forall_impl; [exact Hrange2|]. simpl. intros e He. lia.
      * intros pos j pj i Hpos Hi Hlen Hdiv.
        apply lookup_app_Some in Hpos as [Hpos|[Hge Hpos]].
        { exfalso. by eapply Hbar1. }
        destruct (decide (S k0 * b ≤ i)) as [Hi'|Hi'].
        -- destruct (Hbar2 _ _ _ _ Hpos Hi' Hlen Hdiv) as (pos' & Hlt & Hpos').
           exists (length l1 + pos'). split; [lia|].
           rewrite lookup_app_r by lia.
           by replace (length l1 + pos' - length l1) with pos' by lia.
        -- assert (Waited i ∈ l1) as Hin.
           { apply Hwait1. unfold D in *. rewrite length_take, length_drop. lia. }
           apply list_elem_of_lookup in Hin as [pos' Hpos'].
           exists pos'. split.
           ++ apply lookup_lt_Some in Hpos'. lia.
           ++ by apply lookup_app_l_Some.
      * destruct r as [[]|e| |]; [| | |].
        -- destruct Hr2 as (Hsub2' & Hwait2 & Hready2). split_and!.
           ++ by rewrite submitted_app, HsubB, Hsub2', take_app_drop.
           ++ intros k Hk1 Hk2 Hk3. apply elem_of_app.
              destruct (decide (S k0 * b ≤ k)) as [Hk|Hk].
              ** right. apply Hwait2; lia.
              ** left. apply Hwait1. unfold D. rewrite length_take, length_drop. lia.
           ++ intros k did out Hin. apply elem_of_app in Hin as [Hin|Hin]; eauto.
        -- destruct Hr2 as (pr & Hlook & Hfail). exists pr. split; [|done].
           by rewrite lookup_drop in Hlook.
        -- done.
        -- destruct Hr2 as (k & did & out & Hin & Hnone & Hnot).
           exists k, did, out. split_and!; [set_solver|done|].
           intros Hin'. apply elem_of_app in Hin' as [Hin'|Hin']; [|done].
           rewrite Forall_forall in Hall1, Hrange2.
           specialize (Hall1 _ Hin'). specialize (Hrange2 _ Hin).
           simpl in Hall1, Hrange2. lia.
    + exists n1, l1. split_and!; try done.
      * intros pos j pj i Hpos Hi _ Hdiv. exfalso. by eapply Hbar1.
      * destruct Hr1 as (pr & Hlook & Hfail). exists pr. split; [|done].
        apply lookup_take_Some in Hlook. by destruct Hlook.
    + done.
    + exists n1, l1. split_and!; try done.
      * intros pos j pj i Hpos Hi _ Hdiv. exfalso. by eapply Hbar1.
      * by destruct Hr1 as (_ & Hr1).
Qed.

Lemma range_covers (n : nat) : 0 < b → n ≤ (n + b - 1) / b * b.
Proof.
  intros Hb.
  pose proof (Nat.div_mod_eq (n + b - 1) b) as Hdm.
  pose proof (Nat.mod_upper_bound (n + b - 1) b ltac:(lia)) as Hmod.
  nia.
Qed.

(** The whole loop, from any state of the main process. *)
Lemma main_loop_spec (projects : list project) (s s' : sched) (r : outcome unit) :
  0 < b →
  main_loop w base b timeout projects s = (r, s') →
  ∃ n l,
    s_trace s' = s_trace s ++ l
    ∧ submitted l = take n projects
    ∧ Forall (λ e, ev_index e < length projects) l
    ∧ (∀ pos j pj i,
         l !! pos = Some (Submitted j pj) →
         i < length projects → i / b < j / b →
         ∃ pos', pos' < pos ∧ l !! pos' = Some (Waited i))
    ∧ match r with
      | Ret _ =>
          submitted l = projects
          ∧ (∀ k, k < length projects → Waited k ∈ l)
          ∧ (∀ k did out, Worked k did out ∈ l → pool_worker out ≠ None)
      | Raise e =>
          ∃ pr, projects !! n = Some pr
                ∧ create_directory (target pr) (s_fs s') = (Raise e, s_fs s')
      | Blocked =>
          ∃ k did out, Worked k did out ∈ l ∧ pool_worker out = None
                       ∧ Waited k ∉ l
      | Killed => False
      end.
Proof.
  intros Hb. unfold main_loop, range_step.
  destruct (b =? 0) eqn:Hb0; [apply Nat.eqb_eq in Hb0; lia|].
  intros Hrun. apply for_each_spec in Hrun; [|done].
  destruct Hrun as (n & l & Htr & Hsub & Hrange & Hbar & Hr).
  cbn [Nat.mul drop] in *.
  exists n, l. split_and!; try done.
  - eapply Forall_impl; [exact Hrange|]. simpl. intros e He. lia.
  - intros pos j pj i Hpos Hi Hdiv. eapply Hbar; eauto. lia.
  - destruct r as [[]|e| |]; try done.
    destruct Hr as (Hsub' & Hwait & Hready). split_and!; [|
      |done].
    + rewrite Hsub'. apply take_ge. by apply range_covers.
    + intros k Hk. apply Hwait; [lia| |done].
      pose proof (range_covers (length projects) Hb). simpl. lia.
Qed.

End Scheduler.

Lemma pool_worker_posts (out : outcome unit) :
  pool_worker out ≠ None
  ↔ out = Ret tt ∨ ∃ e, out = Raise e ∧ is_Exception e = true.
Proof.
  destruct out as [[]|e| |]; simpl.
  - split; [by left|done].
  - destruct (is_Exception e) eqn:He; split; try done.
    + intros _. right. by exists e.
    + intros [?|(e' & [= <-] & ?)]; congruence.
  - split; [done|]. by intros [?|(? & ? & ?)].
  - split; [done|]. by intros [?|(? & ? & ?)].
Qed.

(** ** The barrier between batches, with the pool at work *)

Lemma done_in_app (l1 l2 : list event) (k : nat) :
  done_in l1 k → done_in (l1 ++ l2) k.
Proof.
  intros (pos1 & pos2 & did & out & ? & ? & ? & ?).
  exists pos1, pos2, did, out. split_and!; try done; by apply lookup_app_l_Some.
Qed.

Lemma batch_inv_mono (tr0 : list event) (lo qlo qhi qhi' : nat)
    (s : Concurrent.state) :
  qhi ≤ qhi' → batch_inv tr0 lo qlo qhi s → batch_inv tr0 lo qlo qhi' s.
Proof.
  intros Hle (Hlo & l & Htr & Hrange & Hnd & Hq & Hres & Hdone).
  split; [done|]. exists l. split_and!; try done.
  - eapply Forall_impl; [exact Hrange|]. simpl. intros e He. lia.
  - intros k Hk. specialize (Hq k Hk). lia.
Qed.

Lemma NoDup_delete_lookup (l : list nat) (j k : nat) :
  NoDup l → l !! j = Some k → k ∉ delete j l.
Proof.
  intros Hnd Hj Hin. apply list_elem_of_lookup in Hin as [j' Hj'].
  destruct (decide (j' < j)) as [Hlt|Hge].
  - rewrite list_lookup_delete_lt in Hj' by done.
    pose proof (NoDup_lookup _ _ _ _ Hnd Hj Hj'). lia.
  - rewrite list_lookup_delete_ge in Hj' by lia.
    pose proof (NoDup_lookup _ _ _ _ Hnd Hj Hj'). lia.
Qed.

(** The pool runs a task it holds: the invariant of the batch stays, and
    the task is in the queue no more. *)
Lemma run_queued_inv (tr0 : list event) (lo qlo qhi k : nat)
    (s : Concurrent.state) :
  batch_inv tr0 lo qlo qhi s →
  batch_inv tr0 lo qlo qhi (Concurrent.run_queued k s)
  ∧ (k ∉ (Concurrent.c_queue (Concurrent.run_queued k s)).*1)
  ∧ (∀ j, j ∈ ((Concurrent.c_queue (Concurrent.run_queued k s)).*1) →
          j ∈ ((Concurrent.c_queue s).*1)).
Proof.
  intros (Hlo & l & Htr & Hrange & Hnd & Hq & Hres & Hdone).
  unfold Concurrent.run_queued.
  destruct (list_find (λ t, t.1 = k) (Concurrent.c_queue s))
    as [[j [k' task]]|] eqn:Hfind.
  - apply list_find_Some in Hfind as (Hj & Hk & _). simpl in Hk. subst k'.
    unfold Concurrent.run_task. cbn [Concurrent.c_fs snd].
    destruct (task (fresh (Concurrent.c_fs s))) as [out p] eqn:Ht.
    unfold batch_inv.
    cbn [Concurrent.c_fs Concurrent.c_trace Concurrent.c_queue
         Concurrent.c_results Concurrent.c_turn].
    assert ((Concurrent.c_queue s).*1 !! j = Some k) as Hjk.
    { by rewrite list_lookup_fmap, Hj. }
    assert (qlo ≤ k < qhi) as Hk.
    { apply Hq. by eapply list_elem_of_lookup_2. }
    rewrite list_fmap_delete. split_and!; [done|..].
    + exists (l ++ [Worked k (p_log p) out]). split_and!.
      * by rewrite Htr, app_assoc.
      * apply Forall_app. split; [done|]. repeat constructor; simpl; lia.
      * eapply sublist_NoDup; [exact Hnd|apply sublist_delete].
      * intros i Hi. apply Hq. by eapply list_elem_of_delete_inv.
      * intros i v Hi Hv.
        destruct (pool_worker out) as [v'|] eqn:Hpost.
        -- destruct (decide (i = k)) as [->|Hne].
           ++ rewrite lookup_insert_eq in Hv. injection Hv as ->.
              exists (p_log p), out. split; [|done].
              apply elem_of_app. right. by left.
           ++ rewrite lookup_insert_ne in Hv by done.
              destruct (Hres i v Hi Hv) as (did & out' & Hin & Hp).
              exists did, out'. split; [|done]. apply elem_of_app. by left.
        -- destruct (Hres i v Hi Hv) as (did & out' & Hin & Hp).
           exists did, out'. split; [|done]. apply elem_of_app. by left.
      * intros i Hi. by apply done_in_app, Hdone.
    + by apply NoDup_delete_lookup.
    + intros i Hi. by eapply list_elem_of_delete_inv.
  - split_and!; [| |done].
    + split; [done|]. by exists l.
    + apply list_find_None in Hfind. rewrite Forall_forall in Hfind.
      intros Hin. apply list_elem_of_fmap in Hin as ([k' t] & -> & Hin).
      by apply (Hfind _ Hin).
Qed.

Lemma run_named_inv (tr0 : list event) (lo qlo qhi : nat) (ids : list nat) :
  ∀ s, batch_inv tr0 lo qlo qhi s →
       batch_inv tr0 lo qlo qhi (foldl (λ s i, Concurrent.run_queued i s) s ids).
Proof.
  induction ids as [|i ids IH]; intros s Hinv; [done|].
  cbn [foldl]. apply IH. by apply run_queued_inv.
Qed.

Section Barrier.

Variable schedule : nat → list nat.
Variable w : world.
Variable base : path.
Variable b : nat.
Variable timeout : nat.

Lemma pool_turn_inv (tr0 : list event) (lo qlo qhi : nat)
    (s s' : Concurrent.state) (r : outcome unit) :
  Concurrent.pool_turn schedule s = (r, s') →
  batch_inv tr0 lo qlo qhi s →
  r = Ret tt ∧ batch_inv tr0 lo qlo qhi s'.
Proof.
  unfold Concurrent.pool_turn. intros [= <- <-] Hinv. split; [done|].
  apply run_named_inv. exact Hinv.
Qed.

Lemma on_fs_inv {A} (m : M fsys A) (tr0 : list event) (lo qlo qhi : nat)
    (s s' : Concurrent.state) (r : outcome A) :
  Concurrent.on_fs schedule m s = (r, s') →
  batch_inv tr0 lo qlo qhi s →
  batch_inv tr0 lo qlo qhi s'
  ∧ ∃ s1 fs', m (Concurrent.c_fs s1) = (r, fs').
Proof.
  unfold Concurrent.on_fs, bind. intros Hrun Hinv.
  destruct (Concurrent.pool_turn schedule s) as [r1 s1] eqn:H1.
  destruct (pool_turn_inv _ _ _ _ _ _ _ H1 Hinv) as [-> Hinv1].
  destruct (m (Concurrent.c_fs s1)) as [r2 fs'] eqn:H2.
  injection Hrun as <- <-. split; [exact Hinv1|]. by exists s1, fs'.
Qed.

Lemma apply_async_inv (tr0 : list event) (lo qlo i : nat) (pr : project)
    (task : M process unit) (s s' : Concurrent.state) (r : outcome nat) :
  Concurrent.apply_async schedule i pr task s = (r, s') →
  batch_inv tr0 lo qlo i s → qlo ≤ i →
  r = Ret i ∧ batch_inv tr0 lo qlo (S i) s'.
Proof.
  unfold Concurrent.apply_async, bind. intros Hrun Hinv Hi.
  destruct (Concurrent.pool_turn schedule s) as [r1 s1] eqn:H1.
  destruct (pool_turn_inv _ _ _ _ _ _ _ H1 Hinv)
    as [-> (Hlo & l & Htr & Hrange & Hnd & Hq & Hres & Hdone)].
  injection Hrun as <- <-. split; [done|].
  split; [done|]. exists (l ++ [Submitted i pr]).
  cbn [Concurrent.c_fs Concurrent.c_trace Concurrent.c_queue
       Concurrent.c_results Concurrent.c_turn].
  rewrite fmap_app. cbn [fmap list_fmap fst]. split_and!.
  - by rewrite Htr, app_assoc.
  - apply Forall_app. split.
    + eapply Forall_impl; [exact Hrange|]. simpl. intros e He. lia.
    + repeat constructor; simpl; lia.
  - apply NoDup_app. split_and!; [done| |apply NoDup_singleton].
    intros k Hk Hin. apply list_elem_of_singleton in Hin as ->.
    specialize (Hq _ Hk). lia.
  - intros k Hk. apply elem_of_app in Hk as [Hk|Hk].
    + specialize (Hq _ Hk). lia.
    + apply list_elem_of_singleton in Hk as ->. lia.
  - intros k v Hk Hv. destruct (Hres k v Hk Hv) as (did & out & Hin & Hp).
    exists did, out. split; [|done]. apply elem_of_app. by left.
  - intros k Hk. by apply done_in_app, Hdone.
Qed.

Lemma wait_inv (tr0 : list event) (lo qhi k : nat)
    (s s' : Concurrent.state) (r : outcome unit) :
  Concurrent.wait schedule k s = (r, s') →
  batch_inv tr0 lo k qhi s → k < qhi →
  (r = Ret tt ∧ batch_inv tr0 lo (S k) qhi s')
  ∨ (r = Blocked ∧ batch_inv tr0 lo k qhi s').
Proof.
  unfold Concurrent.wait, bind. intros Hrun Hinv Hk.
  destruct (Concurrent.pool_turn schedule s) as [r1 s1] eqn:H1.
  destruct (pool_turn_inv _ _ _ _ _ _ _ H1 Hinv) as [-> Hinv1].
  cbn zeta in Hrun.
  destruct (run_queued_inv _ _ _ _ k _ Hinv1)
    as ((Hlo & l & Htr & Hrange & Hnd & Hq & Hres & Hdone) & Hgone & Hsub).
  destruct (Concurrent.c_results (Concurrent.run_queued k s1) !! k)
    as [v|] eqn:Hv; injection Hrun as <- <-.
  - left. split; [done|]. split; [lia|]. exists (l ++ [Waited k]).
    cbn [Concurrent.c_fs Concurrent.c_trace Concurrent.c_queue
         Concurrent.c_results Concurrent.c_turn].
    split_and!.
    + by rewrite Htr, app_assoc.
    + apply Forall_app. split; [done|]. repeat constructor; simpl; lia.
    + done.
    + intros i Hi. specialize (Hq _ Hi).
      assert (i ≠ k) by (by intros ->). lia.
    + intros i v' Hi Hv'. destruct (Hres i v' Hi Hv') as (did & out & Hin & Hp).
      exists did, out. split; [|done]. apply elem_of_app. by left.
    + intros i Hi. destruct (decide (i = k)) as [->|Hne].
      * destruct (Hres k v Hlo Hv) as (did & out & Hin & Hp).
        apply list_elem_of_lookup in Hin as [pos1 Hpos1].
        exists pos1, (length l), did, out. split_and!.
        -- by eapply lookup_lt_Some.
        -- by apply lookup_app_l_Some.
        -- by rewrite Hp.
        -- by rewrite lookup_app_r, Nat.sub_diag by lia.
      * apply done_in_app, Hdone. lia.
  - right. split; [done|]. split; [done|]. by exists l.
Qed.

Lemma submit_project_inv (tr0 : list event) (lo qlo i : nat) (pr : project)
    (results : list nat) (s s' : Concurrent.state) (r : outcome (list nat)) :
  Concurrent.submit_project schedule w base timeout i pr results s = (r, s') →
  batch_inv tr0 lo qlo i s → qlo ≤ i →
  (r = Ret (results ++ [i]) ∧ batch_inv tr0 lo qlo (S i) s')
  ∨ ((∃ e, r = Raise e) ∧ batch_inv tr0 lo qlo i s').
Proof.
  unfold Concurrent.submit_project, bind. intros Hrun Hinv Hi.
  destruct (Concurrent.on_fs schedule
              (create_directory (base ++ path_with_namespace pr)) s)
    as [r1 s1] eqn:H1.
  destruct (on_fs_inv _ _ _ _ _ _ _ _ H1 Hinv) as (Hinv1 & s0 & fs' & Hc).
  destruct (create_directory_spec _ _ _ _ Hc) as [(-> & _)|(e & -> & _)].
  - destruct (Concurrent.apply_async schedule i pr _ s1) as [r2 s2] eqn:H2.
    destruct (apply_async_inv _ _ _ _ _ _ _ _ _ H2 Hinv1 Hi) as [-> Hinv2].
    injection Hrun as <- <-. by left.
  - injection Hrun as <- <-. right. split; [by exists e|done].
Qed.

Lemma submit_batch_inv (tr0 : list event) (lo qlo : nat) (batch : list project) :
  ∀ (i : nat) (results : list nat) (s s' : Concurrent.state)
    (r : outcome (list nat)),
    Concurrent.submit_batch schedule w base timeout i batch results s = (r, s') →
    batch_inv tr0 lo qlo i s → qlo ≤ i →
    batch_inv tr0 lo qlo (i + length batch) s'
    ∧ (r = Ret (results ++ seq i (length batch)) ∨ ∃ e, r = Raise e).
Proof.
  induction batch as [|pr rest IH]; intros i results s s' r Hrun Hinv Hi.
  - injection Hrun as <- <-. cbn [length seq]. rewrite Nat.add_0_r, app_nil_r.
    split; [done|by left].
  - cbn [Concurrent.submit_batch] in Hrun. unfold bind in Hrun.
    destruct (Concurrent.submit_project schedule w base timeout i pr results s)
      as [r1 s1] eqn:H1.
    destruct (submit_project_inv _ _ _ _ _ _ _ _ _ H1 Hinv Hi)
      as [[-> Hinv1]|[[e ->] Hinv1]].
    + destruct (IH _ _ _ _ _ Hrun Hinv1 ltac:(lia)) as [Hinv2 Hr].
      cbn [length seq]. replace (i + S (length rest)) with (S i + length rest) by lia.
      split; [done|]. destruct Hr as [->|Hr]; [left|by right].
      by rewrite <- app_assoc.
    + injection Hrun as <- <-. split; [|right; by exists e].
      eapply batch_inv_mono; [|exact Hinv1]. lia.
Qed.

Lemma wait_all_inv (tr0 : list event) (lo qhi : nat) (n : nat) :
  ∀ (k : nat) (s s' : Concurrent.state) (r : outcome unit),
    Concurrent.wait_all schedule (seq k n) s = (r, s') →
    batch_inv tr0 lo k qhi s → k + n ≤ qhi →
    (r = Ret tt ∧ batch_inv tr0 lo (k + n) qhi s')
    ∨ (r = Blocked ∧ ∃ k', batch_inv tr0 lo k' qhi s').
Proof.
  induction n as [|n IH]; intros k s s' r Hrun Hinv Hk.
  - injection Hrun as <- <-. left. by rewrite Nat.add_0_r.
  - cbn [seq Concurrent.wait_all] in Hrun. unfold bind in Hrun.
    destruct (Concurrent.wait schedule k s) as [r1 s1] eqn:H1.
    destruct (wait_inv _ _ _ _ _ _ _ H1 Hinv ltac:(lia)) as [[-> Hinv1]|[-> Hinv1]].
    + replace (k + S n) with (S k + n) by lia. eapply IH; eauto. lia.
    + injection Hrun as <- <-. right. split; [done|]. by exists k.
Qed.

(** One batch, from a pool that holds nothing: everything that happens is
    about the tasks of the batch, and when the waits are over each of them
    is done and the pool holds nothing again. *)
Lemma run_batch_inv (projects : list project) (i : nat)
    (s s' : Concurrent.state) (r : outcome unit) :
  Concurrent.run_batch schedule w base b timeout projects i s = (r, s') →
  drained i s →
  ∃ l, Concurrent.c_trace s' = Concurrent.c_trace s ++ l
       ∧ Forall (λ e, i ≤ ev_index e < i + length (take b (drop i projects))) l
       ∧ (r = Ret tt →
          drained (i + length (take b (drop i projects))) s'
          ∧ ∀ k, i ≤ k < i + length (take b (drop i projects)) → done_in l k).
Proof.
  unfold Concurrent.run_batch, bind. set (batch := take b (drop i projects)).
  intros Hrun [Hempty Hnone].
  assert (batch_inv (Concurrent.c_trace s) i i i s) as Hinv.
  { split; [done|]. exists []. rewrite app_nil_r, Hempty.
    split_and!; try done.
    - apply NoDup_nil_2.
    - intros k Hk. by apply elem_of_nil in Hk.
    - intros k v Hk Hv. by rewrite Hnone in Hv.
    - intros k Hk. lia. }
  destruct (Concurrent.submit_batch schedule w base timeout i batch [] s)
    as [r1 s1] eqn:H1.
  destruct (submit_batch_inv _ _ _ _ _ _ _ _ _ H1 Hinv ltac:(lia)) as [Hinv1 Hr1].
  destruct Hr1 as [->|[e ->]].
  - cbn [app] in Hrun.
    destruct (wait_all_inv _ _ _ _ _ _ _ _ Hrun Hinv1 ltac:(lia))
      as [[-> Hinv2]|[-> [k' Hinv2]]];
      destruct Hinv2 as (Hlo & l & Htr & Hrange & Hnd & Hq & Hres & Hdone);
      exists l; (split_and!; [done|done|]); [|done].
    intros _. split; [split|].
    + destruct (Concurrent.c_queue s') as [|[k t] q]; [done|].
      specialize (Hq k ltac:(left)). lia.
    + intros k Hk. destruct (Concurrent.c_results s' !! k) as [v|] eqn:Hv; [|done].
      destruct (Hres k v ltac:(lia) Hv) as (did & out & Hin & _).
      rewrite Forall_forall in Hrange. specialize (Hrange _ Hin). simpl in Hrange.
      lia.
    + exact Hdone.
  - injection Hrun as <- <-.
    destruct Hinv1 as (Hlo & l & Htr & Hrange & _). exists l. by split_and!.
Qed.

Lemma drained_mono (lo lo' : nat) (s : Concurrent.state) :
  lo ≤ lo' → drained lo s → drained lo' s.
Proof. intros Hle [Hq Hr]. split; [done|]. intros k Hk. apply Hr. lia. Qed.

(** The outer loop: nothing about a task happens before every task of the
    batches before its own is done. *)
Lemma for_each_barrier (projects : list project) (m : nat) :
  0 < b →
  ∀ (k0 : nat) (s s' : Concurrent.state) (r : outcome unit),
    drained (k0 * b) s →
    Concurrent.for_each ((λ k, k * b) <$> seq k0 m)
      (Concurrent.run_batch schedule w base b timeout projects) s = (r, s') →
    ∃ l, Concurrent.c_trace s' = Concurrent.c_trace s ++ l
         ∧ Forall (λ e, k0 * b ≤ ev_index e) l
         ∧ ∀ pos e i,
             l !! pos = Some e →
             k0 * b ≤ i → i < length projects → i / b < ev_index e / b →
             ∃ l1 l2, l = l1 ++ l2 ∧ length l1 ≤ pos ∧ done_in l1 i.
Proof.
  intros Hb. induction m as [|m IH]; intros k0 s s' r Hdr Hrun.
  - injection Hrun as <- <-. exists []. rewrite app_nil_r.
    split_and!; [done|done|]. intros pos e i Hpos. by rewrite lookup_nil in Hpos.
  - cbn [seq fmap list_fmap Concurrent.for_each] in Hrun. unfold bind in Hrun.
    destruct (Concurrent.run_batch schedule w base b timeout projects (k0 * b) s)
      as [r1 s1] eqn:H1.
    destruct (run_batch_inv _ _ _ _ _ H1 Hdr) as (l1 & Htr1 & Hrange1 & Hr1).
    set (len := length (take b (drop (k0 * b) projects))) in *.
    assert (len = b `min` (length projects - k0 * b)) as Hlen.
    { unfold len. by rewrite length_take, length_drop. }
    assert (∀ pos e i, l1 !! pos = Some e → k0 * b ≤ i →
                       i / b < ev_index e / b → False) as Hsame.
    { intros pos e i Hpos Hi Hdiv. rewrite Forall_forall in Hrange1.
      specialize (Hrange1 _ (list_elem_of_lookup_2 _ _ _ Hpos)). simpl in Hrange1.
      assert (ev_index e / b = k0) as He.
      { apply Nat.le_antisymm.
        - apply Nat.lt_succ_r, Nat.Div0.div_lt_upper_bound. lia.
        - apply Nat.div_le_lower_bound; lia. }
      assert (k0 ≤ i / b) by (apply Nat.div_le_lower_bound; lia). lia. }
    assert (Forall (λ e, k0 * b ≤ ev_index e) l1) as Hlow1.
    { eapply Forall_impl; [exact Hrange1|]. simpl. intros e He. lia. }
    destruct r1 as [[]|e| |]; [|injection Hrun as <- <-..].
    + destruct (Hr1 eq_refl) as [Hdr1 Hdone1].
      apply IH in Hrun as (l2 & Htr2 & Hlow2 & Hbar2);
        [|eapply drained_mono; [|exact Hdr1]; lia].
      exists (l1 ++ l2). split_and!.
      * by rewrite Htr2, Htr1, <- app_assoc.
      * apply Forall_app. split; [done|].
        eapply Forall_impl; [exact Hlow2|]. simpl. intros e He. lia.
      * intros pos e i Hpos Hi HiL Hdiv.
        apply lookup_app_Some in Hpos as [Hpos|[Hge Hpos]].
        { exfalso. by eapply Hsame. }
        destruct (decide (S k0 * b ≤ i)) as [Hi'|Hi'].
        -- destruct (Hbar2 _ _ _ Hpos Hi' HiL Hdiv) as (la & lb & -> & Hla & Hd).
           exists (l1 ++ la), lb. split_and!.
           ++ by rewrite app_assoc.
           ++ rewrite length_app. lia.
           ++ destruct Hd as (pos1 & pos2 & did & out & ? & ? & ? & ?).
              exists (length l1 + pos1), (length l1 + pos2), did, out.
              split_and!; [lia| |done|].
              ** rewrite lookup_app_r by lia.
                 by replace (length l1 + pos1 - length l1) with pos1 by lia.
              ** rewrite lookup_app_r by lia.
                 by replace (length l1 + pos2 - length l1) with pos2 by lia.
        -- exists l1, l2. split_and!; [done|done|]. apply Hdone1. lia.
    + exists l1. split_and!; [done|done|].
      intros pos e' i Hpos Hi _ Hdiv. exfalso. by eapply Hsame.
    + exists l1. split_and!; [done|done|].
      intros pos e' i Hpos Hi _ Hdiv. exfalso. by eapply Hsame.
    + exists l1. split_and!; [done|done|].
      intros pos e' i Hpos Hi _ Hdiv. exfalso. by eapply Hsame.
Qed.

End Barrier.

(** C3. The barrier between batches, whatever the order in which the pool
    gets its work done.  In every run, under every schedule of the pool,
    when something happens about a task (it is submitted, a worker runs it,
    or the wait on it returns), every task of every earlier batch
    ([i / b < j / b]) has by then been run by a worker to its end, has
    posted its result, and the wait on it has returned after that: no task
    of a batch starts, or is even submitted, before every task of the
    batches before it is over and waited for. *)
Theorem batch_barrier (schedule : nat → list nat) (w : world) (base : path)
    (b timeout : nat) (projects : list project) (fs : fsys)
    (r : outcome unit) (s' : Concurrent.state) (pos i : nat) (e : event) :
  Concurrent.main_loop schedule w base b timeout projects (Concurrent.start fs)
  = (r, s') →
  Concurrent.c_trace s' !! pos = Some e →
  i < length projects → i / b < ev_index e / b →
  ∃ pos1 pos2 did out,
    pos1 < pos2 ∧ pos2 < pos
    ∧ Concurrent.c_trace s' !! pos1 = Some (Worked i did out)
    ∧ pool_worker out ≠ None
    ∧ Concurrent.c_trace s' !! pos2 = Some (Waited i).
Proof.
  unfold Concurrent.main_loop, range_step. destruct (b =? 0) eqn:Hb0.
  - intros [= <- <-] Hpos. cbn [Concurrent.start Concurrent.c_trace] in Hpos.
    by rewrite lookup_nil in Hpos.
  - apply Nat.eqb_neq in Hb0. intros Hrun Hpos Hi Hdiv.
    apply for_each_barrier in Hrun as (l & Htr & _ & Hbar); [|lia|].
    2:{ split; [done|]. intros k _. apply lookup_empty. }
    cbn [Concurrent.start Concurrent.c_trace app] in Htr. rewrite Htr in *.
    destruct (Hbar _ _ _ Hpos ltac:(lia) Hi Hdiv)
      as (l1 & l2 & -> & Hlen & pos1 & pos2 & did & out & Hlt & H1 & Hp & H2).
    exists pos1, pos2, did, out.
    pose proof (lookup_lt_Some _ _ _ H2).
    split_and!; [done|lia| |done|]; by apply lookup_app_l_Some.
Qed.

Lemma batch_barrier_witness :
  ∃ pos1 pos2 did out,
    pos1 < pos2 ∧ pos2 < 3
    ∧ Concurrent.c_trace
        (Concurrent.main_loop Concurrent.lazy Example.remote_ok Example.base 1 180
           [Example.api; Example.infra] (Concurrent.start Example.fs_empty)).2
        !! pos1 = Some (Worked 0 did out)
    ∧ pool_worker out ≠ None
    ∧ Concurrent.c_trace
        (Concurrent.main_loop Concurrent.lazy Example.remote_ok Example.base 1 180
           [Example.api; Example.infra] (Concurrent.start Example.fs_empty)).2
        !! pos2 = Some (Waited 0).
Proof.
  eapply (batch_barrier Concurrent.lazy Example.remote_ok Example.base 1 180
            [Example.api; Example.infra] Example.fs_empty _ _ 3 0
            (Submitted 1 Example.infra)).
  - apply surjective_pairing.
  - vm_compute. reflexivity.
  - simpl. lia.
  - simpl. lia.
Defined.

(** With a pool that leaves its tasks until they are waited for, the second
    task of a batch is submitted while the first has not been run: the
    tasks of one batch are held side by side. *)
Lemma lazy_pool_holds_a_batch :
  ∃ did out,
    take 3 (Concurrent.c_trace
              (Concurrent.main_loop Concurrent.lazy Example.remote_ok
                 Example.base 10 180 [Example.api; Example.infra]
                 (Concurrent.start Example.fs_empty)).2)
    = [Submitted 0 Example.api; Submitted 1 Example.infra; Worked 0 did out].
Proof. eexists _, _. vm_compute. reflexivity. Qed.

(** ** The loop that runs a task when it submits it is the pool at once *)

Lemma run_queued_empty (i : nat) (c : Concurrent.state) :
  Concurrent.c_queue c = [] → Concurrent.run_queued i c = c.
Proof. intros Hq. unfold Concurrent.run_queued. by rewrite Hq. Qed.

Lemma run_named_empty (ids : list nat) :
  ∀ c, Concurrent.c_queue c = [] →
       foldl (λ s i, Concurrent.run_queued i s) c ids = c.
Proof.
  induction ids as [|i ids IH]; intros c Hq; [done|].
  cbn [foldl]. rewrite run_queued_empty by done. by apply IH.
Qed.

Lemma settle_empty (c : Concurrent.state) :
  Concurrent.c_queue c = [] → settle c = c.
Proof. intros Hq. unfold settle. by rewrite Hq. Qed.

Lemma settle_queue (c : Concurrent.state) :
  Concurrent.c_queue (settle c) = [] ∨ Concurrent.c_queue c = [].
Proof.
  unfold settle. destruct (Concurrent.c_queue c) as [|[i task] q] eqn:Hq; [by right|].
  left. unfold Concurrent.run_task. cbn [Concurrent.c_fs].
  by destruct (task (fresh (Concurrent.c_fs c))).
Qed.

Lemma run_named_single (ids : list nat) (i : nat) (task : M process unit) :
  ∀ c, Concurrent.c_queue c = [(i, task)] → i ∈ ids →
       foldl (λ s i, Concurrent.run_queued i s) c ids = settle c.
Proof.
  induction ids as [|j ids IH]; intros c Hq Hin; [by apply elem_of_nil in Hin|].
  cbn [foldl]. destruct (decide (j = i)) as [->|Hne].
  - assert (Concurrent.run_queued i c = settle c) as ->.
    { unfold Concurrent.run_queued, settle. rewrite Hq. cbn.
      rewrite decide_True by done. done. }
    apply run_named_empty.
    destruct (settle_queue c) as [Hs|Hs]; [done|]. by rewrite Hs in Hq.
  - assert (Concurrent.run_queued j c = c) as ->.
    { unfold Concurrent.run_queued. rewrite Hq. cbn.
      rewrite decide_False by done. done. }
    apply IH; [done|]. apply elem_of_cons in Hin as [->|Hin]; done.
Qed.

(** Under [at_once] a turn of the pool runs what the pool holds. *)
Lemma pool_turn_settle (n : nat) (c : Concurrent.state) :
  length (Concurrent.c_queue c) ≤ 1 →
  (∀ i, i ∈ (Concurrent.c_queue c).*1 → i < n) →
  ∃ c1, Concurrent.pool_turn (Concurrent.at_once n) c = (Ret tt, c1)
        ∧ Concurrent.c_queue c1 = []
        ∧ Concurrent.c_fs c1 = Concurrent.c_fs (settle c)
        ∧ Concurrent.c_trace c1 = Concurrent.c_trace (settle c)
        ∧ Concurrent.c_results c1 = Concurrent.c_results (settle c).
Proof.
  intros Hlen Hlt. unfold Concurrent.pool_turn, Concurrent.at_once.
  eexists. split; [done|].
  destruct (Concurrent.c_queue c) as [|[i task] [|t q]] eqn:Hq;
    [| |simpl in Hlen; lia].
  - rewrite run_named_empty by done. unfold settle. rewrite Hq. done.
  - rewrite (run_named_single _ i task);
      [|done|apply elem_of_seq; specialize (Hlt i ltac:(left)); lia].
    unfold settle. cbn [Concurrent.c_queue]. rewrite Hq.
    unfold Concurrent.run_task. cbn [Concurrent.c_fs].
    by destruct (task (fresh (Concurrent.c_fs c))).
Qed.

Section AtOnce.

Variable w : world.
Variable base : path.
Variable b : nat.
Variable timeout : nat.
Variable n : nat.

Lemma on_fs_at_once {A} (m : M fsys A) (hs : list (nat * async_result))
    (nxt : nat) (s : sched) (c c' : Concurrent.state) (r : outcome A) :
  in_step n hs nxt s c →
  Concurrent.on_fs (Concurrent.at_once n) m c = (r, c') →
  ∃ fs', m (s_fs s) = (r, fs')
         ∧ Concurrent.c_queue c' = []
         ∧ Concurrent.c_fs c' = fs'
         ∧ Concurrent.c_trace c' = s_trace s
         ∧ Concurrent.c_results c' = Concurrent.c_results (settle c).
Proof.
  intros (Hlen & Hlt & Hfs & Htr & Hhs & Hnone). unfold Concurrent.on_fs, bind.
  destruct (pool_turn_settle n c Hlen Hlt) as (c1 & -> & Hq1 & Hfs1 & Htr1 & Hres1).
  rewrite Hfs1, Hfs. destruct (m (s_fs s)) as [r0 fs'] eqn:Hm. intros [= <- <-].
  exists fs'. cbn [Concurrent.c_fs Concurrent.c_trace Concurrent.c_queue
                   Concurrent.c_results].
  by rewrite Hq1, Htr1, Htr, Hres1.
Qed.

Lemma submit_project_at_once (i : nat) (pr : project)
    (hs : list (nat * async_result)) (s s' : sched) (c c' : Concurrent.state)
    (r : outcome (list (nat * async_result))) (r' : outcome (list nat)) :
  in_step n hs i s c → i < n →
  submit_project w base timeout i pr hs s = (r, s') →
  Concurrent.submit_project (Concurrent.at_once n) w base timeout i pr hs.*1 c
  = (r', c') →
  (∃ e, r = Raise e ∧ r' = Raise e ∧ synced s' c')
  ∨ (∃ h, r = Ret (hs ++ [h]) ∧ r' = Ret ((hs ++ [h]).*1)
          ∧ in_step n (hs ++ [h]) (S i) s' c').
Proof.
  intros Hstep Hi Hseq Hcon.
  unfold Concurrent.submit_project, bind in Hcon.
  destruct (Concurrent.on_fs (Concurrent.at_once n)
              (create_directory (base ++ path_with_namespace pr)) c)
    as [r1 c1] eqn:H1.
  destruct (on_fs_at_once _ _ _ _ _ _ _ Hstep H1)
    as (fs' & Hc & Hq1 & Hfs1 & Htr1 & Hres1).
  destruct Hstep as (Hlen & Hlt & Hfs & Htr & Hhs & Hnone).
  apply submit_project_spec in Hseq
    as [(fs1 & out & q & Hc' & Ht & -> & ->)|(e & Hc' & -> & ->)];
    rewrite Hc' in Hc; injection Hc as <- <-.
  - right. exists (i, pool_worker out). split; [done|].
    unfold Concurrent.apply_async, bind in Hcon.
    destruct (pool_turn_settle n c1) as (c2 & Hturn & Hq2 & Hfs2 & Htr2 & Hres2).
    { rewrite Hq1. simpl. lia. }
    { rewrite Hq1. intros k Hk. by apply elem_of_nil in Hk. }
    rewrite Hturn in Hcon. unfold ret in Hcon. injection Hcon as <- <-.
    assert (settle c1 = c1) as Hs1 by (unfold settle; by rewrite Hq1).
    rewrite Hs1 in Hfs2, Htr2, Hres2.
    split; [by rewrite fmap_app|].
    unfold in_step, settle.
    cbn [Concurrent.c_fs Concurrent.c_trace Concurrent.c_queue
         Concurrent.c_results Concurrent.c_turn].
    rewrite Hq2. cbn [app fmap list_fmap fst length].
    unfold Concurrent.run_task. cbn [Concurrent.c_fs].
    rewrite Hfs2, Hfs1. unfold fresh. rewrite Ht.
    cbn [Concurrent.c_fs Concurrent.c_trace Concurrent.c_queue
         Concurrent.c_results Concurrent.c_turn s_fs s_trace].
    assert (Concurrent.c_results c2 = Concurrent.c_results (settle c)) as ->
      by congruence.
    rewrite Htr2, Htr1. split_and!.
    + lia.
    + intros k Hk. apply list_elem_of_singleton in Hk as ->. done.
    + done.
    + by rewrite <- app_assoc.
    + intros h Hh. apply elem_of_app in Hh as [Hh|Hh].
      * destruct (Hhs h Hh) as [Hlt' Hres]. split; [lia|].
        destruct (pool_worker out); [|done].
        rewrite lookup_insert_ne by lia. done.
      * apply list_elem_of_singleton in Hh as ->. cbn [fst snd]. split; [lia|].
        destruct (pool_worker out) as [v|]; [by rewrite lookup_insert_eq|].
        by apply Hnone.
    + intros k Hk. destruct (pool_worker out); [|apply Hnone; lia].
      rewrite lookup_insert_ne by lia. apply Hnone. lia.
  - left. exists e. injection Hcon as <- <-. split_and!; try done.
Qed.

Lemma submit_batch_at_once (batch : list project) :
  ∀ (i : nat) (hs : list (nat * async_result)) (s s' : sched)
    (c c' : Concurrent.state)
    (r : outcome (list (nat * async_result))) (r' : outcome (list nat)),
    in_step n hs i s c →
    (∀ j, j < length batch → i + j < n) →
    submit_batch w base timeout i batch hs s = (r, s') →
    Concurrent.submit_batch (Concurrent.at_once n) w base timeout i batch hs.*1 c
    = (r', c') →
    (∃ e, r = Raise e ∧ r' = Raise e ∧ synced s' c')
    ∨ (∃ hs', r = Ret hs' ∧ r' = Ret hs'.*1
              ∧ length hs' = length hs + length batch
              ∧ in_step n hs' (i + length batch) s' c').
Proof.
  induction batch as [|pr rest IH]; intros i hs s s' c c' r r' Hstep Hlt Hseq Hcon.
  - injection Hseq as <- <-. injection Hcon as <- <-. right. exists hs.
    cbn [length]. rewrite !Nat.add_0_r. done.
  - cbn [submit_batch Concurrent.submit_batch] in Hseq, Hcon.
    unfold bind in Hseq, Hcon.
    destruct (submit_project w base timeout i pr hs s) as [r1 s1] eqn:Hs1.
    destruct (Concurrent.submit_project (Concurrent.at_once n) w base timeout
                i pr hs.*1 c) as [r1' c1] eqn:Hc1.
    destruct (submit_project_at_once _ _ _ _ _ _ _ _ _ Hstep
                ltac:(specialize (Hlt 0); simpl in Hlt; lia) Hs1 Hc1)
      as [(e & -> & -> & Hsync)|(h & -> & -> & Hstep1)].
    + injection Hseq as <- <-. injection Hcon as <- <-. left. by exists e.
    + destruct (IH _ _ _ _ _ _ _ _ Hstep1
                  ltac:(intros j Hj; specialize (Hlt (S j)); simpl in Hlt; lia)
                  Hseq Hcon)
        as [(e & -> & -> & Hsync)|(hs' & -> & -> & Hlen & Hstep2)].
      * left. by exists e.
      * right. exists hs'. split_and!; [done|done| |].
        -- rewrite Hlen, length_app. simpl. lia.
        -- cbn [length]. by replace (i + S (length rest)) with (S i + length rest) by lia.
Qed.

Lemma in_step_synced (hs : list (nat * async_result)) (nxt : nat)
    (s : sched) (c : Concurrent.state) :
  in_step n hs nxt s c → Concurrent.c_queue c = [] → synced s c.
Proof.
  intros (_ & _ & Hfs & Htr & _) Hq. unfold settle in *. rewrite Hq in *. done.
Qed.

Lemma wait_at_once (hs : list (nat * async_result)) (nxt : nat)
    (h : nat * async_result) (s s' : sched) (c c' : Concurrent.state)
    (r r' : outcome unit) :
  in_step n hs nxt s c → h ∈ hs →
  wait h s = (r, s') →
  Concurrent.wait (Concurrent.at_once n) h.1 c = (r', c') →
  r' = r ∧ Concurrent.c_queue c' = [] ∧ in_step n hs nxt s' c'.
Proof.
  intros (Hlen & Hlt & Hfs & Htr & Hhs & Hnone) Hh Hseq Hcon.
  unfold Concurrent.wait, bind in Hcon.
  destruct (pool_turn_settle n c Hlen Hlt) as (c1 & Hturn & Hq1 & Hfs1 & Htr1 & Hres1).
  rewrite Hturn in Hcon. cbn zeta in Hcon.
  rewrite run_queued_empty in Hcon by done.
  destruct (Hhs h Hh) as [Hlt' Hres].
  assert (Concurrent.c_results c1 !! h.1 = h.2) as Hr by (by rewrite Hres1).
  rewrite Hr in Hcon.
  unfold wait, emit in Hseq.
  destruct (h.2) as [v|]; injection Hseq as <- <-; injection Hcon as <- <-.
  - split; [done|]. split; [done|]. unfold in_step.
    rewrite settle_empty by exact Hq1.
    cbn [Concurrent.c_fs Concurrent.c_trace Concurrent.c_queue
         Concurrent.c_results Concurrent.c_turn s_fs s_trace].
    rewrite Hq1, Hfs1, Htr1, Hres1, Hfs, Htr. cbn [length].
    split_and!; try done; [lia|]. intros k Hk. by apply elem_of_nil in Hk.
  - split; [done|]. split; [done|]. unfold in_step.
    rewrite settle_empty by exact Hq1. rewrite Hq1, Hfs1, Htr1, Hres1. cbn [length].
    split_and!; try done; [lia|]. intros k Hk. by apply elem_of_nil in Hk.
Qed.

Lemma wait_all_at_once (hs : list (nat * async_result)) (nxt : nat)
    (hs' : list (nat * async_result)) :
  ∀ (s s' : sched) (c c' : Concurrent.state) (r r' : outcome unit),
    in_step n hs nxt s c → (∀ h, h ∈ hs' → h ∈ hs) →
    wait_all hs' s = (r, s') →
    Concurrent.wait_all (Concurrent.at_once n) hs'.*1 c = (r', c') →
    r' = r ∧ in_step n hs nxt s' c'
    ∧ (hs' ≠ [] → Concurrent.c_queue c' = []).
Proof.
  induction hs' as [|h rest IH]; intros s s' c c' r r' Hstep Hsub Hseq Hcon.
  - injection Hseq as <- <-. injection Hcon as <- <-. done.
  - cbn [wait_all Concurrent.wait_all fmap list_fmap] in Hseq, Hcon.
    unfold bind in Hseq, Hcon.
    destruct (wait h s) as [r1 s1] eqn:Hs1.
    destruct (Concurrent.wait (Concurrent.at_once n) h.1 c) as [r1' c1] eqn:Hc1.
    destruct (wait_at_once _ _ _ _ _ _ _ _ _ Hstep (Hsub h ltac:(left)) Hs1 Hc1)
      as (-> & Hq1 & Hstep1).
    destruct r1 as [[]|e| |]; try (injection Hseq as <- <-; injection Hcon as <- <-; done).
    destruct (IH _ _ _ _ _ _ Hstep1 ltac:(intros h' Hh'; apply Hsub; by right)
                Hseq Hcon) as (-> & Hstep2 & Hq2).
    split_and!; [done|done|]. intros _.
    destruct rest as [|h2 rest']; [|by apply Hq2].
    injection Hcon as _ <-. done.
Qed.

Lemma run_batch_at_once (projects : list project) (i : nat)
    (s s' : sched) (c c' : Concurrent.state) (r r' : outcome unit) :
  n = length projects →
  synced s c → (∀ k, i ≤ k → Concurrent.c_results c !! k = None) →
  run_batch w base b timeout projects i s = (r, s') →
  Concurrent.run_batch (Concurrent.at_once n) w base b timeout projects i c
  = (r', c') →
  r' = r ∧ synced s' c'
  ∧ (r = Ret tt →
     ∀ k, i + length (take b (drop i projects)) ≤ k →
          Concurrent.c_results c' !! k = None).
Proof.
  intros Hn (Hq & Hfs & Htr) Hnone. unfold run_batch, Concurrent.run_batch, bind.
  set (batch := take b (drop i projects)). intros Hseq Hcon.
  assert (in_step n [] i s c) as Hstep.
  { unfold in_step, settle. rewrite Hq. cbn [length]. split_and!; try done; [lia| |].
    - intros k Hk. by apply elem_of_nil in Hk.
    - intros h Hh. by apply elem_of_nil in Hh. }
  destruct (submit_batch w base timeout i batch [] s) as [r1 s1] eqn:Hs1.
  destruct (Concurrent.submit_batch (Concurrent.at_once n) w base timeout i batch
              [] c) as [r1' c1] eqn:Hc1.
  assert (∀ j, j < length batch → i + j < n) as Hbound.
  { intros j Hj. unfold batch in Hj. rewrite length_take, length_drop in Hj. lia. }
  destruct (submit_batch_at_once batch i [] _ _ _ _ _ _ Hstep Hbound Hs1 Hc1)
    as [(e & -> & -> & Hsync)|(hs' & -> & -> & Hlen & Hstep1)].
  - injection Hseq as <- <-. injection Hcon as <- <-. done.
  - destruct (wait_all_at_once hs' _ hs' _ _ _ _ _ _ Hstep1 ltac:(done) Hseq Hcon)
      as (-> & Hstep2 & Hq2).
    assert (Concurrent.c_queue c' = []) as Hq'.
    { clearbody batch. destruct batch as [|pr rest].
      - cbn in Hs1, Hc1. unfold ret in Hs1, Hc1. simplify_eq.
        cbn in Hcon. unfold ret in Hcon. by simplify_eq.
      - apply Hq2. intros ->. simpl in Hlen. lia. }
    split_and!; [done|by eapply in_step_synced|].
    intros _ k Hk. destruct Hstep2 as (_ & _ & _ & _ & _ & Hnone2).
    specialize (Hnone2 k Hk). unfold settle in Hnone2. by rewrite Hq' in Hnone2.
Qed.

Lemma for_each_at_once (projects : list project) (m : nat) :
  n = length projects →
  ∀ (k0 : nat) (s s' : sched) (c c' : Concurrent.state) (r r' : outcome unit),
    synced s c → (∀ k, k0 * b ≤ k → Concurrent.c_results c !! k = None) →
    for_each ((λ k, k * b) <$> seq k0 m) (run_batch w base b timeout projects) s
    = (r, s') →
    Concurrent.for_each ((λ k, k * b) <$> seq k0 m)
      (Concurrent.run_batch (Concurrent.at_once n) w base b timeout projects) c
    = (r', c') →
    r' = r ∧ synced s' c'.
Proof.
  intros Hn. induction m as [|m IH]; intros k0 s s' c c' r r' Hsync Hnone Hseq Hcon.
  - injection Hseq as <- <-. injection Hcon as <- <-. done.
  - cbn [seq fmap list_fmap for_each Concurrent.for_each] in Hseq, Hcon.
    unfold bind in Hseq, Hcon.
    destruct (run_batch w base b timeout projects (k0 * b) s) as [r1 s1] eqn:Hs1.
    destruct (Concurrent.run_batch (Concurrent.at_once n) w base b timeout projects
                (k0 * b) c) as [r1' c1] eqn:Hc1.
    destruct (run_batch_at_once _ _ _ _ _ _ _ _ Hn Hsync Hnone Hs1 Hc1)
      as (-> & Hsync1 & Hnone1).
    destruct r1 as [[]|e| |]; try (injection Hseq as <- <-; injection Hcon as <- <-; done).
    eapply IH; [exact Hsync1| |exact Hseq|exact Hcon].
    intros k Hk. apply (Hnone1 eq_refl).
    rewrite length_take, length_drop. lia.
Qed.

End AtOnce.

(** The loop that runs each task at the moment it submits it is the loop
    with the pool under the schedule [at_once]: the two end in the same
    way, with the same filesystem and the same trace. *)
Lemma sequential_is_at_once (w : world) (base : path) (b timeout : nat)
    (projects : list project) (fs : fsys)
    (r r' : outcome unit) (s : sched) (c : Concurrent.state) :
  main_loop w base b timeout projects (start fs) = (r, s) →
  Concurrent.main_loop (Concurrent.at_once (length projects)) w base b timeout
    projects (Concurrent.start fs) = (r', c) →
  r' = r ∧ Concurrent.c_fs c = s_fs s ∧ Concurrent.c_trace c = s_trace s.
Proof.
  unfold main_loop, Concurrent.main_loop. destruct (b =? 0).
  - intros [= <- <-] [= <- <-]. done.
  - intros Hseq Hcon.
    assert (synced (start fs) (Concurrent.start fs)) as Hsync by done.
    destruct (for_each_at_once w base b timeout (length projects) projects _
                eq_refl 0 _ _ _ _ _ _ Hsync
                ltac:(intros k _; apply lookup_empty) Hseq Hcon)
      as (-> & _ & Hfs & Htr).
    done.
Qed.

(** ** The partition into batches *)

Lemma concat_chunks (projects : list project) (b m : nat) :
  concat ((λ i, take b (drop i projects)) <$> ((λ k, k * b) <$> seq 0 m))
  = take (m * b) projects.
Proof.
  induction m as [|m IH]; [done|].
  rewrite seq_S, !fmap_app, concat_app, IH. cbn [fmap list_fmap concat Nat.add].
  rewrite app_nil_r, take_app_drop. f_equal. lia.
Qed.

Lemma batches_lookup (b : nat) (projects bt : list project) (k : nat) :
  batches b projects !! k = Some bt →
  k < (length projects + b - 1) / b ∧ bt = take b (drop (k * b) projects).
Proof.
  unfold batches, range_step. rewrite !list_lookup_fmap.
  destruct (seq 0 ((length projects + b - 1) / b) !! k) as [k'|] eqn:Hk; [|done].
  apply lookup_seq in Hk as [-> Hlt]. simpl. intros [= <-]. done.
Qed.

(** C6. The loop cuts the catalog's list into consecutive slices of at most
    [b] projects, none of them empty, which put end to end give the list
    back, so that every project lies in exactly one batch; and in every run
    the projects are handed to the pool in the catalog's order, each at most
    once, and all of them when the loop runs to its end. *)
Theorem batches_partition_dispatch (w : world) (base : path) (b timeout : nat)
    (projects : list project) :
  0 < b →
  concat (batches b projects) = projects
  ∧ Forall (λ bt, 0 < length bt ≤ b) (batches b projects)
  ∧ (∀ k bt, batches b projects !! k = Some bt →
             bt = take b (drop (k * b) projects))
  ∧ (∀ fs r s',
       main_loop w base b timeout projects (start fs) = (r, s') →
       (∃ n, submitted (s_trace s') = take n projects)
       ∧ (r = Ret tt → submitted (s_trace s') = projects)).
Proof.
  intros Hb. split_and!.
  - unfold batches, range_step. rewrite concat_chunks.
    apply take_ge. by apply range_covers.
  - apply Forall_forall. intros bt Hin.
    apply list_elem_of_lookup in Hin as [k Hk].
    apply batches_lookup in Hk as [Hk ->].
    rewrite length_take, length_drop.
    pose proof (Nat.Div0.mul_div_le (length projects + b - 1) b) as Hle.
    assert (k * b < length projects) by nia. lia.
  - intros k bt Hk. by apply batches_lookup in Hk as [_ ->].
  - intros fs r s' Hrun.
    apply main_loop_spec in Hrun as (n & l & Htr & Hsub & _ & _ & Hr); [|done].
    simpl in Htr. rewrite Htr. split; [by exists n|].
    intros ->. by destruct Hr as [? _].
Qed.

Lemma batches_partition_dispatch_witness :
  concat (batches 1 [Example.api; Example.infra]) = [Example.api; Example.infra]
  ∧ submitted (s_trace (main_loop Example.remote_ok Example.base 1 180
                          [Example.api; Example.infra] (start Example.fs_empty)).2)
    = [Example.api; Example.infra].
Proof.
  pose proof (batches_partition_dispatch Example.remote_ok Example.base 1 180
                [Example.api; Example.infra] ltac:(lia))
    as (Hcat & _ & _ & Hrun).
  split; [exact Hcat|].
  eapply Hrun; [apply surjective_pairing|]. vm_compute. reflexivity.
Defined.

(** C6, as the spec has it, fails on a run that a directory error stops:
    with a mirror directory that may not be written to, the catalog's two
    projects form one batch and neither is handed to the pool. *)
Lemma dispatch_exactly_once_counterexample :
  batches 10 [Example.api; Example.infra] = [[Example.api; Example.infra]]
  ∧ (main_loop Example.remote_ok Example.base 10 180
       [Example.api; Example.infra] (start Example.fs_readonly)).1
    = Raise PermissionError
  ∧ submitted (s_trace (main_loop Example.remote_ok Example.base 10 180
                          [Example.api; Example.infra]
                          (start Example.fs_readonly)).2)
    = [].
Proof. split_and!; vm_compute; reflexivity. Qed.

(** ** Errors in the main process *)

Lemma submit_project_raises (w : world) (base : path) (timeout i : nat)
    (pr : project) (results : list (nat * async_result)) (s : sched)
    (e : exn) (fs1 : fsys) :
  create_directory (base ++ path_with_namespace pr) (s_fs s) = (Raise e, fs1) →
  submit_project w base timeout i pr results s = (Raise e, s).
Proof.
  intros Hc.
  destruct (create_directory_spec _ _ _ _ Hc) as [(? & _)|(e' & [= <-] & -> & _)];
    [done|].
  unfold submit_project, bind, on_fs. rewrite Hc. by destruct s.
Qed.

(** A run is the pair of its outcome and its last state. *)
Lemma pair_eq {A B} (x : A * B) (a : A) : x.1 = a → x = (a, x.2).
Proof. destruct x. simpl. by intros ->. Qed.

Lemma submit_batch_app (w : world) (base : path) (timeout : nat)
    (l1 l2 : list project) :
  ∀ i results s,
    submit_batch w base timeout i (l1 ++ l2) results s
    = (results' <- submit_batch w base timeout i l1 results ;;
       submit_batch w base timeout (i + length l1) l2 results') s.
Proof.
  induction l1 as [|pr l1 IH]; intros i results s.
  - cbn [app submit_batch length]. unfold bind, ret. by rewrite Nat.add_0_r.
  - cbn [app submit_batch length]. unfold bind.
    destruct (submit_project w base timeout i pr results s) as [[r1|e| |] s1];
      try done.
    rewrite IH. unfold bind. by replace (S i + length l1) with (i + S (length l1)) by lia.
Qed.

Lemma for_each_app (l1 l2 : list nat) (body : nat → M sched unit) (s : sched) :
  for_each (l1 ++ l2) body s = (for_each l1 body ;; for_each l2 body) s.
Proof.
  revert s. induction l1 as [|i l1 IH]; intros s; [done|].
  cbn [app for_each]. unfold bind.
  destruct (body i s) as [[[]|e| |] s1]; try done; apply IH.
Qed.

Lemma for_each_ext (l : list nat) (f g : nat → M sched unit) :
  (∀ i, i ∈ l → f i = g i) → for_each l f = for_each l g.
Proof.
  induction l as [|i l IH]; intros Heq; [done|].
  cbn [for_each]. rewrite (Heq i), IH; [done| |left].
  intros k Hk. apply Heq. by right.
Qed.

(** The first [k] turns of the loop see only the first [k] batches. *)
Lemma main_loop_prefix (w : world) (base : path) (b timeout : nat)
    (projects : list project) (k : nat) :
  0 < b → k * b ≤ length projects →
  main_loop w base b timeout (take (k * b) projects)
  = for_each ((λ k, k * b) <$> seq 0 k) (run_batch w base b timeout projects).
Proof.
  intros Hb Hk. unfold main_loop, range_step.
  destruct (b =? 0) eqn:Hb0; [apply Nat.eqb_eq in Hb0; lia|].
  rewrite length_take, Nat.min_l by done.
  replace ((k * b + b - 1) / b) with k.
  2:{ symmetry. apply Nat.le_antisymm.
      - apply Nat.lt_succ_r, Nat.Div0.div_lt_upper_bound. lia.
      - apply Nat.div_le_lower_bound; lia. }
  apply for_each_ext. intros i Hi.
  apply list_elem_of_fmap in Hi as (k' & -> & Hk').
  apply elem_of_seq in Hk'. unfold run_batch.
  replace (take b (drop (k' * b) (take (k * b) projects)))
    with (take b (drop (k' * b) projects)); [done|].
  replace (k * b) with (k' * b + (k * b - k' * b)) at 1 by nia.
  rewrite <- take_drop_commute.
  rewrite take_take. f_equal. nia.
Qed.

(** A directory error at any project of the list ends the run there. *)
Lemma directory_error_anywhere (w : world) (base : path) (b timeout : nat)
    (projects : list project) (n : nat) (pr : project) (fs : fsys)
    (s0 s1 : sched) (hs : list (nat * async_result)) (e : exn) (fs1 : fsys) :
  0 < b →
  projects !! n = Some pr →
  main_loop w base b timeout (take (n / b * b) projects) (start fs) = (Ret tt, s0) →
  submit_batch w base timeout (n / b * b)
    (take (n mod b) (drop (n / b * b) projects)) [] s0 = (Ret hs, s1) →
  create_directory (base ++ path_with_namespace pr) (s_fs s1) = (Raise e, fs1) →
  main_loop w base b timeout projects (start fs) = (Raise e, s1).
Proof.
  intros Hb Hpr Hdone Hpre Hc.
  pose proof (lookup_lt_Some _ _ _ Hpr) as Hn.
  pose proof (Nat.div_mod_eq n b) as Hdm.
  pose proof (Nat.mod_upper_bound n b ltac:(lia)) as Hmod.
  set (k := n / b) in *.
  rewrite main_loop_prefix in Hdone by (done || nia).
  unfold main_loop, range_step.
  destruct (b =? 0) eqn:Hb0; [apply Nat.eqb_eq in Hb0; lia|].
  pose proof (range_covers b (length projects) Hb) as Hcov.
  set (m := (length projects + b - 1) / b) in *.
  assert (k < m) as Hkm by nia.
  replace m with (k + S (m - k - 1)) by lia.
  rewrite seq_app, fmap_app, for_each_app. unfold bind at 1. rewrite Hdone.
  cbn [seq fmap list_fmap for_each Nat.add]. unfold bind at 1.
  unfold run_batch. unfold bind at 1.
  assert (drop (k * b) projects !! (n mod b) = Some pr) as Hpr'.
  { rewrite lookup_drop. rewrite <- Hpr. f_equal. nia. }
  assert (take b (drop (k * b) projects)
          = take (n mod b) (drop (k * b) projects)
            ++ pr :: take (b - S (n mod b)) (drop (S (n mod b)) (drop (k * b) projects)))
    as ->.
  { rewrite <- (take_drop_middle _ _ _ Hpr') at 1.
    rewrite take_app_ge by (rewrite length_take; lia).
    rewrite length_take_le by (apply lookup_lt_Some in Hpr'; lia).
    f_equal. destruct (b - n mod b) as [|c] eqn:Hc'; [lia|].
    cbn [take]. f_equal. f_equal. lia. }
  rewrite submit_batch_app. unfold bind at 1. rewrite Hpre.
  cbn [submit_batch]. unfold bind at 1.
  by rewrite (submit_project_raises w base timeout _ pr hs s1 e fs1 Hc).
Qed.

Lemma directory_error_submitted (w : world) (base : path) (b timeout : nat)
    (projects : list project) (n : nat) (fs : fsys)
    (s0 s1 : sched) (hs : list (nat * async_result)) :
  0 < b → n < length projects →
  main_loop w base b timeout (take (n / b * b) projects) (start fs) = (Ret tt, s0) →
  submit_batch w base timeout (n / b * b)
    (take (n mod b) (drop (n / b * b) projects)) [] s0 = (Ret hs, s1) →
  submitted (s_trace s1) = take n projects.
Proof.
  intros Hb Hn Hdone Hpre.
  pose proof (Nat.div_mod_eq n b) as Hdm.
  pose proof (Nat.mod_upper_bound n b ltac:(lia)) as Hmod.
  apply main_loop_spec in Hdone as (n0 & l0 & Htr0 & _ & _ & _ & Hsub0 & _);
    [|done].
  apply submit_batch_spec in Hpre as (n1 & l1 & _ & Htr1 & Hsub1 & _ & -> & _).
  cbn [start s_trace app] in Htr0.
  rewrite Htr1, Htr0, submitted_app, Hsub0, Hsub1.
  rewrite take_take, length_take, length_drop.
  replace (((n mod b) `min` (length projects - n / b * b)) `min` (n mod b))
    with (n mod b) by nia.
  rewrite take_app_drop. f_equal. nia.
Qed.

(** C7. A filesystem error raised while the target directory of a project is
    made is caught nowhere: the loop's turn for that project raises it
    without handing the project to the pool, and the exception ends the
    whole run at that project, wherever in the list it stands: when the
    batches before its own were run to their end and the projects before it
    in its batch were handed over, the run ends with the exception, with
    the projects before it handed to the pool and none from it on (from its
    first project on when that is where it happens); and a run that an
    exception ended was ended by [create_directory], at the first project
    that was not handed over. *)
Theorem directory_error_ends_run (w : world) (base : path) (b timeout : nat) :
  0 < b →
  (∀ i pr results s e fs1,
     create_directory (base ++ path_with_namespace pr) (s_fs s) = (Raise e, fs1) →
     submit_project w base timeout i pr results s = (Raise e, s))
  ∧ (∀ projects n pr fs s0 hs s1 e fs1,
       projects !! n = Some pr →
       main_loop w base b timeout (take (n / b * b) projects) (start fs)
       = (Ret tt, s0) →
       submit_batch w base timeout (n / b * b)
         (take (n mod b) (drop (n / b * b) projects)) [] s0 = (Ret hs, s1) →
       create_directory (base ++ path_with_namespace pr) (s_fs s1) = (Raise e, fs1) →
       main_loop w base b timeout projects (start fs) = (Raise e, s1)
       ∧ submitted (s_trace s1) = take n projects)
  ∧ (∀ pr rest fs e fs1,
       create_directory (base ++ path_with_namespace pr) fs = (Raise e, fs1) →
       main_loop w base b timeout (pr :: rest) (start fs) = (Raise e, start fs))
  ∧ (∀ projects fs e s',
       main_loop w base b timeout projects (start fs) = (Raise e, s') →
       ∃ n pr,
         projects !! n = Some pr
         ∧ submitted (s_trace s') = take n projects
         ∧ create_directory (base ++ path_with_namespace pr) (s_fs s')
           = (Raise e, s_fs s')).
Proof.
  intros Hb. split_and!.
  - intros. by eapply submit_project_raises.
  - intros projects n pr fs s0 hs s1 e fs1 Hpr Hdone Hpre Hc. split.
    + by eapply directory_error_anywhere.
    + eapply directory_error_submitted; eauto. by eapply lookup_lt_Some.
  - intros pr rest fs e fs1 Hc.
    apply (directory_error_anywhere w base b timeout (pr :: rest) 0 pr fs
             (start fs) (start fs) [] e fs1 Hb eq_refl).
    + rewrite Nat.Div0.div_0_l. cbn [Nat.mul take].
      unfold main_loop, range_step.
      destruct (b =? 0) eqn:Hb0; [apply Nat.eqb_eq in Hb0; lia|].
      cbn [length Nat.add]. rewrite Nat.div_small by lia. done.
    + rewrite Nat.Div0.mod_0_l. done.
    + done.
  - intros projects fs e s' Hrun.
    apply main_loop_spec in Hrun as (n & l & Htr & Hsub & _ & _ & pr & Hpr & Hc);
      [|done].
    simpl in Htr. rewrite Htr. by exists n, pr.
Qed.

Lemma directory_error_ends_run_witness :
  (main_loop Example.remote_ok Example.base 1 180
     [Example.handbook; Example.api; Example.infra] (start Example.fs_acme_file)).1
  = Raise NotADirectoryError.
Proof.
  pose proof (directory_error_ends_run Example.remote_ok Example.base 1 180
                ltac:(lia)) as (_ & Hat & _).
  edestruct (Hat [Example.handbook; Example.api; Example.infra] 1 Example.api
               Example.fs_acme_file) as [Hrun _].
  - reflexivity.
  - apply pair_eq. vm_compute. reflexivity.
  - apply pair_eq. vm_compute. reflexivity.
  - apply pair_eq. vm_compute. reflexivity.
  - rewrite Hrun. reflexivity.
Defined.

(** C7, as the spec has it, fails: [acme] is a regular file in the mirror,
    the directory of [api] cannot be made, and the run ends there with the
    exception; [handbook], next in the same batch, whose directory could
    be made and whose clone would succeed, is never handed to the pool. *)
Lemma directory_error_counterexample :
  (main_loop Example.remote_ok Example.base 10 180
     [Example.api; Example.handbook] (start Example.fs_acme_file)).1
  = Raise NotADirectoryError
  ∧ submitted (s_trace (main_loop Example.remote_ok Example.base 10 180
                          [Example.api; Example.handbook]
                          (start Example.fs_acme_file)).2)
    = []
  ∧ (main_loop Example.remote_ok Example.base 10 180
       [Example.handbook] (start Example.fs_acme_file)).1
    = Ret tt.
Proof. split_and!; vm_compute; reflexivity. Qed.

(** ** What the scheduler makes of a task's result *)

Lemma all_posted_elem (tr : list event) (k : nat) (did : list wevent)
    (out : outcome unit) :
  all_posted tr = true → Worked k did out ∈ tr → pool_worker out ≠ None.
Proof.
  unfold all_posted. rewrite forallb_forall. intros Hall Hin.
  apply list_elem_of_In in Hin. specialize (Hall _ Hin). simpl in Hall.
  by destruct (pool_worker out).
Qed.

(** C9. The scheduler waits on every handle and looks at no result.  An
    exception that ends the loop was raised by [create_directory] in the
    main process, never by a task; and when every task that ran posted a
    result, be it a value or an exception, no wait blocks: the loop goes
    from batch to batch and, unless a directory error ends it, hands over
    every project and waits for each. *)
Theorem scheduler_waits_only (w : world) (base : path) (b timeout : nat)
    (projects : list project) (fs : fsys) (r : outcome unit) (s' : sched) :
  0 < b →
  main_loop w base b timeout projects (start fs) = (r, s') →
  (∀ e, r = Raise e →
        ∃ n pr, projects !! n = Some pr
                ∧ create_directory (base ++ path_with_namespace pr) (s_fs s')
                  = (Raise e, s_fs s'))
  ∧ (all_posted (s_trace s') = true →
     (r = Ret tt ∨ ∃ e, r = Raise e)
     ∧ (r = Ret tt →
        submitted (s_trace s') = projects
        ∧ ∀ k, k < length projects → Waited k ∈ s_trace s')).
Proof.
  intros Hb Hrun.
  apply main_loop_spec in Hrun as (n & l & Htr & Hsub & _ & _ & Hr); [|done].
  simpl in Htr. rewrite Htr. split.
  - intros e ->. destruct Hr as (pr & Hpr & Hc). by exists n, pr.
  - intros Hall. split.
    + destruct r as [[]|e| |]; [by left|right; by exists e|done|].
      destruct Hr as (k & did & out & Hin & Hnone & _).
      by destruct (all_posted_elem _ _ _ _ Hall Hin).
    + intros ->. by destruct Hr as (? & ? & _).
Qed.

Lemma scheduler_waits_only_witness :
  (main_loop Example.remote_no_origin Example.base 1 180
     [Example.api; Example.infra] (start Example.fs_cloned)).1 = Ret tt
  ∧ submitted (s_trace (main_loop Example.remote_no_origin Example.base 1 180
                          [Example.api; Example.infra]
                          (start Example.fs_cloned)).2)
    = [Example.api; Example.infra].
Proof.
  assert ((main_loop Example.remote_no_origin Example.base 1 180
             [Example.api; Example.infra] (start Example.fs_cloned)).1 = Ret tt)
    as Hret by (vm_compute; reflexivity).
  split; [exact Hret|].
  pose proof (scheduler_waits_only Example.remote_no_origin Example.base 1 180
                [Example.api; Example.infra] Example.fs_cloned _ _
                ltac:(lia) (surjective_pairing _)) as (_ & Hposted).
  destruct Hposted as (_ & Hall); [vm_compute; reflexivity|].
  by destruct (Hall Hret).
Defined.

(** C9, as the spec has it, fails on a task that takes its worker down: the
    clone of [api] is refused, the task leaves by [sys.exit(1)], nothing is
    posted, and the wait on it does not return; [infra], in the next batch,
    is never handed to the pool. *)
Lemma next_batch_counterexample :
  (main_loop Example.remote_api_refused Example.base 1 180
     [Example.api; Example.infra] (start Example.fs_empty)).1
  = Blocked
  ∧ s_trace (main_loop Example.remote_api_refused Example.base 1 180
               [Example.api; Example.infra] (start Example.fs_empty)).2
    = [Submitted 0 Example.api;
       Worked 0
         [CallRepo ["srv"; "mirror"; "acme"; "api"];
          PrintCloning ["acme"; "api"] ["srv"; "mirror"];
          SetAlarm 180;
          CallCloneFrom "git@gitlab:acme/api.git" ["srv"; "mirror"; "acme"; "api"];
          PrintCloneFailed "repository not found"]
         (Raise (SystemExit 1))].
Proof. split; vm_compute; reflexivity. Qed.

(** ** How the sync task ends *)

Lemma clone_repository_after_fetch (w : world) (base : path) (pr : project)
    (p : path) (timeout : nat) (s s1 : process) :
  fetch_updates w p timeout s = (Ret false, s1) →
  clone_repository w base pr p timeout s = clone_fresh w base pr p timeout s1.
Proof. intros Hf. unfold clone_repository, bind. by rewrite Hf. Qed.

(** Whatever comes of it, the second [try] announces the clone, sets the
    alarm and calls [Repo.clone_from]. *)
Lemma clone_fresh_calls (w : world) (base : path) (pr : project) (p : path)
    (timeout : nat) (s : process) :
  ∃ out s2 rest,
    clone_fresh w base pr p timeout s = (out, s2)
    ∧ p_log s2 = p_log s ++ [PrintCloning (path_with_namespace pr) base;
                             SetAlarm timeout;
                             CallCloneFrom (ssh_url_to_repo pr) p] ++ rest.
Proof.
  destruct (expires timeout (clone_op w (ssh_url_to_repo pr) p)) eqn:Hexp.
  - eexists _, _, []. split; [by apply clone_fresh_expired|]. done.
  - destruct (failure (clone_op w (ssh_url_to_repo pr) p)) as [e|] eqn:Hfail.
    + destruct e;
        try (eexists _, _, []; split;
             [run_py; rewrite Hexp, Hfail; run_py; reflexivity|
               cbn [p_log]; log_eq]).
      eexists _, _, [_]. split; [by eapply clone_fresh_refused|]. done.
    + eexists _, _, [_]. split.
      * run_py. rewrite Hexp, Hfail. run_py. reflexivity.
      * cbn [p_log]. log_eq.
Qed.

(** C1. When the clone of a project is refused with a [GitCommandError],
    the task prints the failure and calls [sys.exit(1)]: it ends by
    [SystemExit] with status 1, no outcome is recorded for the project, and
    the pool's worker goes down without posting a result. *)
Theorem clone_failure_exits (w : world) (base : path) (pr : project) (p : path)
    (timeout : nat) (s s1 : process) (msg : string) :
  fetch_updates w p timeout s = (Ret false, s1) →
  failure (clone_op w (ssh_url_to_repo pr) p) = Some (GitCommandError msg) →
  expires timeout (clone_op w (ssh_url_to_repo pr) p) = false →
  clone_repository w base pr p timeout s
  = (Raise (SystemExit 1),
     {| p_fs := p_fs s1;
        p_alarm := timeout - duration (clone_op w (ssh_url_to_repo pr) p);
        p_log := p_log s1 ++ [PrintCloning (path_with_namespace pr) base;
                              SetAlarm timeout;
                              CallCloneFrom (ssh_url_to_repo pr) p;
                              PrintCloneFailed msg] |})
  ∧ pool_worker (clone_repository w base pr p timeout s).1 = None.
Proof.
  intros Hf Hfail Hexp.
  rewrite (clone_repository_after_fetch _ _ _ _ _ _ _ Hf).
  by rewrite (clone_fresh_refused _ _ _ _ _ _ _ Hfail Hexp).
Qed.

Lemma clone_failure_exits_witness :
  (clone_repository Example.remote_api_refused Example.base Example.api
     (Example.base ++ path_with_namespace Example.api) 180
     (fresh Example.fs_made)).1
  = Raise (SystemExit 1).
Proof.
  pose proof (clone_failure_exits Example.remote_api_refused Example.base
                Example.api (Example.base ++ path_with_namespace Example.api)
                180 (fresh Example.fs_made)
                {| p_fs := Example.fs_made; p_alarm := 0;
                   p_log := [CallRepo (Example.base
                                       ++ path_with_namespace Example.api)] |}
                "repository not found") as H.
  destruct H as [-> _]; [vm_compute; reflexivity..|]. reflexivity.
Defined.

(** C1, as the spec has it, fails: the clone of [api] is refused, the task
    ends by [SystemExit] instead of recording a failure, and the run does
    not go on: the wait on that task never returns. *)
Lemma clone_failure_counterexample :
  (clone_repository Example.remote_api_refused Example.base Example.api
     (Example.base ++ path_with_namespace Example.api) 180
     (fresh Example.fs_made)).1
  = Raise (SystemExit 1)
  ∧ pool_worker (Raise (SystemExit 1)) = None
  ∧ (main_loop Example.remote_api_refused Example.base 10 180
       [Example.api; Example.infra] (start Example.fs_empty)).1
    = Blocked.
Proof. split_and!; vm_compute; reflexivity. Qed.

(** C2. With a working copy in place and a fetch that fails with a
    [GitCommandError] before the alarm runs out, the task prints the
    failure and then goes on to the second [try]: it calls
    [Repo.clone_from] on the directory that holds the working copy. *)
Theorem fetch_failure_falls_through_to_clone (w : world) (base : path)
    (pr : project) (p : path) (timeout : nat) (s : process) (msg : string) :
  is_Some (node_at (p_fs s) p) → is_git_dir (p_fs s) p = true →
  failure (fetch_op w p) = Some (GitCommandError msg) →
  expires timeout (fetch_op w p) = false →
  ∃ out s2 rest,
    clone_repository w base pr p timeout s = (out, s2)
    ∧ p_log s2 = p_log s ++ [CallRepo p; PrintIsRepo p; SetAlarm timeout;
                             CallFetch p; PrintFetchFailed msg;
                             PrintCloning (path_with_namespace pr) base;
                             SetAlarm timeout;
                             CallCloneFrom (ssh_url_to_repo pr) p] ++ rest.
Proof.
  intros Hn Hgit Hfail Hexp.
  pose proof (fetch_updates_refused w p timeout s msg Hn Hgit Hfail Hexp) as Hf.
  rewrite (clone_repository_after_fetch _ _ _ _ _ _ _ Hf).
  destruct (clone_fresh_calls w base pr p timeout
              {| p_fs := p_fs s; p_alarm := timeout - duration (fetch_op w p);
                 p_log := p_log s ++ [CallRepo p; PrintIsRepo p; SetAlarm timeout;
                                      CallFetch p; PrintFetchFailed msg] |})
    as (out & s2 & rest & Hrun & Hlog).
  exists out, s2, rest. split; [done|].
  rewrite Hlog. cbn [p_log]. by rewrite <- !app_assoc.
Qed.

Lemma fetch_failure_falls_through_to_clone_witness :
  ∃ out s2 rest,
    clone_repository Example.remote_fetch_refused Example.base Example.api
      (Example.base ++ path_with_namespace Example.api) 180
      (fresh Example.fs_cloned) = (out, s2)
    ∧ p_log s2
      = [] ++ [CallRepo ["srv"; "mirror"; "acme"; "api"];
               PrintIsRepo ["srv"; "mirror"; "acme"; "api"];
               SetAlarm 180;
               CallFetch ["srv"; "mirror"; "acme"; "api"];
               PrintFetchFailed "could not read from remote repository";
               PrintCloning ["acme"; "api"] ["srv"; "mirror"];
               SetAlarm 180;
               CallCloneFrom "git@gitlab:acme/api.git"
                 ["srv"; "mirror"; "acme"; "api"]] ++ rest.
Proof.
  apply (fetch_failure_falls_through_to_clone Example.remote_fetch_refused
           Example.base Example.api
           (Example.base ++ path_with_namespace Example.api) 180
           (fresh Example.fs_cloned) "could not read from remote repository").
  - vm_compute. by eexists.
  - vm_compute. reflexivity.
  - vm_compute. reflexivity.
  - vm_compute. reflexivity.
Defined.

(** At the failing input of C2 the fallback clone is refused in turn, and
    the task that started on a sound working copy ends by [sys.exit(1)]. *)
Lemma fetch_failure_then_exit :
  (clone_repository Example.remote_fetch_refused Example.base Example.api
     (Example.base ++ path_with_namespace Example.api) 180
     (fresh Example.fs_cloned)).1
  = Raise (SystemExit 1).
Proof. vm_compute. reflexivity. Qed.

(** C4. When a deadline is set ([0 < timeout]) and the fetch, or the clone,
    takes longer than it, SIGALRM ends the worker process in the middle of
    the call, for the script installs no handler: the task neither returns
    nor raises, no outcome is recorded for it, and the worker posts no
    result. *)
Theorem deadline_kills_worker (w : world) (base : path) (pr : project)
    (p : path) (timeout : nat) (s : process) :
  0 < timeout →
  (is_Some (node_at (p_fs s) p) → is_git_dir (p_fs s) p = true →
   timeout < duration (fetch_op w p) →
   clone_repository w base pr p timeout s
   = (Killed,
      {| p_fs := p_fs s; p_alarm := 0;
         p_log := p_log s ++ [CallRepo p; PrintIsRepo p; SetAlarm timeout;
                              CallFetch p] |}))
  ∧ (∀ s1,
       fetch_updates w p timeout s = (Ret false, s1) →
       timeout < duration (clone_op w (ssh_url_to_repo pr) p) →
       clone_repository w base pr p timeout s
       = (Killed,
          {| p_fs := p_fs s1; p_alarm := 0;
             p_log := p_log s1 ++ [PrintCloning (path_with_namespace pr) base;
                                   SetAlarm timeout;
                                   CallCloneFrom (ssh_url_to_repo pr) p] |}))
  ∧ pool_worker Killed = None.
Proof.
  intros Ht. split_and!; [| |done].
  - intros Hn Hgit Hlong. unfold clone_repository, bind.
    by rewrite (fetch_updates_expired w p timeout s Hn Hgit
                  (expires_overrun _ _ Ht Hlong)).
  - intros s1 Hf Hlong.
    rewrite (clone_repository_after_fetch _ _ _ _ _ _ _ Hf).
    by apply clone_fresh_expired, expires_overrun.
Qed.

Lemma deadline_kills_worker_witness :
  (clone_repository Example.remote_slow Example.base Example.api
     (Example.base ++ path_with_namespace Example.api) 180
     (fresh Example.fs_cloned)).1 = Killed
  ∧ (clone_repository Example.remote_slow Example.base Example.api
       (Example.base ++ path_with_namespace Example.api) 180
       (fresh Example.fs_made)).1 = Killed.
Proof.
  pose proof (deadline_kills_worker Example.remote_slow Example.base Example.api
                (Example.base ++ path_with_namespace Example.api) 180
                (fresh Example.fs_cloned) ltac:(lia)) as (Hfetch & _ & _).
  pose proof (deadline_kills_worker Example.remote_slow Example.base Example.api
                (Example.base ++ path_with_namespace Example.api) 180
                (fresh Example.fs_made) ltac:(lia)) as (_ & Hclone & _).
  split.
  - rewrite Hfetch; [reflexivity|vm_compute; by eexists|vm_compute; reflexivity|].
    vm_compute. lia.
  - rewrite (Hclone {| p_fs := Example.fs_made; p_alarm := 0;
                       p_log := [CallRepo (Example.base
                                           ++ path_with_namespace Example.api)] |});
      [reflexivity|vm_compute; reflexivity|]. vm_compute. lia.
Defined.

(** C4, as the spec has it, fails: the fetch of [api] outlasts its 180
    seconds, the worker is terminated and records nothing, and the batch
    is not left alone: the wait on that task never returns, so the run
    stops there. *)
Lemma deadline_counterexample :
  (clone_repository Example.remote_slow Example.base Example.api
     (Example.base ++ path_with_namespace Example.api) 180
     (fresh Example.fs_cloned)).1
  = Killed
  ∧ pool_worker Killed = None
  ∧ (main_loop Example.remote_slow Example.base 1 180
       [Example.api; Example.infra] (start Example.fs_cloned)).1
    = Blocked
  ∧ submitted (s_trace (main_loop Example.remote_slow Example.base 1 180
                          [Example.api; Example.infra]
                          (start Example.fs_cloned)).2)
    = [Example.api].
Proof. split_and!; vm_compute; reflexivity. Qed.

(** ** The first sync of a project *)

Lemma Repo_empty_directory (p : path) (fs : fsys) (n : node) :
  node_at fs p = Some n → fs !! (p ++ [".git"]) = None →
  Repo p (fresh fs)
  = (Raise InvalidGitRepositoryError,
     {| p_fs := fs; p_alarm := 0; p_log := [CallRepo p] |}).
Proof.
  intros Hn Hgit. unfold Repo, bind, log, fresh, is_git_dir. cbn [p_fs p_alarm p_log].
  by rewrite Hn, Hgit.
Qed.

(** C10. The loop makes the target directory before it hands the task to
    the pool.  So on the first sync of a project, when nothing is at the
    target yet, either the directory cannot be made and nothing is handed
    over, or the task finds a directory made a moment ago, [Repo] raises
    [InvalidGitRepositoryError] on it, nothing is fetched, and the task
    calls [Repo.clone_from] into that directory, which exists. *)
Theorem first_sync_takes_clone_branch (w : world) (base : path) (timeout i : nat)
    (pr : project) (results : list (nat * async_result)) (s s' : sched)
    (r : outcome (list (nat * async_result))) :
  node_at (s_fs s) (base ++ path_with_namespace pr) = None →
  s_fs s !! ((base ++ path_with_namespace pr) ++ [".git"]) = None →
  submit_project w base timeout i pr results s = (r, s') →
  (∃ e, r = Raise e ∧ s' = s
        ∧ create_directory (base ++ path_with_namespace pr) (s_fs s)
          = (Raise e, s_fs s))
  ∨ (∃ fs1 out q rest,
       create_directory (base ++ path_with_namespace pr) (s_fs s) = (Ret tt, fs1)
       ∧ node_at fs1 (base ++ path_with_namespace pr) = Some (Dir true)
       ∧ Repo (base ++ path_with_namespace pr) (fresh fs1)
         = (Raise InvalidGitRepositoryError,
            {| p_fs := fs1; p_alarm := 0;
               p_log := [CallRepo (base ++ path_with_namespace pr)] |})
       ∧ clone_repository w base pr (base ++ path_with_namespace pr) timeout
           (fresh fs1) = (out, q)
       ∧ p_log q = [CallRepo (base ++ path_with_namespace pr);
                    PrintCloning (path_with_namespace pr) base;
                    SetAlarm timeout;
                    CallCloneFrom (ssh_url_to_repo pr)
                      (base ++ path_with_namespace pr)] ++ rest
       ∧ r = Ret (results ++ [(i, pool_worker out)])
       ∧ s_trace s' = s_trace s ++ [Submitted i pr; Worked i (p_log q) out]).
Proof.
  set (p := base ++ path_with_namespace pr).
  intros Hnone Hgit Hrun.
  apply submit_project_spec in Hrun
    as [(fs1 & out & q & Hc & Ht & -> & ->)|(e & Hc & -> & ->)];
    [right|left; by exists e].
  fold p in Hc, Ht.
  destruct (create_directory_spec _ _ _ _ Hc)
    as [(_ & Hex & _ & Hnew & Hframe & _)|(e & ? & _)]; [|done].
  assert (node_at fs1 p = Some (Dir true)) as Hdir.
  { destruct (Hnew p) as [Heq|Heq]; [|done].
    destruct Hex as [n Hn]. congruence. }
  assert (fs1 !! (p ++ [".git"]) = None) as Hgit1.
  { rewrite Hframe; [done|]. intros j Heq.
    apply (f_equal length) in Heq. rewrite length_app, length_take in Heq.
    simpl in Heq. lia. }
  assert (fetch_updates w p timeout (fresh fs1)
          = (Ret false, {| p_fs := fs1; p_alarm := 0; p_log := [CallRepo p] |}))
    as Hf.
  { apply (fetch_updates_no_working_copy w p timeout (fresh fs1)).
    - by eexists.
    - unfold is_git_dir. cbn [fresh p_fs]. by rewrite Hgit1. }
  rewrite (clone_repository_after_fetch _ _ _ _ _ _ _ Hf) in Ht.
  destruct (clone_fresh_calls w base pr p timeout
              {| p_fs := fs1; p_alarm := 0; p_log := [CallRepo p] |})
    as (out' & q' & rest & Hrun' & Hlog).
  rewrite Ht in Hrun'. injection Hrun' as <- <-.
  exists fs1, out, q, rest. split_and!; try done.
  - by eapply Repo_empty_directory.
  - by rewrite (clone_repository_after_fetch _ _ _ _ _ _ _ Hf).
Qed.

Lemma first_sync_takes_clone_branch_witness :
  ∃ fs1 out q rest,
    create_directory (Example.base ++ path_with_namespace Example.api)
      Example.fs_empty = (Ret tt, fs1)
    ∧ clone_repository Example.remote_ok Example.base Example.api
        (Example.base ++ path_with_namespace Example.api) 180 (fresh fs1)
      = (out, q)
    ∧ p_log q = [CallRepo ["srv"; "mirror"; "acme"; "api"];
                 PrintCloning ["acme"; "api"] ["srv"; "mirror"];
                 SetAlarm 180;
                 CallCloneFrom "git@gitlab:acme/api.git"
                   ["srv"; "mirror"; "acme"; "api"]] ++ rest.
Proof.
  destruct (first_sync_takes_clone_branch Example.remote_ok Example.base 180 0
              Example.api [] (start Example.fs_empty) _ _
              ltac:(vm_compute; reflexivity) ltac:(vm_compute; reflexivity)
              (surjective_pairing _))
    as [(e & _ & _ & Hc)|(fs1 & out & q & rest & Hc & _ & _ & Ht & Hlog & _)].
  - exfalso. vm_compute in Hc. discriminate Hc.
  - by exists fs1, out, q, rest.
Defined.

(** * Further properties *)

(** ** The sync task on its own *)

Lemma task_fetches (w : world) (base : path) (pr : project)
    (p : path) (timeout : nat) (s : process) :
  is_Some (node_at (p_fs s) p) → is_git_dir (p_fs s) p = true →
  failure (fetch_op w p) = None →
  expires timeout (fetch_op w p) = false →
  clone_repository w base pr p timeout s
  = (Ret tt,
     {| p_fs := p_fs s; p_alarm := 0;
        p_log := p_log s ++ [CallRepo p; PrintIsRepo p; SetAlarm timeout;
                             CallFetch p; SetAlarm 0] |}).
Proof.
  intros [n Hn] Hgit Hfail Hexp. unfold clone_repository. run_py.
  rewrite Hn, Hgit. run_py. rewrite Hexp, Hfail. run_py. log_eq.
Qed.

(** X1. On a target that holds a working copy, a fetch that succeeds in time
    is all the task does: it calls [Repo], sets the alarm, fetches and
    cancels the alarm, in this order, and returns; [Repo.clone_from] is not
    called. *)
Theorem fetch_success_updates (w : world) (base : path) (pr : project)
    (p : path) (timeout : nat) (s : process) :
  is_Some (node_at (p_fs s) p) → is_git_dir (p_fs s) p = true →
  failure (fetch_op w p) = None →
  expires timeout (fetch_op w p) = false →
  ∃ s2,
    clone_repository w base pr p timeout s = (Ret tt, s2)
    ∧ p_alarm s2 = 0
    ∧ p_log s2 = p_log s ++ [CallRepo p; PrintIsRepo p; SetAlarm timeout;
                             CallFetch p; SetAlarm 0].
Proof.
  intros Hn Hgit Hfail Hexp. eexists.
  split; [by apply task_fetches|]. done.
Qed.

Lemma fetch_success_updates_witness :
  (clone_repository Example.remote_ok Example.base Example.api
     (Example.base ++ path_with_namespace Example.api) 180
     (fresh Example.fs_cloned)).1 = Ret tt.
Proof.
  destruct (fetch_success_updates Example.remote_ok Example.base Example.api
              (Example.base ++ path_with_namespace Example.api) 180
              (fresh Example.fs_cloned)) as (s2 & -> & _);
    [vm_compute; by eexists|vm_compute; reflexivity..|reflexivity].
Defined.

Lemma task_clones (w : world) (base : path)
    (pr : project) (p : path) (timeout : nat) (s : process) :
  is_Some (node_at (p_fs s) p) → is_git_dir (p_fs s) p = false →
  failure (clone_op w (ssh_url_to_repo pr) p) = None →
  expires timeout (clone_op w (ssh_url_to_repo pr) p) = false →
  clone_repository w base pr p timeout s
  = (Ret tt,
     {| p_fs := <[p ++ [".git"] := Dir true]> (<[p := Dir true]> (p_fs s));
        p_alarm := 0;
        p_log := p_log s ++ [CallRepo p;
                             PrintCloning (path_with_namespace pr) base;
                             SetAlarm timeout;
                             CallCloneFrom (ssh_url_to_repo pr) p;
                             SetAlarm 0] |})
  ∧ is_git_dir (<[p ++ [".git"] := Dir true]> (<[p := Dir true]> (p_fs s))) p
    = true.
Proof.
  intros Hn Hgit Hfail Hexp. split.
  - rewrite (clone_repository_after_fetch _ _ _ _ _ _ _
               (fetch_updates_no_working_copy w p timeout s Hn Hgit)).
    run_py. rewrite Hexp, Hfail. run_py. log_eq.
  - unfold is_git_dir. by rewrite lookup_insert_eq.
Qed.

(** X2. On a target that exists and holds no working copy, a clone that
    succeeds in time leaves a working copy there: the task returns with
    the alarm cancelled, having fetched nothing. *)
Theorem clone_success_leaves_working_copy (w : world) (base : path)
    (pr : project) (p : path) (timeout : nat) (s : process) :
  is_Some (node_at (p_fs s) p) → is_git_dir (p_fs s) p = false →
  failure (clone_op w (ssh_url_to_repo pr) p) = None →
  expires timeout (clone_op w (ssh_url_to_repo pr) p) = false →
  clone_repository w base pr p timeout s
  = (Ret tt,
     {| p_fs := <[p ++ [".git"] := Dir true]> (<[p := Dir true]> (p_fs s));
        p_alarm := 0;
        p_log := p_log s ++ [CallRepo p;
                             PrintCloning (path_with_namespace pr) base;
                             SetAlarm timeout;
                             CallCloneFrom (ssh_url_to_repo pr) p;
                             SetAlarm 0] |})
  ∧ is_git_dir (<[p ++ [".git"] := Dir true]> (<[p := Dir true]> (p_fs s))) p
    = true.
Proof. exact (task_clones w base pr p timeout s). Qed.

Lemma clone_success_leaves_working_copy_witness :
  (clone_repository Example.remote_ok Example.base Example.api
     (Example.base ++ path_with_namespace Example.api) 180
     (fresh Example.fs_made)).1 = Ret tt.
Proof.
  destruct (clone_success_leaves_working_copy Example.remote_ok Example.base
              Example.api (Example.base ++ path_with_namespace Example.api) 180
              (fresh Example.fs_made)) as [-> _];
    [vm_compute; by eexists|vm_compute; reflexivity..|reflexivity].
Defined.



(** X4. On a target path that does not exist [Repo] raises
    [NoSuchPathError], which neither [except] names: the task raises it
    before any fetch or clone, and the pool stores it as the task's
    result. *)
Theorem missing_target_raises (w : world) (base : path) (pr : project)
    (p : path) (timeout : nat) (s : process) :
  node_at (p_fs s) p = None →
  clone_repository w base pr p timeout s
  = (Raise NoSuchPathError,
     {| p_fs := p_fs s; p_alarm := p_alarm s; p_log := p_log s ++ [CallRepo p] |})
  ∧ pool_worker (clone_repository w base pr p timeout s).1
    = Some (inr NoSuchPathError).
Proof.
  intros Hn.
  assert (clone_repository w base pr p timeout s
          = (Raise NoSuchPathError,
             {| p_fs := p_fs s; p_alarm := p_alarm s;
                p_log := p_log s ++ [CallRepo p] |})) as Hrun.
  { unfold clone_repository. run_py. by rewrite Hn. }
  by rewrite Hrun.
Qed.

Lemma missing_target_raises_witness :
  (clone_repository Example.remote_ok Example.base Example.api
     (Example.base ++ path_with_namespace Example.api) 180
     (fresh Example.fs_empty)).1 = Raise NoSuchPathError.
Proof.
  destruct (missing_target_raises Example.remote_ok Example.base Example.api
              (Example.base ++ path_with_namespace Example.api) 180
              (fresh Example.fs_empty)) as [-> _];
    [vm_compute; reflexivity|reflexivity].
Defined.

(** Every way through the task, at once: the outcome, the alarm and the
    filesystem it leaves. *)
Ltac task_done :=
  intros [= <- <-]; cbn [p_fs p_alarm p_log];
  split_and!; try done; try (by left); try (right; by split).

Lemma expires_zero (o : remote_op) : expires 0 o = false.
Proof. done. Qed.

Lemma fetch_updates_leaves (w : world) (p : path) (timeout : nat)
    (s s1 : process) (r1 : outcome bool) :
  fetch_updates w p timeout s = (r1, s1) →
  p_fs s1 = p_fs s
  ∧ r1 ≠ Blocked
  ∧ (r1 = Ret true → p_alarm s1 = 0)
  ∧ (timeout = 0 → r1 ≠ Killed).
Proof.
  run_py.
  destruct (node_at (p_fs s) p) as [n|]; [|by intros [= <- <-]].
  destruct (is_git_dir (p_fs s) p); run_py; [|by intros [= <- <-]].
  destruct (expires timeout (fetch_op w p)) eqn:Hexp.
  { intros [= <- <-]. split_and!; try done.
    intros ->. by rewrite expires_zero in Hexp. }
  destruct (failure (fetch_op w p)) as [e|]; run_py; [|by intros [= <- <-]].
  destruct e; run_py; by intros [= <- <-].
Qed.

Lemma clone_fresh_leaves (w : world) (base : path) (pr : project)
    (p : path) (timeout : nat) (s s2 : process) (out : outcome unit) :
  clone_fresh w base pr p timeout s = (out, s2) →
  out ≠ Blocked
  ∧ (out = Ret tt → p_alarm s2 = 0)
  ∧ (timeout = 0 → out ≠ Killed)
  ∧ (p_fs s2 = p_fs s
     ∨ (out = Ret tt
        ∧ p_fs s2 = <[p ++ [".git"] := Dir true]> (<[p := Dir true]> (p_fs s)))).
Proof.
  run_py.
  destruct (expires timeout (clone_op w (ssh_url_to_repo pr) p)) eqn:Hexp2.
  { task_done. intros ->. by rewrite expires_zero in Hexp2. }
  destruct (failure (clone_op w (ssh_url_to_repo pr) p)) as [e|]; run_py;
    [|task_done].
  destruct e; run_py; task_done.
Qed.

Lemma clone_repository_leaves (w : world) (base : path) (pr : project)
    (p : path) (timeout : nat) (s s2 : process) (out : outcome unit) :
  clone_repository w base pr p timeout s = (out, s2) →
  out ≠ Blocked
  ∧ (out = Ret tt → p_alarm s2 = 0)
  ∧ (timeout = 0 → out ≠ Killed)
  ∧ (p_fs s2 = p_fs s
     ∨ (out = Ret tt
        ∧ p_fs s2 = <[p ++ [".git"] := Dir true]> (<[p := Dir true]> (p_fs s)))).
Proof.
  unfold clone_repository, bind.
  destruct (fetch_updates w p timeout s) as [r1 s1] eqn:Hf.
  apply fetch_updates_leaves in Hf as (Hfs & Hnb & Hret & Hzero).
  destruct r1 as [[|]|e| |].
  - intros [= <- <-]. split_and!; try done; [by auto|by left].
  - intros Hc. apply clone_fresh_leaves in Hc. by rewrite Hfs in Hc.
  - intros [= <- <-]. split_and!; try done. by left.
  - intros [= <- <-]. split_and!; try done;
      [intros Ht; by destruct (Hzero Ht)|by left].
  - done.
Qed.

(** X5. Whenever the task returns, the alarm it set is cancelled: a worker
    that got through a task has no alarm pending when it takes up the
    next one. *)
Theorem task_return_clears_alarm (w : world) (base : path) (pr : project)
    (p : path) (timeout : nat) (s s2 : process) :
  clone_repository w base pr p timeout s = (Ret tt, s2) → p_alarm s2 = 0.
Proof.
  intros Hrun. apply clone_repository_leaves in Hrun as (_ & Hret & _). auto.
Qed.

Lemma task_return_clears_alarm_witness :
  p_alarm (clone_repository Example.remote_ok Example.base Example.api
             (Example.base ++ path_with_namespace Example.api) 180
             (fresh Example.fs_made)).2 = 0.
Proof.
  eapply (task_return_clears_alarm Example.remote_ok Example.base Example.api
            (Example.base ++ path_with_namespace Example.api) 180
            (fresh Example.fs_made)).
  vm_compute. reflexivity.
Defined.

Lemma task_frame (w : world) (base : path) (pr : project)
    (p : path) (timeout : nat) (s s2 : process) (out : outcome unit) :
  clone_repository w base pr p timeout s = (out, s2) →
  (∀ q, q ≠ p → q ≠ p ++ [".git"] → p_fs s2 !! q = p_fs s !! q)
  ∧ (∀ q, is_Some (p_fs s !! q) → is_Some (p_fs s2 !! q)).
Proof.
  intros Hrun.
  apply clone_repository_leaves in Hrun as (_ & _ & _ & [->|[_ ->]]);
    [done|]. split.
  - intros q Hq1 Hq2. by rewrite !lookup_insert_ne.
  - intros q Hq. rewrite !lookup_insert.
    repeat case_decide; by eauto.
Qed.

(** X6. The task writes nowhere but at its target and below it: whatever
    the remote does and however the task ends, a path that does not lie at
    or below the target is after the task what it was before. *)
Theorem task_touches_only_target (w : world) (base : path) (pr : project)
    (p : path) (timeout : nat) (s s2 : process) (out : outcome unit) (q : path) :
  clone_repository w base pr p timeout s = (out, s2) →
  ¬ p `prefix_of` q →
  p_fs s2 !! q = p_fs s !! q.
Proof.
  intros Hrun Hq. apply (task_frame _ _ _ _ _ _ _ _ Hrun).
  - intros ->. by apply Hq.
  - intros ->. apply Hq. by exists [".git"].
Qed.

Lemma task_touches_only_target_witness :
  p_fs (clone_repository Example.remote_ok Example.base Example.api
          (Example.base ++ path_with_namespace Example.api) 180
          (fresh Example.fs_made)).2 !! ["srv"; "mirror"; "acme"]
  = Example.fs_made !! ["srv"; "mirror"; "acme"].
Proof.
  eapply (task_touches_only_target Example.remote_ok Example.base Example.api
            (Example.base ++ path_with_namespace Example.api) 180
            (fresh Example.fs_made)).
  - apply surjective_pairing.
  - intros [k Hk]. vm_compute in Hk. discriminate Hk.
Defined.

(** X7. A timeout of zero is no deadline: [signal.alarm(0)] arms nothing,
    and no fetch or clone, however long, is interrupted. *)
Theorem zero_timeout_never_interrupts (w : world) (base : path) (pr : project)
    (p : path) (s s2 : process) (out : outcome unit) :
  clone_repository w base pr p 0 s = (out, s2) → out ≠ Killed.
Proof.
  intros Hrun. apply clone_repository_leaves in Hrun as (_ & _ & Hzero & _).
  by apply Hzero.
Qed.

Lemma zero_timeout_never_interrupts_witness :
  (clone_repository Example.remote_slow Example.base Example.api
     (Example.base ++ path_with_namespace Example.api) 0
     (fresh Example.fs_cloned)).1 ≠ Killed.
Proof.
  eapply (zero_timeout_never_interrupts Example.remote_slow Example.base
            Example.api (Example.base ++ path_with_namespace Example.api)
            (fresh Example.fs_cloned)).
  apply surjective_pairing.
Defined.

(** X8. When the fetch raises an exception that is not a [GitCommandError],
    the task raises it at once: [signal.alarm(0)] is passed over, so the
    alarm set for the fetch stays pending in the worker, and no clone is
    tried. *)
Theorem uncaught_fetch_error_leaves_alarm (w : world) (base : path)
    (pr : project) (p : path) (timeout : nat) (s : process) (e : exn) :
  is_Some (node_at (p_fs s) p) → is_git_dir (p_fs s) p = true →
  failure (fetch_op w p) = Some e →
  (∀ msg, e ≠ GitCommandError msg) → e ≠ InvalidGitRepositoryError →
  0 < timeout → expires timeout (fetch_op w p) = false →
  clone_repository w base pr p timeout s
  = (Raise e,
     {| p_fs := p_fs s; p_alarm := timeout - duration (fetch_op w p);
        p_log := p_log s ++ [CallRepo p; PrintIsRepo p; SetAlarm timeout;
                             CallFetch p] |})
  ∧ 0 < timeout - duration (fetch_op w p).
Proof.
  intros [n Hn] Hgit Hfail Hnot1 Hnot2 Ht Hexp. split.
  - unfold clone_repository. run_py. rewrite Hn, Hgit. run_py.
    rewrite Hexp, Hfail. run_py.
    destruct e; try done; try log_eq. by destruct (Hnot1 msg).
  - unfold expires in Hexp. apply andb_false_iff in Hexp as [Hexp|Hexp].
    + apply Nat.ltb_ge in Hexp. lia.
    + apply Nat.leb_gt in Hexp. lia.
Qed.

Lemma uncaught_fetch_error_leaves_alarm_witness :
  p_alarm (clone_repository Example.remote_no_origin Example.base Example.api
             (Example.base ++ path_with_namespace Example.api) 180
             (fresh Example.fs_cloned)).2 = 180.
Proof.
  destruct (uncaught_fetch_error_leaves_alarm Example.remote_no_origin
              Example.base Example.api
              (Example.base ++ path_with_namespace Example.api) 180
              (fresh Example.fs_cloned) (OtherException "AttributeError"))
    as [-> _];
    [vm_compute; by eexists
    |vm_compute; reflexivity
    |vm_compute; reflexivity
    |intros msg; discriminate
    |discriminate
    |lia
    |vm_compute; reflexivity
    |vm_compute; reflexivity].
Defined.

(** ** More on directories *)

Lemma makedirs_upto_errors (p : path) (k : nat) :
  ∀ (fs fs' : fsys) (e : exn),
    k ≤ length p → node_at fs (take k p) = None →
    makedirs_upto p k fs = (Raise e, fs') →
    ∃ j, j < k
         ∧ node_at fs (take (S j) p) = None
         ∧ ((node_at fs (take j p) = Some File ∧ e = NotADirectoryError)
            ∨ (node_at fs (take j p) = Some (Dir false) ∧ e = PermissionError)).
Proof.
  induction k as [|k IH]; intros fs fs' e Hk Hnone Hrun.
  - by rewrite take_0 in Hnone.
  - cbn [makedirs_upto] in Hrun. unfold bind in Hrun.
    destruct (path_exists fs (take k p)) eqn:Hex.
    + unfold ret, mkdir in Hrun.
      rewrite Hnone, parent_take_S in Hrun by done.
      apply path_exists_true in Hex as [n Hn]. rewrite Hn in Hrun.
      exists k. split; [lia|]. split; [done|].
      destruct n as [|[]]; simplify_eq; by auto.
    + apply path_exists_false in Hex. unfold try_except in Hrun.
      destruct (makedirs_upto p k fs) as [r1 fs1] eqn:Hrec.
      destruct (makedirs_upto_spec p k fs fs1 r1 ltac:(lia) Hex Hrec)
        as [(-> & Hdir & Hframe & _)|(e1 & -> & ->)].
      * exfalso.
        assert (node_at fs1 (take (S k) p) = None) as Hnone1.
        { pose proof (take_S_nonempty p k Hk) as Hne.
          unfold node_at in *.
          destruct (take (S k) p) eqn:Ht'; [done|]. rewrite <- Ht' in *.
          rewrite Hframe; [done|].
          intros j Hj Heq. apply take_inj_length in Heq; lia. }
        unfold mkdir in Hrun.
        by rewrite Hnone1, parent_take_S, Hdir in Hrun by done.
      * destruct (IH fs fs e1 ltac:(lia) Hex Hrec) as (j & Hj & Hnj & Hcause).
        assert (e = e1) as ->.
        { destruct Hcause as [[_ ->]|[_ ->]]; by simplify_eq. }
        exists j. split; [lia|done].
Qed.

(** What stops [os.makedirs]: the deepest ancestor that exists, when it is
    no directory or may not be written to. *)
Lemma makedirs_upto_blocked (p : path) (j : nat) (fs : fsys) (n : node) (e : exn) :
  node_at fs (take j p) = Some n →
  (n = File ∧ e = NotADirectoryError) ∨ (n = Dir false ∧ e = PermissionError) →
  ∀ d, j + S d ≤ length p →
       (∀ k, j < k ≤ j + S d → node_at fs (take k p) = None) →
       makedirs_upto p (j + S d) fs = (Raise e, fs).
Proof.
  intros Hj Hn. induction d as [|d IH]; intros Hlen Hnone.
  - replace (j + 1) with (S j) in * by lia.
    cbn [makedirs_upto]. unfold bind, path_exists, ret, mkdir.
    rewrite Hj, (Hnone (S j)), parent_take_S, Hj by lia.
    by destruct Hn as [[-> ->]|[-> ->]].
  - replace (j + S (S d)) with (S (j + S d)) in * by lia.
    cbn [makedirs_upto]. unfold bind, path_exists, try_except.
    rewrite (Hnone (j + S d)), IH by (lia || (intros k Hk; apply Hnone; lia)).
    by destruct Hn as [[-> ->]|[-> ->]].
Qed.

(** X9. [create_directory] stops at the deepest ancestor of the path that
    exists, when that is no place to make a directory in: under a regular
    file it raises [NotADirectoryError], under a directory that may not be
    written to [PermissionError], and in both cases it has made nothing. *)
Theorem create_directory_fails_at_ancestor (p : path) (fs : fsys) (j : nat) :
  j < length p →
  (∀ k, j < k ≤ length p → node_at fs (take k p) = None) →
  (node_at fs (take j p) = Some File →
   create_directory p fs = (Raise NotADirectoryError, fs))
  ∧ (node_at fs (take j p) = Some (Dir false) →
     create_directory p fs = (Raise PermissionError, fs)).
Proof.
  intros Hlt Hnone.
  pose proof (Hnone (length p) ltac:(lia)) as Hp. rewrite firstn_all in Hp.
  assert (∀ n e, node_at fs (take j p) = Some n →
                 (n = File ∧ e = NotADirectoryError)
                 ∨ (n = Dir false ∧ e = PermissionError) →
                 create_directory p fs = (Raise e, fs)) as Hblocked.
  { intros n e Hj Hn. unfold create_directory, path_exists, makedirs.
    rewrite Hp. cbn [negb].
    replace (length p) with (j + S (length p - j - 1)) at 1 by lia.
    eapply makedirs_upto_blocked; [exact Hj|exact Hn|lia|].
    intros k Hk. apply Hnone. lia. }
  split; intros Hj; eapply Hblocked; eauto.
Qed.

Lemma create_directory_fails_at_ancestor_witness :
  create_directory (Example.base ++ path_with_namespace Example.api)
    Example.fs_acme_file
  = (Raise NotADirectoryError, Example.fs_acme_file).
Proof.
  apply (create_directory_fails_at_ancestor
           (Example.base ++ path_with_namespace Example.api)
           Example.fs_acme_file 3).
  - simpl. lia.
  - intros k Hk. assert (k = 4) as -> by (simpl in Hk; lia).
    vm_compute. reflexivity.
  - vm_compute. reflexivity.
Defined.

(** ** More on batches *)

(** X10. The loop makes as many batches as it takes to hold the list, the
    length over the batch size rounded up, and every batch but the last
    has exactly [b] projects. *)
Theorem batches_all_full_but_last (b : nat) (projects : list project) :
  0 < b →
  length (batches b projects) = (length projects + b - 1) / b
  ∧ ∀ k bt, batches b projects !! k = Some bt →
            S k < length (batches b projects) →
            length bt = b.
Proof.
  intros Hb.
  assert (length (batches b projects) = (length projects + b - 1) / b) as Hlen.
  { unfold batches, range_step. by rewrite !length_fmap, length_seq. }
  split; [done|].
  intros k bt Hk Hlast. rewrite Hlen in Hlast.
  apply batches_lookup in Hk as [_ ->].
  rewrite length_take, length_drop.
  pose proof (Nat.Div0.mul_div_le (length projects + b - 1) b) as Hle.
  assert (S k * b ≤ length projects) by nia. simpl in *. lia.
Qed.

Lemma batches_all_full_but_last_witness :
  length (batches 2 [Example.api; Example.infra; Example.handbook]) = 2.
Proof.
  destruct (batches_all_full_but_last 2
              [Example.api; Example.infra; Example.handbook] ltac:(lia))
    as [-> _].
  reflexivity.
Defined.

(** ** What holds all along a run *)

Lemma elem_of_slice (projects : list project) (b i : nat) (pr : project) :
  pr ∈ take b (drop i projects) → pr ∈ projects.
Proof.
  intros Hin. apply list_elem_of_lookup in Hin as [k Hk].
  apply lookup_take_Some in Hk as [Hk _]. rewrite lookup_drop in Hk.
  by eapply list_elem_of_lookup_2.
Qed.

Section Invariant.

Variable w : world.
Variable base : path.
Variable b : nat.
Variable timeout : nat.
Variable projects : list project.

(** A property of the main process that each turn for a project of the
    catalog keeps, and each wait. *)
Variable Inv : sched → Prop.

Hypothesis Inv_submit :
  ∀ i pr results s r s',
    pr ∈ projects → Inv s →
    submit_project w base timeout i pr results s = (r, s') → Inv s'.

Hypothesis Inv_wait :
  ∀ h s r s', Inv s → wait h s = (r, s') → Inv s'.

Lemma submit_batch_preserves (batch : list project) :
  (∀ pr, pr ∈ batch → pr ∈ projects) →
  ∀ i results s r s',
    Inv s → submit_batch w base timeout i batch results s = (r, s') → Inv s'.
Proof.
  induction batch as [|pr rest IH]; intros Hsub i results s r s' HI Hrun.
  - by injection Hrun as <- <-.
  - cbn [submit_batch] in Hrun. unfold bind in Hrun.
    destruct (submit_project w base timeout i pr results s) as [r1 s1] eqn:H1.
    assert (Inv s1) as HI1.
    { eapply Inv_submit; [|exact HI|exact H1]. apply Hsub. by left. }
    destruct r1 as [results'|e| |]; try by injection Hrun as <- <-.
    eapply IH; [|exact HI1|exact Hrun].
    intros pr' Hin. apply Hsub. by right.
Qed.

Lemma wait_all_preserves (hs : list (nat * async_result)) :
  ∀ s r s', Inv s → wait_all hs s = (r, s') → Inv s'.
Proof.
  induction hs as [|h rest IH]; intros s r s' HI Hrun.
  - by injection Hrun as <- <-.
  - cbn [wait_all] in Hrun. unfold bind in Hrun.
    destruct (wait h s) as [r1 s1] eqn:H1.
    assert (Inv s1) as HI1 by (by eapply Inv_wait).
    destruct r1 as [[]|e| |]; try by injection Hrun as <- <-.
    by eapply IH.
Qed.

Lemma run_batch_preserves (i : nat) (s s' : sched) (r : outcome unit) :
  Inv s → run_batch w base b timeout projects i s = (r, s') → Inv s'.
Proof.
  intros HI. unfold run_batch, bind.
  destruct (submit_batch w base timeout i (take b (drop i projects)) [] s)
    as [r1 s1] eqn:H1.
  assert (Inv s1) as HI1.
  { eapply submit_batch_preserves; [|exact HI|exact H1].
    intros pr. apply elem_of_slice. }
  destruct r1 as [hs|e| |]; try by intros [= <- <-].
  by apply wait_all_preserves.
Qed.

Lemma for_each_preserves (starts : list nat) :
  ∀ s r s',
    Inv s → for_each starts (run_batch w base b timeout projects) s = (r, s') →
    Inv s'.
Proof.
  induction starts as [|i rest IH]; intros s r s' HI Hrun.
  - by injection Hrun as <- <-.
  - cbn [for_each] in Hrun. unfold bind in Hrun.
    destruct (run_batch w base b timeout projects i s) as [r1 s1] eqn:H1.
    assert (Inv s1) as HI1 by (by eapply run_batch_preserves).
    destruct r1 as [[]|e| |]; try by injection Hrun as <- <-.
    by eapply IH.
Qed.

Lemma main_loop_preserves (s s' : sched) (r : outcome unit) :
  Inv s → main_loop w base b timeout projects s = (r, s') → Inv s'.
Proof.
  intros HI. unfold main_loop. destruct (b =? 0).
  - by intros [= <- <-].
  - by apply for_each_preserves.
Qed.

End Invariant.

Lemma wait_keeps (h : nat * async_result) (s s' : sched) (r : outcome unit) :
  wait h s = (r, s') →
  s_fs s' = s_fs s
  ∧ (s_trace s' = s_trace s ∨ s_trace s' = s_trace s ++ [Waited h.1]).
Proof.
  unfold wait, emit. destruct (h.2); intros [= <- <-]; auto.
Qed.

Lemma prefix_of_target (p : path) (j : nat) :
  take j p `prefix_of` p ++ [".git"].
Proof. exists (drop j p ++ [".git"]). by rewrite app_assoc, take_drop. Qed.

(** What the loop writes, in this model of the remote's side, lies on the
    way to a target or is a target's [.git]. *)
Lemma main_loop_frame (w : world) (base : path) (b timeout : nat)
    (projects : list project) (fs : fsys) (r : outcome unit) (s' : sched) :
  main_loop w base b timeout projects (start fs) = (r, s') →
  (∀ q, (∀ pr, pr ∈ projects →
               ¬ q `prefix_of` (base ++ path_with_namespace pr) ++ [".git"]) →
        s_fs s' !! q = fs !! q)
  ∧ (∀ q, is_Some (node_at fs q) → is_Some (node_at (s_fs s') q)).
Proof.
  apply (main_loop_preserves w base b timeout projects
           (λ s, (∀ q, (∀ pr, pr ∈ projects →
                          ¬ q `prefix_of` (base ++ path_with_namespace pr)
                                          ++ [".git"]) →
                       s_fs s !! q = fs !! q)
                 ∧ (∀ q, is_Some (node_at fs q) → is_Some (node_at (s_fs s) q)))).
  - intros i pr results s r0 s0 Hin [Hframe Hmono] Hrun.
    apply submit_project_spec in Hrun
      as [(fs1 & out & q1 & Hc & Ht & -> & ->)|(e & _ & -> & ->)]; [|done].
    cbn [s_fs].
    destruct (create_directory_spec _ _ _ _ Hc)
      as [(_ & _ & Hmono1 & _ & Hframe1 & _)|(e & ? & _)]; [|done].
    destruct (task_frame _ _ _ _ _ _ _ _ Ht) as [Hframe2 Hmono2].
    cbn [fresh p_fs] in *. split.
    + intros q Hq. rewrite Hframe2, Hframe1; [by apply Hframe| | |].
      * intros j ->. apply (Hq pr Hin), prefix_of_target.
      * intros ->. apply (Hq pr Hin). by exists [".git"].
      * intros ->. by apply (Hq pr Hin).
    + intros q Hq. apply Hmono in Hq as [n Hn]. apply Hmono1 in Hn.
      destruct q as [|x q]; [done|]. cbn [node_at] in *.
      apply Hmono2. by eexists.
  - intros h s r0 s0 [Hframe Hmono] Hrun.
    apply wait_keeps in Hrun as [Hfs _]. by rewrite Hfs.
  - done.
Qed.

Lemma prefix_of_git (q t : path) :
  q `prefix_of` t ++ [".git"] → q `prefix_of` t ∨ t `prefix_of` q.
Proof.
  intros [k Hk]. destruct k as [|x k _] using rev_ind.
  - right. exists [".git"]. by rewrite app_nil_r in Hk.
  - left. exists k. rewrite app_assoc in Hk. by apply app_inj_tail in Hk as [-> _].
Qed.

(** X11. A run writes only on the way to its targets, at them and below
    them: a path that is no ancestor of a target and does not lie at or
    below one is after the run what it was before, whatever the remotes
    did and however the run ended. *)
Theorem run_touches_only_targets (w : world) (base : path) (b timeout : nat)
    (projects : list project) (fs : fsys) (r : outcome unit) (s' : sched)
    (q : path) :
  main_loop w base b timeout projects (start fs) = (r, s') →
  (∀ pr, pr ∈ projects →
         ¬ q `prefix_of` base ++ path_with_namespace pr
         ∧ ¬ base ++ path_with_namespace pr `prefix_of` q) →
  s_fs s' !! q = fs !! q.
Proof.
  intros Hrun Hq.
  apply (main_loop_frame _ _ _ _ _ _ _ _ Hrun).
  intros pr Hin Hpre. destruct (Hq pr Hin) as [H1 H2].
  by apply prefix_of_git in Hpre as [?|?].
Qed.

Lemma run_touches_only_targets_witness :
  s_fs (main_loop Example.remote_ok Example.base 10 180
          [Example.api; Example.infra] (start Example.fs_empty)).2
    !! ["srv"; "other"]
  = Example.fs_empty !! ["srv"; "other"].
Proof.
  eapply (run_touches_only_targets Example.remote_ok Example.base 10 180
            [Example.api; Example.infra] Example.fs_empty).
  - apply surjective_pairing.
  - intros pr Hin.
    apply elem_of_cons in Hin as [->|Hin];
      [|apply elem_of_cons in Hin as [->|Hin]; [|by apply elem_of_nil in Hin]];
      (split; intros [k Hk]; vm_compute in Hk; discriminate Hk).
Defined.


(** ** Runs in which nothing goes wrong *)

Lemma create_directory_all_writable (p : path) (fs fs' : fsys) (r : outcome unit) :
  all_writable fs → create_directory p fs = (r, fs') →
  r = Ret tt ∧ all_writable fs' ∧ is_Some (node_at fs' p)
  ∧ (∀ q n, node_at fs q = Some n → node_at fs' q = Some n).
Proof.
  intros Hw Hrun.
  destruct (create_directory_spec _ _ _ _ Hrun)
    as [(-> & Hex & Hmono & Hnew & _)|(e & -> & -> & Hn)].
  - split_and!; try done. intros q n Hq.
    destruct (Hnew q) as [Heq|Heq]; rewrite Heq in Hq; [by eapply Hw|].
    by injection Hq as <-.
  - exfalso. unfold create_directory in Hrun.
    destruct (path_exists fs p) eqn:Hex; [done|]. cbn [negb] in Hrun.
    apply makedirs_upto_errors in Hrun as (j & _ & _ & [[Hf _]|[Hf _]]);
      [| |done|by rewrite firstn_all]; by apply Hw in Hf.
Qed.

Lemma is_git_dir_insert (fs : fsys) (p q : path) :
  is_git_dir fs q = true →
  is_git_dir (<[p ++ [".git"] := Dir true]> (<[p := Dir true]> fs)) q = true.
Proof.
  unfold is_git_dir. intros Hq. rewrite !lookup_insert.
  repeat case_decide; try done.
Qed.

Lemma all_writable_insert (fs : fsys) (p : path) :
  all_writable fs → all_writable (<[p := Dir true]> fs).
Proof.
  intros Hw q n Hq. destruct q as [|x q]; [by injection Hq as <-|].
  cbn [node_at] in Hq. rewrite lookup_insert in Hq.
  case_decide; [by injection Hq as <-|]. by apply (Hw (x :: q)).
Qed.

(** With sound remotes the task returns and leaves a working copy, by a
    fetch when one is there and by a clone when none is. *)
Lemma task_sound (w : world) (base : path) (pr : project) (p : path)
    (timeout : nat) (fs : fsys) :
  remote_sound w timeout → all_writable fs → is_Some (node_at fs p) →
  ∃ q, clone_repository w base pr p timeout (fresh fs) = (Ret tt, q)
       ∧ all_writable (p_fs q)
       ∧ is_git_dir (p_fs q) p = true
       ∧ (∀ p', is_git_dir fs p' = true → is_git_dir (p_fs q) p' = true).
Proof.
  intros [Hfetch Hclone] Hw Hn.
  destruct (is_git_dir fs p) eqn:Hgit.
  - destruct (Hfetch p) as [Hf He].
    eexists. split; [by apply task_fetches|]. by cbn [p_fs fresh].
  - destruct (Hclone (ssh_url_to_repo pr) p) as [Hf He].
    destruct (task_clones w base pr p timeout (fresh fs) Hn Hgit Hf He)
      as [Hrun Hgit'].
    eexists. split; [exact Hrun|]. cbn [p_fs fresh]. split_and!.
    + by do 2 apply all_writable_insert.
    + done.
    + intros p'. apply is_git_dir_insert.
Qed.

Lemma elem_of_submitted (tr : list event) (pr : project) :
  pr ∈ submitted tr → ∃ i, Submitted i pr ∈ tr.
Proof.
  unfold submitted. rewrite list_elem_of_omap. intros (e & Hin & He).
  destruct e; try done. injection He as ->. by eexists.
Qed.

(** With sound remotes and a writable filesystem the loop runs to its end
    and leaves a working copy at every target. *)
Lemma main_loop_sound (w : world) (base : path) (b timeout : nat)
    (projects : list project) (fs : fsys) (r : outcome unit) (s' : sched) :
  0 < b → remote_sound w timeout → all_writable fs →
  main_loop w base b timeout projects (start fs) = (r, s') →
  r = Ret tt
  ∧ submitted (s_trace s') = projects
  ∧ (∀ pr, pr ∈ projects →
           is_git_dir (s_fs s') (base ++ path_with_namespace pr) = true)
  ∧ all_writable (s_fs s').
Proof.
  intros Hb Hsound Hw Hrun.
  assert (all_writable (s_fs s')
          ∧ (∀ i did out, Worked i did out ∈ s_trace s' → out = Ret tt)
          ∧ (∀ i pr, Submitted i pr ∈ s_trace s' →
                     is_git_dir (s_fs s') (base ++ path_with_namespace pr) = true))
    as (Hw' & Hworked & Hgit).
  { revert Hrun.
    apply (main_loop_preserves w base b timeout projects
             (λ s, all_writable (s_fs s)
                   ∧ (∀ i did out, Worked i did out ∈ s_trace s → out = Ret tt)
                   ∧ (∀ i pr, Submitted i pr ∈ s_trace s →
                              is_git_dir (s_fs s)
                                (base ++ path_with_namespace pr) = true))).
    - intros i pr results s r0 s0 _ (Hws & Hwk & Hg) Hsub.
      apply submit_project_spec in Hsub
        as [(fs1 & out & q1 & Hc & Ht & -> & ->)|(e & _ & -> & ->)]; [|done].
      cbn [s_fs s_trace].
      destruct (create_directory_all_writable _ _ _ _ Hws Hc)
        as (_ & Hw1 & Hex1 & Hmono1).
      destruct (task_sound w base pr (base ++ path_with_namespace pr) timeout
                  fs1 Hsound Hw1 Hex1) as (q & Hq & Hwq & Hgq & Hmonoq).
      pose proof (eq_trans (eq_sym Ht) Hq) as Heq. injection Heq as -> ->.
      split_and!; [done|..].
      + intros i' did out Hin. rewrite !elem_of_app in Hin.
        destruct Hin as [Hin|Hin]; [by eapply Hwk|].
        apply elem_of_cons in Hin as [[=]|Hin].
        apply list_elem_of_singleton in Hin. by injection Hin as _ _ ->.
      + intros i' pr' Hin. rewrite !elem_of_app in Hin.
        destruct Hin as [Hin|Hin].
        * apply Hmonoq. specialize (Hg _ _ Hin).
          unfold is_git_dir in *.
          destruct (s_fs s !! ((base ++ path_with_namespace pr') ++ [".git"]))
            as [n|] eqn:Hn; [|done].
          assert (node_at (s_fs s) ((base ++ path_with_namespace pr') ++ [".git"])
                  = Some n) as Hn'.
          { by destruct ((base ++ path_with_namespace pr') ++ [".git"]) eqn:Hd;
              [destruct (base ++ path_with_namespace pr')|]. }
          apply Hmono1 in Hn'.
          destruct ((base ++ path_with_namespace pr') ++ [".git"]) eqn:Hd;
            [by destruct (base ++ path_with_namespace pr')|].
          cbn [node_at] in Hn'. by rewrite Hn'.
        * apply elem_of_cons in Hin as [[= -> ->]|Hin]; [done|].
          by apply list_elem_of_singleton in Hin.
    - intros h s r0 s0 (Hws & Hwk & Hg) Hwait.
      apply wait_keeps in Hwait as [Hfs Htr]. rewrite Hfs.
      split_and!; [done|..].
      + intros i did out Hin. destruct Htr as [Htr|Htr]; rewrite Htr in Hin;
          [by eapply Hwk|].
        apply elem_of_app in Hin as [Hin|Hin]; [by eapply Hwk|].
        by apply list_elem_of_singleton in Hin.
      + intros i pr Hin. destruct Htr as [Htr|Htr]; rewrite Htr in Hin;
          [by eapply Hg|].
        apply elem_of_app in Hin as [Hin|Hin]; [by eapply Hg|].
        by apply list_elem_of_singleton in Hin.
    - split_and!; [done|..]; intros ? ? Hin; try intros Hin';
        by apply elem_of_nil in Hin || by apply elem_of_nil in Hin'. }
  apply main_loop_spec in Hrun as (n & l & Htr & Hsub & _ & _ & Hr); [|done].
  simpl in Htr. rewrite Htr in *.
  assert (r = Ret tt) as ->.
  { destruct r as [[]|e| |]; [done| |done|].
    - destruct Hr as (pr & _ & Hc).
      by destruct (create_directory_all_writable _ _ _ _ Hw' Hc) as [? _].
    - destruct Hr as (k & did & out & Hin & Hnone & _).
      by rewrite (Hworked _ _ _ Hin) in Hnone. }
  destruct Hr as (Hall & _). split_and!; try done.
  intros pr Hin. rewrite <- Hall in Hin.
  apply elem_of_submitted in Hin as [i Hi]. by eapply Hgit.
Qed.

(** X12. With remotes whose every fetch and clone succeeds in time, on a
    filesystem where every directory may be written to, the loop runs to
    its end: it raises nothing and blocks on nothing, every project of the
    catalog is handed to the pool, and when it is over every target holds
    a working copy. *)
Theorem sound_run_mirrors_all (w : world) (base : path) (b timeout : nat)
    (projects : list project) (fs : fsys) (r : outcome unit) (s' : sched) :
  0 < b → remote_sound w timeout → all_writable fs →
  main_loop w base b timeout projects (start fs) = (r, s') →
  r = Ret tt
  ∧ submitted (s_trace s') = projects
  ∧ (∀ pr, pr ∈ projects →
           is_git_dir (s_fs s') (base ++ path_with_namespace pr) = true)
  ∧ all_writable (s_fs s').
Proof. apply main_loop_sound. Qed.

Lemma remote_ok_sound : remote_sound Example.remote_ok 180.
Proof. split; intros; by split. Qed.

Lemma fs_empty_all_writable : all_writable Example.fs_empty.
Proof.
  intros q n Hq. destruct q as [|x q]; [by injection Hq as <-|].
  cbn [node_at] in Hq. unfold Example.fs_empty in Hq.
  rewrite lookup_insert in Hq. case_decide; [by injection Hq as <-|].
  rewrite lookup_singleton in Hq. case_decide; [by injection Hq as <-|done].
Qed.

Lemma sound_run_mirrors_all_witness :
  (main_loop Example.remote_ok Example.base 10 180
     [Example.api; Example.infra] (start Example.fs_empty)).1 = Ret tt
  ∧ is_git_dir
      (s_fs (main_loop Example.remote_ok Example.base 10 180
               [Example.api; Example.infra] (start Example.fs_empty)).2)
      (Example.base ++ path_with_namespace Example.infra) = true.
Proof.
  destruct (sound_run_mirrors_all Example.remote_ok Example.base 10 180
              [Example.api; Example.infra] Example.fs_empty _ _
              ltac:(lia) remote_ok_sound fs_empty_all_writable
              (surjective_pairing _)) as (Hret & _ & Hgit & _).
  split; [exact Hret|]. apply Hgit. right. left.
Defined.

Lemma clone_calls_app (l1 l2 : list event) :
  clone_calls (l1 ++ l2) = clone_calls l1 ++ clone_calls l2.
Proof. unfold clone_calls. apply bind_app. Qed.

(** X13. A run over a mirror that is already there only fetches: when
    every target holds a working copy and every fetch succeeds in time, the
    loop runs to its end, hands every project to the pool and calls
    [Repo.clone_from] for none; and what is not inside the [.git] of a
    target is after the run what it was before. *)
Theorem up_to_date_run_only_fetches (w : world) (base : path)
    (b timeout : nat) (projects : list project) (fs : fsys)
    (r : outcome unit) (s' : sched) :
  0 < b →
  (∀ p, failure (fetch_op w p) = None ∧ expires timeout (fetch_op w p) = false) →
  (∀ pr, pr ∈ projects →
         is_Some (node_at fs (base ++ path_with_namespace pr))
         ∧ is_git_dir fs (base ++ path_with_namespace pr) = true) →
  main_loop w base b timeout projects (start fs) = (r, s') →
  r = Ret tt
  ∧ submitted (s_trace s') = projects
  ∧ clone_calls (s_trace s') = []
  ∧ (∀ q, (∀ pr, pr ∈ projects →
               ¬ (base ++ path_with_namespace pr) ++ [".git"] `prefix_of` q) →
          s_fs s' !! q = fs !! q).
Proof.
  intros Hb Hfetch Hgit Hrun.
  assert (s_fs s' = fs
          ∧ (∀ i did out, Worked i did out ∈ s_trace s' → out = Ret tt)
          ∧ clone_calls (s_trace s') = []) as (Hfs & Hworked & Hnone).
  { revert Hrun.
    apply (main_loop_preserves w base b timeout projects
             (λ s, s_fs s = fs
                   ∧ (∀ i did out, Worked i did out ∈ s_trace s → out = Ret tt)
                   ∧ clone_calls (s_trace s) = [])).
    - intros i pr results s r0 s0 Hin (Hs & Hwk & Hcc) Hsub.
      destruct (Hgit pr Hin) as [Hex Hg].
      apply submit_project_spec in Hsub
        as [(fs1 & out & q1 & Hc & Ht & -> & ->)|(e & _ & -> & ->)]; [|done].
      cbn [s_fs s_trace]. rewrite Hs in Hc.
      unfold create_directory in Hc.
      rewrite (proj2 (path_exists_true _ _) Hex) in Hc. injection Hc as <-.
      destruct (Hfetch (base ++ path_with_namespace pr)) as [Hf He].
      pose proof (task_fetches w base pr (base ++ path_with_namespace pr)
                    timeout (fresh fs) Hex Hg Hf He) as Hq.
      pose proof (eq_trans (eq_sym Ht) Hq) as Heq. injection Heq as -> ->.
      cbn [p_fs p_log fresh]. split_and!; [done|..].
      + intros i' did out Hin'. rewrite !elem_of_app in Hin'.
        destruct Hin' as [Hin'|Hin']; [by eapply Hwk|].
        apply elem_of_cons in Hin' as [[=]|Hin'].
        apply list_elem_of_singleton in Hin'. by injection Hin' as _ _ ->.
      + rewrite clone_calls_app, Hcc. reflexivity.
    - intros h s r0 s0 (Hs & Hwk & Hcc) Hwait.
      apply wait_keeps in Hwait as [Hfs' Htr]. rewrite Hfs'.
      split_and!; [done|..].
      + intros i did out Hin. destruct Htr as [Htr|Htr]; rewrite Htr in Hin;
          [by eapply Hwk|].
        apply elem_of_app in Hin as [Hin|Hin]; [by eapply Hwk|].
        by apply list_elem_of_singleton in Hin.
      + destruct Htr as [Htr|Htr]; rewrite Htr; [done|].
        by rewrite clone_calls_app, Hcc.
    - split_and!; [done| |done]. intros ? ? ? Hin. by apply elem_of_nil in Hin. }
  apply main_loop_spec in Hrun as (n & l & Htr & Hsub & _ & _ & Hr); [|done].
  simpl in Htr. rewrite Htr in *.
  assert (r = Ret tt) as ->.
  { destruct r as [[]|e| |]; [done| |done|].
    - destruct Hr as (pr & Hpr & Hc). exfalso.
      apply list_elem_of_lookup_2 in Hpr. destruct (Hgit pr Hpr) as [Hex _].
      rewrite Hfs in Hc. unfold create_directory in Hc.
      by rewrite (proj2 (path_exists_true _ _) Hex) in Hc.
    - destruct Hr as (k & did & out & Hin & Hno & _).
      by rewrite (Hworked _ _ _ Hin) in Hno. }
  destruct Hr as (Hall & _). split_and!; [done..|].
  intros q _. by rewrite Hfs.
Qed.

Lemma up_to_date_run_only_fetches_witness :
  (main_loop Example.remote_ok Example.base 10 180 [Example.api]
     (start Example.fs_cloned)).1 = Ret tt
  ∧ clone_calls (s_trace (main_loop Example.remote_ok Example.base 10 180
                            [Example.api] (start Example.fs_cloned)).2) = [].
Proof.
  assert (∀ pr, pr ∈ [Example.api] →
                is_Some (node_at Example.fs_cloned
                           (Example.base ++ path_with_namespace pr))
                ∧ is_git_dir Example.fs_cloned
                    (Example.base ++ path_with_namespace pr) = true) as Hgit.
  { intros pr Hin. apply list_elem_of_singleton in Hin as ->.
    split; [vm_compute; by eexists|vm_compute; reflexivity]. }
  destruct (up_to_date_run_only_fetches Example.remote_ok Example.base 10 180
              [Example.api] Example.fs_cloned _ _ ltac:(lia)
              (λ p, conj eq_refl eq_refl) Hgit (surjective_pairing _))
    as (Hret & _ & Hnone & _).
  by split.
Defined.

(** ** The environment *)

Lemma env_nonempty_empty_unset (env : gmap string string) (k k' : string) :
  env_nonempty (<[k := ""]> env) k' = env_nonempty (delete k env) k'.
Proof.
  unfold env_nonempty. destruct (decide (k = k')) as [->|Hne].
  - by rewrite lookup_insert_eq, lookup_delete_eq.
  - by rewrite lookup_insert_ne, lookup_delete_ne.
Qed.

Lemma main_env (env1 env2 : gmap string string) (gl : gitlab_service)
    (w : world) (abspath : string → path) (script_dir : string) :
  (∀ k, env_nonempty env1 k = env_nonempty env2 k) →
  env1 !! "GL_LOCAL_BASE_PATH" = env2 !! "GL_LOCAL_BASE_PATH" →
  ∀ s, main env1 gl w abspath script_dir s = main env2 gl w abspath script_dir s.
Proof.
  intros Hne Hbase s.
  unfold main, authenticated, gl_local_base_path, env_or_input.
  by rewrite !Hne, Hbase.
Qed.

(** X14. A variable that is set to the empty string counts as not set: for
    each of the four variables the script reads with [or] ([GL_ROOT_PATH],
    [GL_CONFIG_SECTION], [GL_URL] and [GL_TOKEN]) the run is the same with
    the variable empty as with the variable removed, down to the question
    asked on the terminal in its place. *)
Theorem empty_variable_is_unset (env : gmap string string) (gl : gitlab_service)
    (w : world) (abspath : string → path) (script_dir : string) (k : string)
    (s : program) :
  k ∈ ["GL_ROOT_PATH"; "GL_CONFIG_SECTION"; "GL_URL"; "GL_TOKEN"] →
  main (<[k := ""]> env) gl w abspath script_dir s
  = main (delete k env) gl w abspath script_dir s.
Proof.
  intros Hk. apply main_env.
  - intros k'. apply env_nonempty_empty_unset.
  - assert (k ≠ "GL_LOCAL_BASE_PATH") as Hne.
    { intros ->. repeat (apply elem_of_cons in Hk as [Hk|Hk]; [done|]).
      by apply elem_of_nil in Hk. }
    by rewrite lookup_insert_ne, lookup_delete_ne.
Qed.

Lemma empty_variable_is_unset_witness :
  main (<["GL_ROOT_PATH" := ""]> Office.env) Office.gitlab_open Example.remote_ok
    Office.abspath "/opt/sync" (boot [] Example.fs_empty)
  = main (delete "GL_ROOT_PATH" Office.env) Office.gitlab_open Example.remote_ok
      Office.abspath "/opt/sync" (boot [] Example.fs_empty)
  ∧ asked (console (main (<["GL_ROOT_PATH" := ""]> Office.env) Office.gitlab_open
                      Example.remote_ok Office.abspath "/opt/sync"
                      (boot [] Example.fs_empty)).2)
    = [AskRootPath].
Proof.
  split.
  - apply empty_variable_is_unset. left.
  - vm_compute. reflexivity.
Defined.

(** ** Failures of the start-up *)

Lemma asked_app (c1 c2 : list pevent) : asked (c1 ++ c2) = asked c1 ++ asked c2.
Proof. apply omap_app. Qed.

Lemma failure_messages_app (c1 c2 : list pevent) :
  failure_messages (c1 ++ c2) = failure_messages c1 ++ failure_messages c2.
Proof. apply omap_app. Qed.

Lemma step_ret {A} (a : A) : startup_step (ret a).
Proof.
  intros s r s' [= <- <-]. split; [done|]. exists []. rewrite app_nil_r. auto.
Qed.

Lemma step_raise {A} (e : exn) : startup_step (@raise program A e).
Proof.
  intros s r s' [= <- <-]. split; [done|]. exists []. rewrite app_nil_r. auto.
Qed.

Lemma step_bind {A B} (m : M program A) (k : A → M program B) :
  startup_step m → (∀ a, startup_step (k a)) → startup_step (bind m k).
Proof.
  intros Hm Hk s r s'. unfold bind.
  destruct (m s) as [r1 s1] eqn:H1.
  destruct (Hm _ _ _ H1) as (Hrun1 & evs1 & Hc1 & Hin1 & Hmsg1).
  destruct r1 as [a|e| |].
  - intros H2. destruct (Hk a _ _ _ H2) as (Hrun2 & evs2 & Hc2 & Hin2 & Hmsg2).
    destruct Hmsg1 as [Hq1|(? & ? & [=] & _)].
    split; [congruence|]. exists (evs1 ++ evs2). split_and!.
    + by rewrite Hc2, Hc1, app_assoc.
    + rewrite asked_app. intros [H1' H2']%app_eq_nil.
      rewrite Hin2, Hin1; done.
    + rewrite failure_messages_app, Hq1. exact Hmsg2.
  - intros [= <- <-]. split; [done|]. exists evs1. split_and!; try done.
    destruct Hmsg1 as [?|(m0 & e0 & [= ->] & ?)]; [by left|right].
    by exists m0, e0.
  - intros [= <- <-]. split; [done|]. exists evs1. split_and!; try done.
    destruct Hmsg1 as [?|(? & ? & [=] & _)]. by left.
  - intros [= <- <-]. split; [done|]. exists evs1. split_and!; try done.
    destruct Hmsg1 as [?|(? & ? & [=] & _)]. by left.
Qed.

Lemma step_say (e : pevent) :
  (∀ m x, e ≠ Printed m x) → startup_step (say e).
Proof.
  intros He s r s' [= <- <-]. split; [done|]. exists [e]. split_and!; try done.
  left. destruct e; try done. by destruct (He m e).
Qed.

Lemma step_input (q : prompt) : startup_step (input q).
Proof.
  intros s r s'. unfold input, bind, say. cbn [stdin console run].
  destruct (stdin s); intros [= <- <-]; (split; [done|]);
    exists [Asked q]; split_and!; try done; by left.
Qed.

Lemma step_env_or_input (env : gmap string string) (name : string) (q : prompt) :
  startup_step (env_or_input env name q).
Proof.
  unfold env_or_input. destruct (env_nonempty env name).
  - apply step_ret.
  - apply step_input.
Qed.

Lemma step_call {A} (rq : request) (answer : exn + A) : startup_step (call rq answer).
Proof.
  intros s r s'. unfold call, bind, say. cbn [stdin console run].
  destruct answer; intros [= <- <-]; (split; [done|]);
    exists [Requested rq]; split_and!; try done; by left.
Qed.

(** [except <classes>: print(...); sys.exit(1)] around a step. *)
Lemma step_exit_handler {A} (m : M program A) (test : exn → bool) (msg : message) :
  (∀ c, test (SystemExit c) = false) →
  startup_step m →
  startup_step
    (try_except m
       (λ e, if test e then Some (say (Printed msg e) ;; sys_exit 1) else None)).
Proof.
  intros Htest Hm s r s'. unfold try_except.
  destruct (m s) as [r1 s1] eqn:H1.
  destruct (Hm _ _ _ H1) as (Hrun1 & evs1 & Hc1 & Hin1 & Hmsg1).
  destruct r1 as [a|e| |]; try (intros [= <- <-]; split; [done|]; exists evs1; by split_and!).
  destruct (test e) eqn:He; [|intros [= <- <-]; split; [done|]; exists evs1; by split_and!].
  unfold bind, say, sys_exit, raise. cbn [stdin console run].
  intros [= <- <-]. cbn [stdin console run]. split; [done|].
  exists (evs1 ++ [Printed msg e]). split_and!.
  - by rewrite Hc1, app_assoc.
  - rewrite asked_app. by intros [H1' _]%app_eq_nil; apply Hin1.
  - right. exists msg, e. split; [done|]. rewrite failure_messages_app.
    destruct Hmsg1 as [->|(? & ? & [= ->] & _)]; [done|].
    by rewrite Htest in He.
Qed.

Lemma raised_is_SystemExit (cls : string) (c : Z) : raised_is cls (SystemExit c) = false.
Proof. done. Qed.

Lemma step_auth_credentials (gl : gitlab_service) (url token : string) :
  startup_step (auth_with_gitlab_credentials gl url token).
Proof.
  unfold auth_with_gitlab_credentials.
  apply (step_exit_handler _ (raised_is "GitlabAuthenticationError")); [done|].
  apply step_call.
Qed.

Lemma step_auth_config (gl : gitlab_service) (section : string) :
  startup_step (auth_with_gitlab_config gl section).
Proof.
  unfold auth_with_gitlab_config.
  apply (step_exit_handler _
           (λ e, raised_is "GitlabAuthenticationError" e
                 || raised_is "GitlabDataError" e)); [done|].
  apply step_call.
Qed.

Lemma step_get_root_group_path (gl : gitlab_service) (h : handle) (p : string) :
  startup_step (get_root_group_path gl h p).
Proof.
  unfold get_root_group_path.
  apply (step_exit_handler _ (raised_is "GitlabGetError")); [done|].
  apply step_call.
Qed.

Lemma step_authenticated (env : gmap string string) (gl : gitlab_service) :
  startup_step (authenticated env gl).
Proof.
  unfold authenticated. destruct (env_nonempty env "GL_CONFIG_SECTION").
  - apply step_auth_config.
  - apply step_bind; [apply step_env_or_input|]. intros url.
    apply step_bind; [apply step_env_or_input|]. intros token.
    apply step_auth_credentials.
Qed.

Lemma step_catalog (gl : gitlab_service) (h : handle) (p : string) :
  startup_step (catalog gl h p).
Proof.
  unfold catalog.
  apply (step_exit_handler _
           (λ e, raised_is "GitlabGetError" e || raised_is "GitlabListError" e));
    [done|].
  apply step_bind; [apply step_get_root_group_path|]. intros g. apply step_call.
Qed.

Lemma in_run_keeps {A} (m : M sched A) (s s' : program) (r : outcome A) :
  in_run m s = (r, s') →
  stdin s' = stdin s ∧ console s' = console s ∧ m (run s) = (r, run s').
Proof.
  unfold in_run. destruct (m (run s)) as [r1 q]. by intros [= <- <-].
Qed.

(** The start-up and the loop, one after the other. *)
Lemma main_startup (env : gmap string string) (gl : gitlab_service) (w : world)
    (abspath : string → path) (script_dir : string) (s s' : program)
    (r : outcome unit) :
  main env gl w abspath script_dir s = (r, s') →
  ∃ s0 evs,
    console s0 = console s ++ evs
    ∧ run s0 = run s
    ∧ (asked evs = [] → stdin s0 = stdin s)
    ∧ ((failure_messages evs = []
        ∧ ∃ projects,
            in_run (main_loop w (gl_local_base_path env abspath script_dir)
                      gl_batch gl_timeout projects) s0 = (r, s'))
       ∨ (s' = s0 ∧ (∀ a, r ≠ Ret a)
          ∧ (failure_messages evs = []
             ∨ ∃ m0 e, r = Raise (SystemExit 1)
                       ∧ failure_messages evs = [(m0, e)]))).
Proof.
  intros Hmain.
  set (startup := bind (env_or_input env "GL_ROOT_PATH" AskRootPath)
                    (λ root, bind (authenticated env gl)
                               (λ h, catalog gl h root))).
  assert (startup_step startup) as Hstep.
  { apply step_bind; [apply step_env_or_input|]. intros root.
    apply step_bind; [apply step_authenticated|]. intros h. apply step_catalog. }
  destruct (startup s) as [r0 s0] eqn:H0.
  destruct (Hstep _ _ _ H0) as (Hrun & evs & Hc & Hin & Hmsg).
  exists s0, evs. split_and!; try done.
  revert Hmain H0. unfold main, startup, bind.
  destruct (env_or_input env "GL_ROOT_PATH" AskRootPath s) as [[root|e| |] s1];
    try (intros [= <- <-] [= <- <-]; right; split_and!; [done|done|];
         destruct Hmsg as [?|(m0 & e0 & Heq & ?)];
         [by left|right; exists m0, e0; by simplify_eq]).
  destruct (authenticated env gl s1) as [[h|e| |] s2];
    try (intros [= <- <-] [= <- <-]; right; split_and!; [done|done|];
         destruct Hmsg as [?|(m0 & e0 & Heq & ?)];
         [by left|right; exists m0, e0; by simplify_eq]).
  destruct (catalog gl h root s2) as [[projects|e| |] s3];
    try (intros [= <- <-] [= <- <-]; right; split_and!; [done|done|];
         destruct Hmsg as [?|(m0 & e0 & Heq & ?)];
         [by left|right; exists m0, e0; by simplify_eq]).
  intros Hloop [= <- <-]. left.
  destruct Hmsg as [?|(m0 & e0 & [=] & ?)]. split; [done|]. by exists projects.
Qed.

(** X15. A failure message ends the run before any work is done: a run of
    the script prints at most one of its four failure messages, and when
    it prints one it exits with status 1 and the batch loop has not
    started: nothing was handed to the pool and the filesystem is as it
    was. *)
Theorem startup_failure_is_fatal (env : gmap string string) (gl : gitlab_service)
    (w : world) (abspath : string → path) (script_dir : string)
    (lines : list string) (fs : fsys) (r : outcome unit) (s' : program) :
  main env gl w abspath script_dir (boot lines fs) = (r, s') →
  failure_messages (console s') = []
  ∨ ∃ m e, failure_messages (console s') = [(m, e)]
           ∧ r = Raise (SystemExit 1)
           ∧ run s' = start fs.
Proof.
  intros Hmain.
  apply main_startup in Hmain
    as (s0 & evs & Hc & Hrun & _ & [[Hq [projects Hloop]]|(-> & _ & Hmsg)]).
  - left. apply in_run_keeps in Hloop as (_ & -> & _).
    by rewrite Hc.
  - rewrite Hc. cbn [boot console app].
    destruct Hmsg as [?|(m0 & e0 & -> & ?)]; [by left|right].
    exists m0, e0. by rewrite Hrun.
Qed.

Lemma startup_failure_is_fatal_witness :
  (main Office.env Office.gitlab_locked Example.remote_ok Office.abspath
     "/opt/sync" (boot [] Example.fs_empty)).1 = Raise (SystemExit 1).
Proof.
  destruct (startup_failure_is_fatal Office.env Office.gitlab_locked
              Example.remote_ok Office.abspath "/opt/sync" [] Example.fs_empty
              _ _ (surjective_pairing _)) as [Hnone|(m & e & _ & Hexit & _)].
  - vm_compute in Hnone. discriminate Hnone.
  - exact Hexit.
Defined.

(** ** Runs that ask nothing *)

Lemma quiet_ret {A} (a : A) : never_asks (ret a).
Proof. by intros s r s' [= <- <-]. Qed.

Lemma quiet_bind {A B} (m : M program A) (k : A → M program B) :
  never_asks m → (∀ a, never_asks (k a)) → never_asks (bind m k).
Proof.
  intros Hm Hk s r s'. unfold bind. destruct (m s) as [r1 s1] eqn:H1.
  destruct (Hm _ _ _ H1) as [Hs Ha].
  destruct r1 as [a|e| |]; try by intros [= <- <-].
  intros H2. destruct (Hk a _ _ _ H2) as [Hs' Ha']. split; congruence.
Qed.

Lemma quiet_try {A} (m : M program A) (h : exn → option (M program A)) :
  never_asks m → (∀ e k, h e = Some k → never_asks k) →
  never_asks (try_except m h).
Proof.
  intros Hm Hh s r s'. unfold try_except. destruct (m s) as [r1 s1] eqn:H1.
  destruct (Hm _ _ _ H1) as [Hs Ha].
  destruct r1 as [a|e| |]; try by intros [= <- <-].
  destruct (h e) as [k|] eqn:He; [|by intros [= <- <-]].
  intros H2. destruct (Hh e k He _ _ _ H2) as [Hs' Ha']. split; congruence.
Qed.

Lemma quiet_say (e : pevent) : (∀ q, e ≠ Asked q) → never_asks (say e).
Proof.
  intros He s r s' [= <- <-]. split; [done|]. cbn [console].
  rewrite asked_app. destruct e; try by rewrite app_nil_r. by destruct (He q).
Qed.

Lemma quiet_call {A} (rq : request) (answer : exn + A) : never_asks (call rq answer).
Proof.
  unfold call. apply quiet_bind; [by apply quiet_say|]. intros [].
  intros s r s'. by destruct answer; intros [= <- <-].
Qed.

Lemma quiet_exit {A} (msg : message) (e : exn) :
  never_asks (say (Printed msg e) ;; @sys_exit program A 1).
Proof.
  apply quiet_bind; [by apply quiet_say|]. intros []. by intros s r s' [= <- <-].
Qed.

Lemma quiet_auth_credentials (gl : gitlab_service) (url token : string) :
  never_asks (auth_with_gitlab_credentials gl url token).
Proof.
  apply quiet_try; [apply quiet_call|]. intros e k.
  destruct (raised_is _ e); [|done]. intros [= <-]. apply quiet_exit.
Qed.

Lemma quiet_auth_config (gl : gitlab_service) (section : string) :
  never_asks (auth_with_gitlab_config gl section).
Proof.
  apply quiet_try; [apply quiet_call|]. intros e k.
  destruct (_ || _); [|done]. intros [= <-]. apply quiet_exit.
Qed.

Lemma quiet_catalog (gl : gitlab_service) (h : handle) (p : string) :
  never_asks (catalog gl h p).
Proof.
  apply quiet_try.
  - apply quiet_bind; [|intros g; apply quiet_call].
    apply quiet_try; [apply quiet_call|]. intros e k.
    destruct (raised_is _ e); [|done]. intros [= <-]. apply quiet_exit.
  - intros e k. destruct (_ || _); [|done]. intros [= <-]. apply quiet_exit.
Qed.

Lemma quiet_in_run {A} (m : M sched A) : never_asks (in_run m).
Proof.
  intros s r s' Hrun. apply in_run_keeps in Hrun as (-> & -> & _). done.
Qed.

(** X16. With the group, and either the section of the configuration file
    or both the URL and the token, given in the environment, the script
    asks nothing on the terminal and reads nothing from it, however the
    run ends. *)
Theorem complete_environment_never_prompts (env : gmap string string)
    (gl : gitlab_service) (w : world) (abspath : string → path)
    (script_dir : string) (s s' : program) (r : outcome unit) :
  is_Some (env_nonempty env "GL_ROOT_PATH") →
  is_Some (env_nonempty env "GL_CONFIG_SECTION")
  ∨ (is_Some (env_nonempty env "GL_URL") ∧ is_Some (env_nonempty env "GL_TOKEN")) →
  main env gl w abspath script_dir s = (r, s') →
  stdin s' = stdin s ∧ asked (console s') = asked (console s).
Proof.
  intros [root Hroot] Hauth.
  assert (never_asks (main env gl w abspath script_dir)) as Hq; [|by apply Hq].
  unfold main, env_or_input. rewrite Hroot.
  apply quiet_bind; [apply quiet_ret|]. intros root'.
  apply quiet_bind; [|intros h; apply quiet_bind;
                               [apply quiet_catalog|intros ?; apply quiet_in_run]].
  unfold authenticated, env_or_input.
  destruct (env_nonempty env "GL_CONFIG_SECTION") as [sec|].
  - apply quiet_auth_config.
  - destruct Hauth as [[? [=]]|[[url ->] [token ->]]].
    apply quiet_bind; [apply quiet_ret|]. intros ?.
    apply quiet_bind; [apply quiet_ret|]. intros ?.
    apply quiet_auth_credentials.
Qed.

Lemma complete_environment_never_prompts_witness :
  stdin (main Office.env Office.gitlab_open Example.remote_ok Office.abspath
           "/opt/sync" (boot ["yes"] Example.fs_empty)).2 = ["yes"]
  ∧ asked (console (main Office.env Office.gitlab_open Example.remote_ok
                      Office.abspath "/opt/sync"
                      (boot ["yes"] Example.fs_empty)).2) = [].
Proof.
  apply (complete_environment_never_prompts Office.env Office.gitlab_open
           Example.remote_ok Office.abspath "/opt/sync"
           (boot ["yes"] Example.fs_empty) _ _
           (ex_intro _ "acme" eq_refl)
           (or_introl (ex_intro _ "work" eq_refl))
           (surjective_pairing _)).
Defined.

Lemma env_nonempty_insert_ne (env : gmap string string) (k k' v : string) :
  k ≠ k' → env_nonempty (<[k := v]> env) k' = env_nonempty env k'.
Proof. intros Hne. unfold env_nonempty. by rewrite lookup_insert_ne. Qed.

(** X17. When [GL_CONFIG_SECTION] is set, [GL_URL] and [GL_TOKEN] are not
    looked at: whatever they are set to, the run is the same. *)
Theorem config_section_overrides_credentials (env : gmap string string)
    (gl : gitlab_service) (w : world) (abspath : string → path)
    (script_dir : string) (url token : string) (s : program) :
  is_Some (env_nonempty env "GL_CONFIG_SECTION") →
  main (<["GL_URL" := url]> (<["GL_TOKEN" := token]> env)) gl w abspath script_dir s
  = main env gl w abspath script_dir s.
Proof.
  intros [sec Hsec].
  unfold main, authenticated, gl_local_base_path, env_or_input.
  rewrite !(env_nonempty_insert_ne _ _ "GL_ROOT_PATH") by done.
  rewrite !(env_nonempty_insert_ne _ _ "GL_CONFIG_SECTION") by done.
  rewrite !lookup_insert_ne by done. by rewrite Hsec.
Qed.

Lemma config_section_overrides_credentials_witness :
  main (<["GL_URL" := "https://gitlab.example"]> (<["GL_TOKEN" := "secret"]> Office.env))
    Office.gitlab_open Example.remote_ok Office.abspath "/opt/sync"
    (boot [] Example.fs_empty)
  = main Office.env Office.gitlab_open Example.remote_ok Office.abspath
      "/opt/sync" (boot [] Example.fs_empty).
Proof.
  apply config_section_overrides_credentials. by exists "work".
Defined.

(** ** The order inside a batch *)

Lemma submitted_ids_app (l1 l2 : list event) :
  submitted_ids (l1 ++ l2) = submitted_ids l1 ++ submitted_ids l2.
Proof. apply omap_app. Qed.

Lemma submit_batch_ids (w : world) (base : path) (timeout : nat)
    (batch : list project) :
  ∀ i results s r s',
    submit_batch w base timeout i batch results s = (r, s') →
    ∃ n l, s_trace s' = s_trace s ++ l
           ∧ submitted_ids l = seq i n
           ∧ length (submitted l) = n.
Proof.
  induction batch as [|pr rest IH]; intros i results s r s' Hrun.
  - injection Hrun as <- <-. exists 0, []. by rewrite app_nil_r.
  - cbn [submit_batch] in Hrun. unfold bind in Hrun.
    destruct (submit_project w base timeout i pr results s) as [r1 s1] eqn:H1.
    apply submit_project_spec in H1
      as [(fs1 & out & q & Hc & Ht & -> & ->)|(e & Hc & -> & ->)].
    + apply IH in Hrun as (n & l & Htr & Hids & Hlen). cbn [s_trace] in Htr.
      exists (S n), ([Submitted i pr; Worked i (p_log q) out] ++ l). split_and!.
      * by rewrite Htr, <- app_assoc.
      * rewrite submitted_ids_app, Hids. done.
      * rewrite submitted_app, length_app, Hlen. done.
    + injection Hrun as <- <-. exists 0, []. by rewrite app_nil_r.
Qed.

(** One batch, in two parts: the submissions, then the waits. *)
Lemma run_batch_order (w : world) (base : path) (b timeout : nat)
    (projects : list project) (i : nat) (s s' : sched) (r : outcome unit) :
  run_batch w base b timeout projects i s = (r, s') →
  ∃ l1 l2,
    s_trace s' = s_trace s ++ l1 ++ l2
    ∧ Forall (λ e, ∀ k, e ≠ Waited k) l1
    ∧ Forall (λ e, i ≤ ev_index e < i + length (take b (drop i projects)))
        (l1 ++ l2)
    ∧ (l2 = [] ∨ submitted_ids l1 = seq i (length (take b (drop i projects))))
    ∧ (∀ e, r = Raise e → l2 = []).
Proof.
  unfold run_batch, bind. set (batch := take b (drop i projects)).
  destruct (submit_batch w base timeout i batch [] s) as [r1 s1] eqn:H1.
  destruct (submit_batch_ids _ _ _ _ _ _ _ _ _ H1) as (n' & l' & Htr' & Hids & Hlen).
  apply submit_batch_spec in H1 as (n & l & Hn & Htr & Hsub & Hall & Hr).
  assert (l' = l) as -> by (eapply app_inv_head; by rewrite <- Htr, <- Htr').
  assert (n' = n) as ->.
  { rewrite <- Hlen, Hsub, length_take. lia. }
  assert (Forall (λ e, ∀ k, e ≠ Waited k) l) as Hnw.
  { eapply Forall_impl; [exact Hall|]. by intros e [_ ?]. }
  assert (Forall (λ e, i ≤ ev_index e < i + length batch) l) as Hrange.
  { eapply Forall_impl; [exact Hall|]. simpl. intros e [? _]. lia. }
  destruct r1 as [hs'|e| |]; try done.
  - destruct Hr as (-> & hs & -> & Hidx & _). cbn [app].
    intros Hw. apply wait_all_spec in Hw as (_ & m & Hm & Htrw & Hrw).
    assert (length hs = length batch) as Hlh.
    { rewrite <- (length_fmap fst hs), Hidx. apply length_seq. }
    assert ((take m hs).*1 = seq i m) as Htake.
    { rewrite fmap_take, Hidx, take_seq. f_equal. lia. }
    rewrite Htake in Htrw.
    exists l, (Waited <$> seq i m). split_and!.
    + by rewrite Htrw, Htr, <- app_assoc.
    + done.
    + apply Forall_app. split; [done|].
      apply Forall_fmap, Forall_forall. intros k Hk.
      apply elem_of_seq in Hk. simpl. lia.
    + by right.
    + intros e ->. by destruct Hrw.
  - intros [= <- <-]. exists l, []. rewrite !app_nil_r. split_and!; auto.
Qed.

Lemma elem_of_submitted_ids (l : list event) (j : nat) :
  j ∈ submitted_ids l → ∃ pos pj, l !! pos = Some (Submitted j pj).
Proof.
  unfold submitted_ids. intros Hin.
  apply list_elem_of_omap in Hin as (e & Hin & He).
  apply list_elem_of_lookup in Hin as [pos Hpos].
  destruct e as [k pk| |]; try done. injection He as ->. by exists pos, pk.
Qed.

(** The outer loop: a wait comes after every submission of its batch. *)
Lemma for_each_order (w : world) (base : path) (b timeout : nat)
    (projects : list project) (m : nat) :
  0 < b →
  ∀ (k0 : nat) (s s' : sched) (r : outcome unit),
    for_each ((λ k, k * b) <$> seq k0 m) (run_batch w base b timeout projects) s
    = (r, s') →
    ∃ l,
      s_trace s' = s_trace s ++ l
      ∧ ∀ pos i j,
          l !! pos = Some (Waited i) →
          j < length projects → j / b = i / b →
          ∃ pos' pj, pos' < pos ∧ l !! pos' = Some (Submitted j pj).
Proof.
  intros Hb. induction m as [|m IH]; intros k0 s s' r Hrun.
  - injection Hrun as <- <-. exists []. rewrite app_nil_r. split; [done|].
    intros pos i j Hpos. by rewrite lookup_nil in Hpos.
  - cbn [seq fmap list_fmap for_each] in Hrun. unfold bind in Hrun.
    destruct (run_batch w base b timeout projects (k0 * b) s) as [r1 s1] eqn:H1.
    apply run_batch_order in H1
      as (l1 & l2 & Htr1 & Hnw & Hrange & Hids & Hraise).
    set (len := length (take b (drop (k0 * b) projects))) in *.
    assert (len = b `min` (length projects - k0 * b)) as Hlen.
    { unfold len. by rewrite length_take, length_drop. }
    assert (∀ pos i j,
              (l1 ++ l2) !! pos = Some (Waited i) →
              j < length projects → j / b = i / b →
              ∃ pos' pj, pos' < pos ∧ (l1 ++ l2) !! pos' = Some (Submitted j pj))
      as Hfirst.
    { intros pos i j Hpos Hj Hdiv.
      rewrite Forall_forall in Hrange, Hnw.
      pose proof (Hrange _ (list_elem_of_lookup_2 _ _ _ Hpos)) as Hi.
      simpl in Hi.
      apply lookup_app_Some in Hpos as [Hpos|[Hge Hpos]].
      { exfalso. by eapply (Hnw _ (list_elem_of_lookup_2 _ _ _ Hpos)). }
      destruct Hids as [->|Hids]; [by rewrite lookup_nil in Hpos|].
      assert (i / b = k0) as Hik by (apply div_block; lia).
      assert (k0 * b ≤ j < k0 * b + b) as Hjb.
      { pose proof (Nat.div_mod_eq j b) as Hdm.
        pose proof (Nat.mod_upper_bound j b ltac:(lia)) as Hmod.
        rewrite Hdiv, Hik in Hdm. nia. }
      assert (j ∈ submitted_ids l1) as Hin.
      { rewrite Hids. apply elem_of_seq. lia. }
      apply elem_of_submitted_ids in Hin as (pos' & pj & Hpos').
      exists pos', pj. split.
      - apply lookup_lt_Some in Hpos'. lia.
      - by apply lookup_app_l_Some. }
    destruct r1 as [[]|e| |]; [|injection Hrun as <- <-..].
    + apply IH in Hrun as (l3 & Htr3 & Horder3).
      exists ((l1 ++ l2) ++ l3). split.
      * by rewrite Htr3, Htr1, <- !app_assoc.
      * intros pos i j Hpos Hj Hdiv.
        apply lookup_app_Some in Hpos as [Hpos|[Hge Hpos]].
        -- destruct (Hfirst _ _ _ Hpos Hj Hdiv) as (pos' & pj & Hlt & Hpos').
           exists pos', pj. split; [done|]. by apply lookup_app_l_Some.
        -- destruct (Horder3 _ _ _ Hpos Hj Hdiv) as (pos' & pj & Hlt & Hpos').
           exists (length (l1 ++ l2) + pos'), pj. split; [lia|].
           rewrite lookup_app_r by lia.
           by replace (length (l1 ++ l2) + pos' - length (l1 ++ l2)) with pos'
             by lia.
    + exists (l1 ++ l2). by split.
    + exists (l1 ++ l2). by split.
    + exists (l1 ++ l2). by split.
Qed.

(** X18. Inside a batch every submission comes before every wait: whenever
    the trace has [Waited i] at some position and project [j] lies in the
    same batch ([j / b = i / b]), [Submitted j] stands before it. *)
Theorem batch_submitted_before_first_wait (w : world) (base : path)
    (b timeout : nat) (projects : list project) (fs : fsys)
    (r : outcome unit) (s' : sched) (pos i j : nat) :
  main_loop w base b timeout projects (start fs) = (r, s') →
  s_trace s' !! pos = Some (Waited i) →
  j < length projects → j / b = i / b →
  ∃ pos' pj, pos' < pos ∧ s_trace s' !! pos' = Some (Submitted j pj).
Proof.
  unfold main_loop, range_step. destruct (b =? 0) eqn:Hb0.
  - intros [= <- <-] Hpos. cbn [start s_trace] in Hpos.
    by rewrite lookup_nil in Hpos.
  - apply Nat.eqb_neq in Hb0. intros Hrun.
    apply for_each_order in Hrun as (l & Htr & Horder); [|lia].
    cbn [start s_trace app] in Htr. rewrite Htr. apply Horder.
Qed.

Lemma batch_submitted_before_first_wait_witness :
  ∃ pos' pj,
    pos' < 4
    ∧ s_trace (main_loop Example.remote_ok Example.base 10 180
                 [Example.api; Example.infra] (start Example.fs_empty)).2
        !! pos' = Some (Submitted 1 pj).
Proof.
  eapply (batch_submitted_before_first_wait Example.remote_ok Example.base 10
            180 [Example.api; Example.infra] Example.fs_empty _ _ 4 0 1).
  - apply surjective_pairing.
  - vm_compute. reflexivity.
  - simpl. lia.
  - reflexivity.
Defined.

Lemma requests_app (c1 c2 : list pevent) :
  requests (c1 ++ c2) = requests c1 ++ requests c2.
Proof. apply omap_app. Qed.

(** ** A run in which nothing goes wrong, from the first line on *)

(** The handle the script gets when nothing has to be asked. *)
Lemma authenticated_accepted (env : gmap string string) (gl : gitlab_service)
    (s : program) :
  is_Some (env_nonempty env "GL_CONFIG_SECTION")
  ∨ (is_Some (env_nonempty env "GL_URL") ∧ is_Some (env_nonempty env "GL_TOKEN")) →
  (∀ h, authenticate gl h = None) →
  ∃ h, authenticated env gl s
       = (Ret h, {| stdin := stdin s;
                    console := console s ++ [Requested (Authenticate h)];
                    run := run s |}).
Proof.
  intros Hcred Hauth. unfold authenticated, env_or_input.
  destruct (env_nonempty env "GL_CONFIG_SECTION") as [sec|].
  - exists (ByConfig sec).
    unfold auth_with_gitlab_config, connect, call, try_except, bind, say.
    by rewrite Hauth.
  - destruct Hcred as [[? [=]]|[[url ->] [token ->]]].
    exists (ByCredentials url token).
    unfold auth_with_gitlab_credentials, connect, call, try_except, bind, say, ret.
    by rewrite Hauth.
Qed.

Lemma catalog_answered (gl : gitlab_service) (h : handle) (root g : string)
    (projects : list project) (s : program) :
  groups_get gl h root = inr g → projects_list gl h g = inr projects →
  catalog gl h root s
  = (Ret projects,
     {| stdin := stdin s;
        console := console s ++ [Requested (GroupsGet h root);
                                 Requested (ProjectsList h g)];
        run := run s |}).
Proof.
  intros Hg Hl.
  unfold catalog, get_root_group_path, call, try_except, bind, say.
  rewrite Hg. cbn. rewrite Hl. cbn. by rewrite <- app_assoc.
Qed.

Lemma main_sound (env : gmap string string)
    (gl : gitlab_service) (w : world) (abspath : string → path)
    (script_dir : string) (lines : list string) (fs : fsys)
    (root g : string) (projects : list project)
    (r : outcome unit) (s' : program) :
  env_nonempty env "GL_ROOT_PATH" = Some root →
  is_Some (env_nonempty env "GL_CONFIG_SECTION")
  ∨ (is_Some (env_nonempty env "GL_URL") ∧ is_Some (env_nonempty env "GL_TOKEN")) →
  (∀ h, authenticate gl h = None) →
  (∀ h, groups_get gl h root = inr g) →
  (∀ h, projects_list gl h g = inr projects) →
  remote_sound w gl_timeout → all_writable fs →
  main env gl w abspath script_dir (boot lines fs) = (r, s') →
  r = Ret tt
  ∧ stdin s' = lines
  ∧ failure_messages (console s') = []
  ∧ submitted (s_trace (run s')) = projects
  ∧ ∀ pr, pr ∈ projects →
          is_git_dir (s_fs (run s'))
            (gl_local_base_path env abspath script_dir ++ path_with_namespace pr)
          = true.
Proof.
  intros Hroot Hcred Hauth Hg Hl Hsound Hw.
  unfold main, env_or_input. rewrite Hroot. unfold bind at 1, ret at 1.
  unfold bind at 1.
  destruct (authenticated_accepted env gl (boot lines fs) Hcred Hauth) as [h ->].
  unfold bind at 1. rewrite (catalog_answered gl h root g projects) by done.
  intros Hloop. apply in_run_keeps in Hloop as (Hin & Hc & Hloop).
  cbn [stdin console run boot app] in *.
  apply main_loop_sound in Hloop as (-> & Hsub & Hgit & _);
    [|unfold gl_batch; lia|done..].
  rewrite Hc. by split_and!.
Qed.

(** X19. From the first line to the end of the loop: when the environment
    names the group and either a section of the configuration file or the
    URL and the token, GitLab accepts the handle and answers both
    requests, every fetch and clone succeeds within the [gl_timeout] of
    180 seconds and every directory may be written to, the script ends
    normally, has read nothing from the terminal and printed no failure
    message, has handed the listed projects to the pool in the order of
    the list, and every one of them has a working copy under
    [gl_local_base_path]. *)
Theorem sound_main_mirrors_catalog (env : gmap string string)
    (gl : gitlab_service) (w : world) (abspath : string → path)
    (script_dir : string) (lines : list string) (fs : fsys)
    (root g : string) (projects : list project)
    (r : outcome unit) (s' : program) :
  env_nonempty env "GL_ROOT_PATH" = Some root →
  is_Some (env_nonempty env "GL_CONFIG_SECTION")
  ∨ (is_Some (env_nonempty env "GL_URL") ∧ is_Some (env_nonempty env "GL_TOKEN")) →
  (∀ h, authenticate gl h = None) →
  (∀ h, groups_get gl h root = inr g) →
  (∀ h, projects_list gl h g = inr projects) →
  remote_sound w gl_timeout → all_writable fs →
  main env gl w abspath script_dir (boot lines fs) = (r, s') →
  r = Ret tt
  ∧ stdin s' = lines
  ∧ failure_messages (console s') = []
  ∧ submitted (s_trace (run s')) = projects
  ∧ ∀ pr, pr ∈ projects →
          is_git_dir (s_fs (run s'))
            (gl_local_base_path env abspath script_dir ++ path_with_namespace pr)
          = true.
Proof. apply main_sound. Qed.

Lemma sound_main_mirrors_catalog_witness :
  (main Office.env Office.gitlab_open Example.remote_ok Office.abspath
     "/opt/sync" (boot [] Example.fs_empty)).1 = Ret tt.
Proof.
  destruct (sound_main_mirrors_catalog Office.env Office.gitlab_open
              Example.remote_ok Office.abspath "/opt/sync" [] Example.fs_empty
              "acme" "acme" [Example.api; Example.infra] _ _
              eq_refl (or_introl (ex_intro _ "work" eq_refl))
              (λ _, eq_refl) (λ _, eq_refl) (λ _, eq_refl)
              remote_ok_sound fs_empty_all_writable (surjective_pairing _))
    as [Hret _].
  exact Hret.
Defined.

(** ** What the start-up shows of its failures and its requests *)

Lemma env_or_input_spec (env : gmap string string) (name : string) (q : prompt)
    (s s1 : program) (r : outcome string) :
  env_or_input env name q s = (r, s1) →
  run s1 = run s
  ∧ ∃ evs, console s1 = console s ++ evs
           ∧ requests evs = [] ∧ ∀ m e, Printed m e ∉ evs.
Proof.
  unfold env_or_input, input, bind, say, ret.
  destruct (env_nonempty env name) as [v|].
  - intros [= <- <-]. split; [done|]. exists []. rewrite app_nil_r.
    split_and!; [done..|]. intros m e Hin. by apply elem_of_nil in Hin.
  - cbn [stdin console run]. destruct (stdin s) as [|line rest];
      intros [= <- <-]; (split; [done|]); exists [Asked q];
      (split_and!; [done..|]); intros m e Hin;
      by apply list_elem_of_singleton in Hin.
Qed.

Lemma connect_spec (gl : gitlab_service) (h : handle) (test : exn → bool)
    (msg : message) (s s1 : program) (r : outcome handle) :
  (∀ e, authenticate gl h = Some e → test e = true → cause gl msg e) →
  try_except (connect gl h)
    (λ e, if test e then Some (say (Printed msg e) ;; sys_exit 1) else None) s
  = (r, s1) →
  run s1 = run s
  ∧ ∃ evs,
      console s1 = console s ++ evs
      ∧ (∀ m e, Printed m e ∈ evs → cause gl m e)
      ∧ ((r = Ret h ∧ authenticate gl h = None ∧ evs = [Requested (Authenticate h)])
         ∨ (∀ a, r ≠ Ret a)).
Proof.
  intros Hmsg.
  unfold try_except, connect, call, sys_exit, raise, bind, say.
  cbn [stdin console run].
  destruct (authenticate gl h) as [e|] eqn:Hauth.
  - destruct (test e) eqn:Htest; intros [= <- <-]; (split; [done|]);
      cbn [console].
    + exists [Requested (Authenticate h); Printed msg e].
      rewrite <- app_assoc. split_and!; [done| |by right].
      intros m0 e0 Hin. apply elem_of_cons in Hin as [[=]|Hin].
      apply list_elem_of_singleton in Hin. injection Hin as -> ->. by apply Hmsg.
    + exists [Requested (Authenticate h)]. split_and!; [done| |by right].
      intros m0 e0 Hin. by apply list_elem_of_singleton in Hin.
  - intros [= <- <-]. split; [done|]. cbn [console].
    exists [Requested (Authenticate h)]. split_and!; [done| |by left].
    intros m0 e0 Hin. by apply list_elem_of_singleton in Hin.
Qed.

Lemma authenticated_spec (env : gmap string string) (gl : gitlab_service)
    (s s1 : program) (r : outcome handle) :
  authenticated env gl s = (r, s1) →
  run s1 = run s
  ∧ ∃ evs,
      console s1 = console s ++ evs
      ∧ (∀ m e, Printed m e ∈ evs → cause gl m e)
      ∧ ((∃ h, r = Ret h ∧ authenticate gl h = None
               ∧ requests evs = [Authenticate h])
         ∨ (∀ a, r ≠ Ret a)).
Proof.
  unfold authenticated.
  destruct (env_nonempty env "GL_CONFIG_SECTION") as [sec|].
  { unfold auth_with_gitlab_config. intros H3.
    apply connect_spec in H3 as (Hrun3 & evs3 & Hc3 & Hp3 & Hr3);
      [|intros e He Ht; split; [done|by exists sec]].
    split; [done|]. exists evs3. split_and!; [done..|].
    destruct Hr3 as [(-> & Hauth & ->)|Hr3]; [left|by right]. by exists (ByConfig sec). }
  unfold bind.
  destruct (env_or_input env "GL_URL" AskUrl s) as [r1 s2] eqn:H1.
  apply env_or_input_spec in H1 as (Hrun1 & evs1 & Hc1 & Hrq1 & Hp1).
  destruct r1 as [url|e| |];
    [|intros [= <- <-]; (split; [done|]); exists evs1; split_and!;
        [done|intros m0 e0 Hin; by apply Hp1 in Hin|by right]..].
  destruct (env_or_input env "GL_TOKEN" AskToken s2) as [r2 s3] eqn:H2.
  apply env_or_input_spec in H2 as (Hrun2 & evs2 & Hc2 & Hrq2 & Hp2).
  destruct r2 as [token|e| |];
    [|intros [= <- <-]; (split; [congruence|]); exists (evs1 ++ evs2);
        rewrite Hc2, Hc1, <- app_assoc; split_and!;
        [done
        |intros m0 e0 [Hin|Hin]%elem_of_app; [by apply Hp1 in Hin|by apply Hp2 in Hin]
        |by right]..].
  unfold auth_with_gitlab_credentials. intros H3.
  apply connect_spec in H3 as (Hrun3 & evs3 & Hc3 & Hp3 & Hr3);
    [|intros e He Ht; split; [done|by exists url, token]].
  split; [congruence|]. exists (evs1 ++ evs2 ++ evs3).
  rewrite Hc3, Hc2, Hc1, <- !app_assoc. split_and!; [done| |].
  - intros m0 e0 Hin. rewrite !elem_of_app in Hin.
    destruct Hin as [Hin|[Hin|Hin]];
      [by apply Hp1 in Hin|by apply Hp2 in Hin|by apply Hp3].
  - destruct Hr3 as [(-> & Hauth & ->)|Hr3]; [left|by right].
    exists (ByCredentials url token). rewrite !requests_app, Hrq1, Hrq2. done.
Qed.

Lemma catalog_spec (gl : gitlab_service) (h : handle) (root : string)
    (s s1 : program) (r : outcome (list project)) :
  catalog gl h root s = (r, s1) →
  run s1 = run s
  ∧ ∃ evs,
      console s1 = console s ++ evs
      ∧ (∀ m e, Printed m e ∈ evs → cause gl m e)
      ∧ ((∃ g projects,
            r = Ret projects ∧ groups_get gl h root = inr g
            ∧ projects_list gl h g = inr projects
            ∧ evs = [Requested (GroupsGet h root); Requested (ProjectsList h g)])
         ∨ (∀ a, r ≠ Ret a)).
Proof.
  unfold catalog, get_root_group_path, call, try_except, sys_exit, raise, bind,
    say. cbn [stdin console run].
  destruct (groups_get gl h root) as [e|g] eqn:Hg.
  - destruct (raised_is "GitlabGetError" e) eqn:Hget; cbn [stdin console run].
    + rewrite raised_is_SystemExit. cbn. intros [= <- <-]. split; [done|].
      cbn [console]. eexists. rewrite <- app_assoc. split_and!; [done| |by right].
      intros m0 e0 Hin. apply elem_of_cons in Hin as [[=]|Hin].
      apply list_elem_of_singleton in Hin. injection Hin as -> ->.
      split; [done|by exists h, root].
    + rewrite Hget. cbn. destruct (raised_is "GitlabListError" e);
        intros [= <- <-]; (split; [done|]); cbn [console]; eexists;
        rewrite <- ?app_assoc; (split_and!; [done| |by right]);
        intros m0 e0 Hin; apply elem_of_cons in Hin as [[=]|Hin].
      * apply list_elem_of_singleton in Hin. injection Hin as -> ->.
        right. split; [done|by exists h, root].
      * by apply elem_of_nil in Hin.
  - cbn [stdin console run].
    destruct (projects_list gl h g) as [e|projects] eqn:Hl.
    + destruct (raised_is "GitlabGetError" e || raised_is "GitlabListError" e);
        intros [= <- <-]; (split; [done|]); cbn [console]; eexists;
        rewrite <- ?app_assoc; (split_and!; [done| |by right]);
        intros m0 e0 Hin; apply elem_of_cons in Hin as [[=]|Hin];
        apply elem_of_cons in Hin as [[=]|Hin].
      * apply list_elem_of_singleton in Hin. injection Hin as -> ->.
        left. by exists h, g.
      * by apply elem_of_nil in Hin.
    + intros [= <- <-]. split; [done|]. cbn [console]. eexists.
      rewrite <- app_assoc. split_and!; [done| |left; by exists g, projects].
      intros m0 e0 Hin. apply elem_of_cons in Hin as [[=]|Hin].
      by apply list_elem_of_singleton in Hin.
Qed.

(** Every way [__main__] can go: it stops during the start-up, before the
    loop has done anything, or GitLab answered its three requests and the
    loop ran on the projects of the last answer. *)
Lemma main_cases (env : gmap string string) (gl : gitlab_service) (w : world)
    (abspath : string → path) (script_dir : string) (s s' : program)
    (r : outcome unit) :
  main env gl w abspath script_dir s = (r, s') →
  ∃ s0 evs,
    console s0 = console s ++ evs
    ∧ run s0 = run s
    ∧ (∀ m e, Printed m e ∈ evs → cause gl m e)
    ∧ ((s' = s0 ∧ ∀ a, r ≠ Ret a)
       ∨ ∃ h root g projects,
           authenticate gl h = None
           ∧ groups_get gl h root = inr g
           ∧ projects_list gl h g = inr projects
           ∧ requests evs
             = [Authenticate h; GroupsGet h root; ProjectsList h g]
           ∧ in_run (main_loop w (gl_local_base_path env abspath script_dir)
                       gl_batch gl_timeout projects) s0 = (r, s')).
Proof.
  unfold main, bind.
  destruct (env_or_input env "GL_ROOT_PATH" AskRootPath s) as [r1 s1] eqn:H1.
  apply env_or_input_spec in H1 as (Hrun1 & evs1 & Hc1 & Hrq1 & Hp1).
  destruct r1 as [root|e| |];
    [|intros [= <- <-]; exists s1, evs1; split_and!;
        [done|done|intros m0 e0 Hin; by apply Hp1 in Hin|by left]..].
  destruct (authenticated env gl s1) as [r2 s2] eqn:H2.
  apply authenticated_spec in H2 as (Hrun2 & evs2 & Hc2 & Hp2 & Hr2).
  assert (∀ m e, Printed m e ∈ evs1 ++ evs2 → cause gl m e) as Hp12.
  { intros m0 e0 [Hin|Hin]%elem_of_app; [by apply Hp1 in Hin|by apply Hp2]. }
  destruct r2 as [h|e| |];
    [|intros [= <- <-]; exists s2, (evs1 ++ evs2); rewrite Hc2, Hc1, <- app_assoc;
        split_and!; [done|congruence|done|by left]..].
  destruct Hr2 as [(h' & [= <-] & Hauth & Hrq2)|Hr2]; [|by destruct (Hr2 h)].
  destruct (catalog gl h root s2) as [r3 s3] eqn:H3.
  apply catalog_spec in H3 as (Hrun3 & evs3 & Hc3 & Hp3 & Hr3).
  assert (∀ m e, Printed m e ∈ evs1 ++ evs2 ++ evs3 → cause gl m e) as Hp123.
  { intros m0 e0 Hin. rewrite app_assoc in Hin.
    apply elem_of_app in Hin as [Hin|Hin]; [by apply Hp12|by apply Hp3]. }
  destruct r3 as [projects|e| |];
    [|intros [= <- <-]; exists s3, (evs1 ++ evs2 ++ evs3);
        rewrite Hc3, Hc2, Hc1, <- !app_assoc;
        split_and!; [done|congruence|done|by left]..].
  destruct Hr3 as [(g & projects' & [= <-] & Hg & Hl & Hev3)|Hr3];
    [|by destruct (Hr3 projects)].
  intros Hloop. exists s3, (evs1 ++ evs2 ++ evs3).
  rewrite Hc3, Hc2, Hc1, <- !app_assoc. split_and!; [done|congruence|done|].
  right. exists h, root, g, projects. split_and!; try done.
  rewrite !requests_app, Hrq1, Hrq2, Hev3. done.
Qed.

(** X20. Every failure message names what went wrong: the message of
    [auth_with_gitlab_credentials] shows a [GitlabAuthenticationError]
    raised while connecting with a URL and a token, that of
    [auth_with_gitlab_config] a [GitlabAuthenticationError] or
    [GitlabDataError] raised while connecting by a section of the
    configuration file, that of [get_root_group_path] a [GitlabGetError]
    raised by the lookup of the group, and the message of [__main__]
    shows an exception raised by the listing of the projects, or one
    raised by the lookup of the group that is no [GitlabGetError]. *)
Theorem failure_message_names_its_cause (env : gmap string string)
    (gl : gitlab_service) (w : world) (abspath : string → path)
    (script_dir : string) (lines : list string) (fs : fsys)
    (r : outcome unit) (s' : program) (m : message) (e : exn) :
  main env gl w abspath script_dir (boot lines fs) = (r, s') →
  Printed m e ∈ console s' →
  cause gl m e.
Proof.
  intros Hmain Hin.
  apply main_cases in Hmain as (s0 & evs & Hc & _ & Hp & Hend).
  cbn [boot console app] in Hc.
  assert (console s' = evs) as Hc'.
  { destruct Hend as [[-> _]|(h & root & g & projects & _ & _ & _ & _ & Hloop)];
      [done|]. apply in_run_keeps in Hloop as (_ & -> & _). done. }
  rewrite Hc' in Hin. by apply Hp.
Qed.

Lemma failure_message_names_its_cause_witness :
  cause Office.gitlab_locked AuthConfigFailed GitlabAuthenticationError.
Proof.
  apply (failure_message_names_its_cause Office.env Office.gitlab_locked
           Example.remote_ok Office.abspath "/opt/sync" [] Example.fs_empty
           _ _ _ _ (surjective_pairing _)).
  assert (console (main Office.env Office.gitlab_locked Example.remote_ok
                     Office.abspath "/opt/sync" (boot [] Example.fs_empty)).2
          = [Requested (Authenticate (ByConfig "work"));
             Printed AuthConfigFailed GitlabAuthenticationError]) as ->
    by (vm_compute; reflexivity).
  right. left.
Defined.

(** X21. Only what GitLab listed is mirrored: when a project was handed to
    the pool, the script had made exactly three requests, in this order
    and with one handle (authentication, the lookup of the group, the
    listing of its projects), GitLab had answered all three, and the
    project is in the list of the last answer. *)
Theorem only_listed_projects_are_mirrored (env : gmap string string)
    (gl : gitlab_service) (w : world) (abspath : string → path)
    (script_dir : string) (lines : list string) (fs : fsys)
    (r : outcome unit) (s' : program) (pr : project) :
  main env gl w abspath script_dir (boot lines fs) = (r, s') →
  pr ∈ submitted (s_trace (run s')) →
  ∃ h root g projects,
    requests (console s') = [Authenticate h; GroupsGet h root; ProjectsList h g]
    ∧ authenticate gl h = None
    ∧ groups_get gl h root = inr g
    ∧ projects_list gl h g = inr projects
    ∧ pr ∈ projects.
Proof.
  intros Hmain Hin.
  apply main_cases in Hmain as (s0 & evs & Hc & Hrun & _ & Hend).
  cbn [boot console run app] in Hc, Hrun.
  destruct Hend as [[-> _]|(h & root & g & projects & Hauth & Hg & Hl & Hrq & Hloop)].
  - rewrite Hrun in Hin. by apply elem_of_nil in Hin.
  - apply in_run_keeps in Hloop as (_ & Hc' & Hloop). rewrite Hrun in Hloop.
    apply main_loop_spec in Hloop as (n & l & Htr & Hsub & _); [|unfold gl_batch; lia].
    cbn [start s_trace app] in Htr. rewrite Htr, Hsub in Hin.
    exists h, root, g, projects. rewrite Hc', Hc. split_and!; try done.
    by eapply subseteq_take.
Qed.

Lemma only_listed_projects_are_mirrored_witness :
  ∃ h root g projects,
    requests (console (main Office.env Office.gitlab_open Example.remote_ok
                         Office.abspath "/opt/sync"
                         (boot [] Example.fs_empty)).2)
    = [Authenticate h; GroupsGet h root; ProjectsList h g]
    ∧ authenticate Office.gitlab_open h = None
    ∧ groups_get Office.gitlab_open h root = inr g
    ∧ projects_list Office.gitlab_open h g = inr projects
    ∧ Example.api ∈ projects.
Proof.
  eapply (only_listed_projects_are_mirrored Office.env Office.gitlab_open
            Example.remote_ok Office.abspath "/opt/sync" [] Example.fs_empty
            _ _ Example.api (surjective_pairing _)).
  destruct (main_sound Office.env Office.gitlab_open
              Example.remote_ok Office.abspath "/opt/sync" [] Example.fs_empty
              "acme" "acme" [Example.api; Example.infra] _ _
              eq_refl (or_introl (ex_intro _ "work" eq_refl))
              (λ _, eq_refl) (λ _, eq_refl) (λ _, eq_refl)
              remote_ok_sound fs_empty_all_writable (surjective_pairing _))
    as (_ & _ & _ & Hsub & _).
  rewrite Hsub. left.
Defined.
